(** * checkpoint_schedules: H-Revolve and two-level checkpointing schedules

    A shallow embedding of

      - [checkpoint_schedules/hrevolve_sequence/hrevolve.py]
        (the cost tables [get_hopt_table] and the sequence builders
        [hrevolve_recurse], [hrevolve_aux], [hrevolve]),
      - [checkpoint_schedules/hrevolve.py]
        ([HRevolveCheckpointSchedule.iter], the action adapter),
      - [checkpoint_schedules/twolevel_binomial.py]
        ([TwoLevelCheckpointSchedule]),
      - the driver loop of [examples/test.py].

    Conventions.
      - Python floats are IEEE binary64 numbers: they are Rocq's primitive
        floats, so [float("inf")] is [infinity] and [<] is [PrimFloat.ltb].
      - Step counts, levels and slot counts are natural numbers in the
        builders (they index lists); the positions [n], [r] and [max_n] of
        the schedules are integers ([Z]), since the code subtracts them.
      - A Python exception is a value of [exn]; a call that may raise
        returns a [result]; a generator is a function from its state to
        the values it yields and the way it ends ([Gen.gen]).
      - The modules the three files import but that are not among the
        sources ([basic_functions.py], [parameters.py], [schedule.py],
        [utils.py]) are modelled from the specification where a
        definition says so, or left as parameters ([cbwd], [cfwd],
        [n_advance]).

    The first part holds the definitions, the second part the properties
    proved of them. *)

From Stdlib Require Import ZArith PrimFloat Uint63 SpecFloat FloatOps FloatAxioms.
From stdpp Require Import base list strings gmap.

(** ** Exceptions and results *)

(** The exceptions the three files can end with. [KeyError] carries the
    message of a [raise KeyError(...)], or names the key a dict or set
    misses. *)
Inductive exn : Type :=
| IndexError
| AssertionError
| TypeError
| UnboundLocalError
| ZeroDivisionError
| ValueError (msg : string)
| KeyError (msg : string)
| RuntimeError (msg : string).

(** [OutOfFuel] is not a Python outcome: it marks a recursion or a loop
    that was given too little fuel; [fuel_enough] and
    [reverse_pass_terminates] show that the fuel given is enough. *)
Inductive result (A : Type) : Type :=
| Ok (a : A)
| Raise (e : exn)
| OutOfFuel.
Arguments Ok {A} a.
Arguments Raise {A} e.
Arguments OutOfFuel {A}.

Global Instance result_ret : MRet result := fun _ a => Ok a.
Global Instance result_bind : MBind result := fun _ _ f m =>
  match m with
  | Ok a => f a
  | Raise e => Raise e
  | OutOfFuel => OutOfFuel
  end.

(** [terminates m]: [m] is a Python outcome, a value or an exception. *)
Definition terminates {A} (m : result A) : Prop := m ≠ OutOfFuel.

(** [no_key_error m]: [m] does not raise [KeyError]. *)
Definition no_key_error {A} (m : result A) : Prop := ∀ msg, m ≠ Raise (KeyError msg).

(** [refines r r']: [r'] is [r], or [r] ran out of fuel. *)
Definition refines {A} (r r' : result A) : Prop := r = OutOfFuel ∨ r = r'.

(** [l[i]] for a non-negative index. *)
Definition getitem {A} (l : list A) (i : nat) : result A :=
  match l !! i with
  | Some x => Ok x
  | None => Raise IndexError
  end.

(** [for x in xs: s = body(x, s)], stopping at the first exception. *)
Fixpoint foldM {X S} (body : X → S → result S) (xs : list X) (s : S)
  : result S :=
  match xs with
  | [] => Ok s
  | x :: xs' => s' ← body x s; foldM body xs' s'
  end.

(** [[f(x) for x in xs]]. *)
Fixpoint mapM {X Y} (f : X → result Y) (xs : list X) : result (list Y) :=
  match xs with
  | [] => Ok []
  | x :: xs' => y ← f x; ys ← mapM f xs'; Ok (y :: ys)
  end.

(** [range(a, b)]. *)
Definition range (a b : nat) : list nat := seq a (b - a).

(** ** Floats *)

(** The implicit conversion of a (small, non-negative) Python int in a
    float expression. *)
Definition float_of_nat (n : nat) : float :=
  PrimFloat.of_uint63 (Uint63.of_Z (Z.of_nat n)).

(** [min(a, b)]: the first argument unless the second is smaller. *)
Definition min2 (a b : float) : float :=
  if (b <? a)%float then b else a.

(** [min(xs)]: the first smallest element; [ValueError] on an empty list. *)
Definition py_min (xs : list float) : result float :=
  match xs with
  | [] => Raise (ValueError "min() arg is an empty sequence")
  | x :: xs' => Ok (fold_left min2 xs' x)
  end.

(** ** The cost tables ([get_hopt_table]) *)

Module HOpt.

(** [opt[k][l][m]]: a list of levels, each a list of rows (one per length),
    each a list of cells (one per slot count). *)
Abbreviation table := (list (list (list float))).

(** [[[[inf] * (cvect[i] + 1) for _ in range(lmax + 1)] for i in range(K)]] *)
Definition new_table (lmax : nat) (cvect : list nat) : table :=
  (λ c, replicate (lmax + 1) (replicate (c + 1) infinity)) <$> cvect.

(** [t[k][l][m]] *)
Definition tget (t : table) (k l m : nat) : result float :=
  p ← getitem t k; r ← getitem p l; getitem r m.

(** [t[k][l][m] = v] *)
Definition tset (t : table) (k l m : nat) (v : float) : result table :=
  p ← getitem t k; r ← getitem p l; _ ← getitem r m;
  Ok (<[k := <[l := <[m := v]> r]> p]> t).

Record tables : Type := Tables { optp : table; opt : table }.

Section get_hopt_table.
Variables (lmax : nat) (cvect : list nat) (wvect rvect : list float).
Variables (cbwd cfwd : float).

(** Lines 69-71. *)
Definition init_l0 (k m : nat) (s : tables) : result tables :=
  o ← tset (opt s) k 0 m cbwd;
  p ← tset (optp s) k 0 m cbwd;
  Ok (Tables p o).

(** Lines 72-76. *)
Definition init_l1 (k m : nat) (s : tables) : result tables :=
  if (m =? 0) && (k =? 0) then Ok s
  else
    r0 ← getitem rvect 0;
    p ← tset (optp s) k 1 m (cfwd + 2 * cbwd + r0)%float;
    w0 ← getitem wvect 0;
    v ← tget p k 1 m;
    o ← tset (opt s) k 1 m (w0 + v)%float;
    Ok (Tables p o).

(** Lines 67-76, one iteration of [for k in range(K)]. *)
Definition init_level (k : nat) (s : tables) : result tables :=
  mmax ← getitem cvect k;
  s1 ← foldM (init_l0 k) (range 0 (mmax + 1)) s;
  foldM (init_l1 k) (range 0 (mmax + 1)) s1.

(** Lines 80-81. *)
Definition fill0_one (l : nat) (s : tables) : result tables :=
  r0 ← getitem rvect 0;
  p ← tset (optp s) 0 l 1
        (float_of_nat (l + 1) * cbwd
         + float_of_nat (l * (l + 1)) / 2 * cfwd
         + float_of_nat l * r0)%float;
  w0 ← getitem wvect 0;
  v ← tget p 0 l 1;
  o ← tset (opt s) 0 l 1 (w0 + v)%float;
  Ok (Tables p o).

(** The list comprehension of lines 84 and 93:
    [[j*cfwd + opt[k][l-j][m-1] + rvect[k] + optp[k][j-1][m]
      for j in range(1, l)]]. *)
Definition list_mem (s : tables) (k l m : nat) : result (list float) :=
  mapM (λ j,
    a ← tget (opt s) k (l - j) (m - 1);
    rk ← getitem rvect k;
    b ← tget (optp s) k (j - 1) m;
    Ok (float_of_nat j * cfwd + a + rk + b)%float) (range 1 l).

(** Lines 84-85. *)
Definition fill0_many (m l : nat) (s : tables) : result tables :=
  js ← list_mem s 0 l m;
  one ← tget (optp s) 0 l 1;
  v ← py_min (js ++ [one]);
  p ← tset (optp s) 0 l m v;
  w0 ← getitem wvect 0;
  v' ← tget p 0 l m;
  o ← tset (opt s) 0 l m (w0 + v')%float;
  Ok (Tables p o).

(** Lines 78-85. *)
Definition fill_level0 (s : tables) : result tables :=
  mmax ← getitem cvect 0;
  s1 ← foldM fill0_one (range 2 lmax) s;
  foldM (λ m, foldM (fill0_many m) (range 2 lmax)) (range 2 (mmax + 1)) s1.

(** Line 90. *)
Definition fillk_noslot (k l : nat) (s : tables) : result tables :=
  c ← getitem cvect (k - 1);
  v ← tget (opt s) (k - 1) l c;
  o ← tset (opt s) k l 0 v;
  Ok (Tables (optp s) o).

(** Lines 93-94. *)
Definition fillk_many (k m l : nat) (s : tables) : result tables :=
  c ← getitem cvect (k - 1);
  below ← tget (opt s) (k - 1) l c;
  js ← list_mem s k l m;
  v ← py_min (below :: js);
  p ← tset (optp s) k l m v;
  c' ← getitem cvect (k - 1);
  below' ← tget (opt s) (k - 1) l c';
  wk ← getitem wvect k;
  v' ← tget p k l m;
  o ← tset (opt s) k l m (min2 below' (wk + v')%float);
  Ok (Tables p o).

(** Lines 87-94, one iteration of [for k in range(1, K)]. *)
Definition fill_level (k : nat) (s : tables) : result tables :=
  mmax ← getitem cvect k;
  s1 ← foldM (fillk_noslot k) (range 2 lmax) s;
  foldM (λ m, foldM (fillk_many k m) (range 1 lmax)) (range 1 (mmax + 1)) s1.

(** Lines 62-95. The function returns the pair [(optp, opt)]. *)
Definition get_hopt_table : result tables :=
  let K := length cvect in
  if negb (bool_decide (length wvect = length rvect
                        ∧ length rvect = length cvect))
  then Raise AssertionError
  else
    let s0 := Tables (new_table lmax cvect) (new_table lmax cvect) in
    s1 ← foldM init_level (range 0 K) s0;
    s2 ← fill_level0 s1;
    foldM fill_level (range 1 K) s2.
End get_hopt_table.

(** *** Cells of the returned tables *)

(** [frame Q s s']: the tables [s'] agree with [s] on every cell outside
    [Q], errors included. *)
Definition frame (Q : nat → nat → nat → Prop) (s s' : tables) : Prop :=
  ∀ k l m, ¬ Q k l m →
    tget (optp s') k l m = tget (optp s) k l m
    ∧ tget (opt s') k l m = tget (opt s) k l m.

(** The cell [(k, 1, m)] holds the base values of lines 75-76. *)
Definition base_cell (wvect rvect : list float) (cbwd cfwd : float)
    (k m : nat) (s : tables) : Prop :=
  ∃ w0 r0, wvect !! 0 = Some w0 ∧ rvect !! 0 = Some r0
    ∧ tget (optp s) k 1 m = Ok (cfwd + 2 * cbwd + r0)%float
    ∧ tget (opt s) k 1 m = Ok (w0 + (cfwd + 2 * cbwd + r0))%float.

(** The cell [(k, 1, m)] holds the values lines 93-94 give it at
    [l = 1], where the list comprehension is empty. *)
Definition overwritten_cell (cvect : list nat) (wvect : list float)
    (k m : nat) (s : tables) : Prop :=
  ∃ c below wk, cvect !! (k - 1) = Some c ∧ wvect !! k = Some wk
    ∧ tget (opt s) (k - 1) 1 c = Ok below
    ∧ tget (optp s) k 1 m = Ok below
    ∧ tget (opt s) k 1 m = Ok (min2 below (wk + below)%float).

End HOpt.

(** ** Generators *)

(** A Python generator that reads and writes a state [St] and yields
    values of [Ev]: from a state, the values yielded so far and either the
    result with the final state or the exception that ended the
    iteration. *)
Module Gen.
Section gen.
Context {Ev St : Type}.

Definition gen (A : Type) : Type := St → list Ev * result (A * St).

Definition ret {A} (a : A) : gen A := λ s, ([], Ok (a, s)).
Definition bind {A B} (f : A → gen B) (m : gen A) : gen B := λ s,
  match m s with
  | (out, Ok (a, s')) => let '(out', res) := f a s' in (out ++ out', res)
  | (out, Raise e) => (out, Raise e)
  | (out, OutOfFuel) => (out, OutOfFuel)
  end.

Definition yield (a : Ev) : gen unit := λ s, ([a], Ok (tt, s)).
Definition raise {A} (e : exn) : gen A := λ s, ([], Raise e).
Definition get : gen St := λ s, ([], Ok (s, s)).
Definition modify (f : St → St) : gen unit := λ s, ([], Ok (tt, f s)).
Definition lift {A} (x : result A) : gen A := λ s,
  match x with
  | Ok a => ([], Ok (a, s))
  | Raise e => ([], Raise e)
  | OutOfFuel => ([], OutOfFuel)
  end.
Definition out_of_fuel {A} : gen A := λ s, ([], OutOfFuel).
End gen.
Arguments gen : clear implicits.

Global Instance gen_ret {Ev St} : MRet (gen Ev St) := λ _, ret.
Global Instance gen_bind {Ev St} : MBind (gen Ev St) := λ _ _, bind.
End Gen.

(** ** Operations and sequences *)

(** [Operation], [Sequence] and [argmin] live in
    [hrevolve_sequence/basic_functions.py], which is not among the
    sources; the builders use them through [Operation(type, index)],
    [Sequence.insert], [Sequence.insert_sequence], [Sequence.shift] and
    [argmin(list)], and the adapter reads [Operation.type] and
    [Operation.index]. *)
Module Op.

(** Modelled from the spec: the [kind] of an [Operation], "[Forward],
    [Forwards], [Backward], [Write], [Read], [Discard], [Write_Forward],
    [Discard_Forward]". *)
Inductive kind : Type :=
| Forward | Forwards | Backward | Write | Read | Discard
| Write_Forward | Discard_Forward.

(** Modelled from the spec: the [index] of an operation, "either a single
    step number, a pair (from, to), or a pair (level, step)": an int
    ([Operation("Backward", 0)]) or a two-element list
    ([Operation("Forward", [0, 1])]). *)
Inductive index_t : Type :=
| Step (n : Z)
| Pair (a b : Z).

Record Operation : Type := Operation_ { type : kind; index : index_t }.

(** The string [Operation.type] holds. *)
Definition name (t : kind) : string :=
  match t with
  | Forward => "Forward"
  | Forwards => "Forwards"
  | Backward => "Backward"
  | Write => "Write"
  | Read => "Read"
  | Discard => "Discard"
  | Write_Forward => "Write_Forward"
  | Discard_Forward => "Discard_Forward"
  end.

Global Instance kind_eq_dec : EqDecision kind.
Proof. solve_decision. Defined.
Global Instance index_eq_dec : EqDecision index_t.
Proof. solve_decision. Defined.
Global Instance Operation_eq_dec : EqDecision Operation.
Proof. solve_decision. Defined.

(** Modelled from the spec: [Operation.shift] of basic_functions.py, which
    is not among the sources: "add [δ] to every step index in every
    contained operation (not to the level field of (level, step) pairs)".
    The two entries of a [Forward]/[Forwards] pair are steps; the other
    pairs are (level, step). *)
Definition shift_op (δ : Z) (o : Operation) : Operation :=
  match index o with
  | Step n => Operation_ (type o) (Step (n + δ))
  | Pair a b =>
      match type o with
      | Forward | Forwards => Operation_ (type o) (Pair (a + δ) (b + δ))
      | _ => Operation_ (type o) (Pair a (b + δ))
      end
  end.

(** Modelled from the spec: the flattened, ordered view of a [Sequence]
    of basic_functions.py ("an ordered flat list"; the [concat] knob only
    changes the presentation). [sequence.insert(o)] appends [o] and
    [sequence.insert_sequence(s)] appends the operations of [s]: the
    builders below write both with [++]. *)
Abbreviation Sequence := (list Operation).

Definition shift (δ : Z) (s : Sequence) : Sequence := shift_op δ <$> s.

End Op.

Import Op.

(** Modelled from the spec: [argmin] of basic_functions.py, which is not
    among the sources: "arg-min is the smallest [j] attaining the minimum
    (left-most wins)", where [j] ranges over [[1, l)] and the list holds
    the values for [j = 1, 2, ...]: the result is one more than the
    position of the first smallest element. *)
Fixpoint argmin_from (i best_i : nat) (best : float) (xs : list float) : nat :=
  match xs with
  | [] => best_i
  | x :: xs' =>
      if (x <? best)%float then argmin_from (S i) i x xs'
      else argmin_from (S i) best_i best xs'
  end.

Definition argmin (xs : list float) : nat :=
  match xs with
  | [] => 0
  | x :: xs' => 1 + argmin_from 1 0 x xs'
  end.

(** ** The sequence builders ([hrevolve_aux], [hrevolve_recurse]) *)

Module HRevolveSequence.
Import HOpt.

Definition no_cmem_msg : string :=
  "hrevolve_aux should not be call with cmem = 0. Contact developers.".
Definition no_memory_msg : string :=
  "It's impossible to execute an AC graph of size > 0 with no memory.".

(** The error of line 322. *)
Definition no_memory : result Sequence := Raise (KeyError no_memory_msg).

(** [s] holds an [Operation("Forward", [a, b])]. *)
Definition has_forward_pair (s : Sequence) : Prop :=
  ∃ a b, Operation_ Op.Forward (Pair a b) ∈ s.

(** [s] holds an operation of kind [Write_Forward]. *)
Definition has_write_forward (s : Sequence) : Prop :=
  ∃ ix, Operation_ Op.Write_Forward ix ∈ s.

Definition op (t : kind) (n : nat) : Operation := Operation_ t (Step (Z.of_nat n)).
Definition op2 (t : kind) (a b : nat) : Operation :=
  Operation_ t (Pair (Z.of_nat a) (Z.of_nat b)).

Section builders.
Variables (cvect : list nat) (wvect rvect : list float).
(** [params["cfwd"]] and [params["cbwd"]], after [defaults] (parameters.py,
    not among the sources) and the caller's keywords were merged. *)
Variables (cbwd cfwd : float).

(** [if (hoptp is None) or (hopt is None): get_hopt_table(l, ...)] *)
Definition tables_or_compute (tabs : option tables) (l : nat) : result tables :=
  match tabs with
  | Some t => Ok t
  | None => get_hopt_table l cvect wvect rvect cbwd cfwd
  end.

(** Lines 170-176, the body of [for index in range(l - 1, -1, -1)]. *)
Definition scan_body (l index : nat) : Sequence :=
  (if bool_decide (index ≠ l - 1) then [op2 Read 0 0] else [])
  ++ [op2 Forward 0 (index + 1); op2 Write_Forward 0 (index + 1);
      op Backward (index + 1); op2 Discard_Forward 0 (index + 1)].

(** The fixed 8-operation schedule of lines 324-331. *)
Definition unrolled_l1 : Sequence :=
  [op2 Write 0 0; op2 Forward 0 1; op2 Write_Forward 0 1; op Backward 1;
   op2 Discard_Forward 0 1; op2 Read 0 0; op Backward 0; op2 Discard 0 0].

(** Lines 98-226 ([hrevolve_aux]) and 265-354 ([hrevolve_recurse]).
    [tabs] is the pair [(hoptp, hopt)], [None] when the caller leaves it
    out. Each call of the recursion uses up one unit of [fuel]. *)
Fixpoint hrevolve_aux (fuel : nat) (l K cmem : nat) (tabs : option tables)
  {struct fuel} : result Sequence :=
  match fuel with
  | 0 => OutOfFuel
  | S fuel' =>
    t ← tables_or_compute tabs l;
    if cmem =? 0 then Raise (KeyError no_cmem_msg)
    else if l =? 0 then Ok [op Backward 0]
    else if l =? 1 then
      w0 ← getitem wvect 0; r0 ← getitem rvect 0; rK ← getitem rvect K;
      let cheap := (w0 + r0 <? rK)%float in
      Ok ((if cheap then [op2 Write 0 0] else [])
          ++ [op2 Forward 0 1; op2 Write_Forward 0 1; op Backward 1;
              op2 Discard_Forward 0 1]
          ++ [if cheap then op2 Read 0 0 else op2 Read K 0]
          ++ [op Backward 0; op2 Discard 0 0])
    else if (K =? 0) && (cmem =? 1) then
      let indices := rev (seq 0 l) in
      Ok (flat_map (scan_body l) indices
          ++ [op2 Read 0 0; op Backward (List.last indices 0);
              op2 Discard 0 0])
    else if K =? 0 then
      lm ← list_mem rvect cfwd t 0 l cmem;
      mn ← py_min lm;
      one ← tget (optp t) 0 l 1;
      if (mn <? one)%float then
        let jmin := argmin lm in
        s1 ← hrevolve_recurse fuel' (l - jmin) 0 (cmem - 1) (Some t);
        s2 ← hrevolve_aux fuel' (jmin - 1) 0 cmem (Some t);
        Ok ([op2 Forward 0 jmin] ++ shift (Z.of_nat jmin) s1
            ++ [op2 Read 0 0] ++ s2)
      else
        (* hrevolve_aux(l, 0, 1, cvect, wvect, rvect, cfwd, hoptp=hoptp,
           ...): [cfwd] is a seventh positional argument, the parameter
           [hoptp], which is passed by keyword as well. *)
        Raise TypeError
    else
      lm ← list_mem rvect cfwd t K l cmem;
      mn ← py_min lm;
      c ← getitem cvect (K - 1);
      below ← tget (opt t) (K - 1) l c;
      if (mn <? below)%float then
        let jmin := argmin lm in
        s1 ← hrevolve_recurse fuel' (l - jmin) K (cmem - 1) (Some t);
        s2 ← hrevolve_aux fuel' (jmin - 1) K cmem (Some t);
        Ok ([op2 Forward 0 (jmin - 1)] ++ shift (Z.of_nat jmin) s1
            ++ [op2 Read K 0] ++ s2)
      else
        c' ← getitem cvect (K - 1);
        hrevolve_recurse fuel' l (K - 1) c' (Some t)
  end

with hrevolve_recurse (fuel : nat) (l K cmem : nat) (tabs : option tables)
  {struct fuel} : result Sequence :=
  match fuel with
  | 0 => OutOfFuel
  | S fuel' =>
    t ← tables_or_compute tabs l;
    if l =? 0 then Ok [op Backward 0]
    else if (K =? 0) && (cmem =? 0) then Raise (KeyError no_memory_msg)
    else if l =? 1 then Ok unrolled_l1
    else if K =? 0 then
      s ← hrevolve_aux fuel' l 0 cmem (Some t);
      Ok ([op2 Write 0 0] ++ s)
    else
      wK ← getitem wvect K;
      p ← tget (optp t) K l cmem;
      c ← getitem cvect (K - 1);
      below ← tget (opt t) (K - 1) l c;
      if (wK + p <? below)%float then
        s ← hrevolve_aux fuel' l K cmem (Some t);
        Ok ([op2 Write K 0] ++ s)
      else
        c' ← getitem cvect (K - 1);
        hrevolve_recurse fuel' l (K - 1) c' (Some t)
  end.

(** Enough fuel for a call at length [l] and level [K]: a call of
    [hrevolve_recurse] either calls [hrevolve_aux] with the same [l] and
    [K] or lowers [K]; a call of [hrevolve_aux] lowers [l] or [K]. *)
Definition fuel_for (l K : nat) : nat := 2 * (l + K) + 2.

(** The two builders as the recursion calls them, with the tables
    passed on and fuel enough for the call. *)
Definition hrevolve_aux_tab (l K cmem : nat) (t : tables) : result Sequence :=
  hrevolve_aux (2 * (l + K) + 1) l K cmem (Some t).
Definition hrevolve_recurse_tab (l K cmem : nat) (t : tables)
  : result Sequence :=
  hrevolve_recurse (fuel_for l K) l K cmem (Some t).

(** [hrevolve(l, cvect, wvect, rvect, **params)] *)
Definition hrevolve (l : nat) : result Sequence :=
  c ← getitem cvect (length cvect - 1);
  hrevolve_recurse (fuel_for l (length cvect - 1)) l (length cvect - 1) c None.
End builders.

End HRevolveSequence.

(** ** The action adapter ([HRevolveCheckpointSchedule]) *)

Module HRevolve.

(** Modelled from the spec: the actions of [schedule.py], which is not
    among the sources, with the arguments [hrevolve.py] gives them:
    "[Clear(clear_ics, clear_data)]", "[Configure(store_ics, store_data)]",
    "[Forward(n0, n1)]", "[Reverse(n1, n0)]", "[Read(n, storage, delete)]",
    "[Write(n, storage)]", "[EndForward]", "[EndReverse(exhausted)]". *)
Inductive Action : Type :=
| Clear (clear_ics clear_data : bool)
| Configure (store_ics store_data : bool)
| Forward (n0 n1 : Z)
| Reverse (n1 n0 : Z)
| Read (n : Z) (storage : string) (delete : bool)
| Write (n : Z) (storage : string)
| EndForward
| EndReverse (exhausted : bool).

Global Instance Action_eq_dec : EqDecision Action.
Proof. solve_decision. Defined.

Definition invalid_state : exn := RuntimeError "Invalid checkpointing state".
Definition invalid_schedule : exn := RuntimeError "Invalid schedule".
Definition unexpected_action (t : kind) : exn :=
  RuntimeError ("Unexpected action: " +:+ Op.name t).

(** What [action(i)] returns, [cp_action, (n_0, n_1, storage)], by kind:
    ["Forward"] carries two ints and no storage, ["Backward"] carries the
    operation's index as it is, the three checkpoint kinds carry the step
    and the storage name. *)
Inductive cp_action : Type :=
| A_Forward (n_0 n_1 : Z)
| A_Backward (n_0 : index_t)
| A_Read (n_0 : Z) (storage : string)
| A_Write (n_0 : Z) (storage : string)
| A_Discard (n_0 : Z) (storage : string).

(** [{0: "RAM", 1: "disk"}[storage]] *)
Definition storage_name (level : Z) : result string :=
  if bool_decide (level = 0%Z) then Ok "RAM"
  else if bool_decide (level = 1%Z) then Ok "disk"
  else Raise (KeyError "storage").

(** [storage, n_0 = action.index; storage = {...}[storage]] *)
Definition unpack_cp (ix : index_t) : result (Z * string) :=
  match ix with
  | Step _ => Raise TypeError
  | Pair level n_0 => st ← storage_name level; Ok (n_0, st)
  end.

(** Lines 52-89. *)
Definition action (schedule : list Operation) (i : nat) : result cp_action :=
  match schedule !! i with
  | None => Raise AssertionError
  | Some a =>
      match type a with
      | Op.Forward =>
          (* n_0 = action.index; n_1 = n_0 + 1 *)
          match index a with
          | Step n_0 => Ok (A_Forward n_0 (n_0 + 1))
          | Pair _ _ => Raise TypeError
          end
      | Op.Forwards =>
          match index a with
          | Step _ => Raise TypeError
          | Pair n_0 n_1 =>
              if bool_decide (n_1 ≤ n_0)%Z then Raise invalid_schedule
              else Ok (A_Forward n_0 (n_1 + 1))
          end
      | Op.Backward => Ok (A_Backward (index a))
      | Op.Read => '(n_0, st) ← unpack_cp (index a); Ok (A_Read n_0 st)
      | Op.Write => '(n_0, st) ← unpack_cp (index a); Ok (A_Write n_0 st)
      | Op.Discard => '(n_0, st) ← unpack_cp (index a); Ok (A_Discard n_0 st)
      | Op.Write_Forward | Op.Discard_Forward =>
          Raise (unexpected_action (type a))
      end
  end.

(** The mutable state of the generator: the attributes [_n], [_r] and
    [_exhausted] of the schedule and the locals [snapshots], [deferred_cp]
    and [cp_delete] of [iter] ([cp_delete] is unbound until a [Read]
    assigns it, and keeps its value from one iteration to the next). *)
Record state : Type := State {
  n : Z;
  r : Z;
  exhausted : bool;
  snapshots : gset Z;
  deferred_cp : option (Z * string);
  cp_delete : option bool;
}.

Local Abbreviation gen := (Gen.gen Action state).
Local Abbreviation yield := (@Gen.yield Action state).
Local Abbreviation raise := (@Gen.raise Action state _).
Local Abbreviation get := (@Gen.get Action state).
Local Abbreviation modify := (@Gen.modify Action state).
Local Abbreviation lift := (@Gen.lift Action state _).

Definition set_n (v : Z) (s : state) : state :=
  State v (r s) (exhausted s) (snapshots s) (deferred_cp s) (cp_delete s).
Definition set_r (v : Z) (s : state) : state :=
  State (n s) v (exhausted s) (snapshots s) (deferred_cp s) (cp_delete s).
Definition set_exhausted (v : bool) (s : state) : state :=
  State (n s) (r s) v (snapshots s) (deferred_cp s) (cp_delete s).
Definition set_snapshots (v : gset Z) (s : state) : state :=
  State (n s) (r s) (exhausted s) v (deferred_cp s) (cp_delete s).
Definition set_deferred_cp (v : option (Z * string)) (s : state) : state :=
  State (n s) (r s) (exhausted s) (snapshots s) v (cp_delete s).
Definition set_cp_delete (v : option bool) (s : state) : state :=
  State (n s) (r s) (exhausted s) (snapshots s) (deferred_cp s) v.

(** The actions that flushing [deferred_cp] yields, and the set
    [snapshots] after it. *)
Definition flushed_actions (s : state) : list Action :=
  match deferred_cp s with
  | Some (n_0, st) => [Write n_0 st]
  | None => []
  end.

Definition flushed_snapshots (s : state) : gset Z :=
  match deferred_cp s with
  | Some (n_0, _) => {[n_0]} ∪ snapshots s
  | None => snapshots s
  end.

(** What a [Read] yields once [cp_delete] is known: with
    [cp_delete = True] the step must be in [snapshots]
    ([snapshots.remove(n_0)]). *)
Definition read_outcome (n_0 : Z) (storage : string) (del : bool) (s : state)
  : list Action * result (unit * state) :=
  if del && negb (bool_decide (n_0 ∈ snapshots s)) then
    ([Clear true true], Raise (KeyError "n_0"))
  else
    ([Clear true true; Read n_0 storage del],
     Ok (tt, State n_0 (r s) (exhausted s)
               (if del then snapshots s ∖ {[n_0]} else snapshots s)
               (deferred_cp s) (Some del))).

Section iter.
(** [self._max_n] and [self._schedule]. *)
Variables (max_n : Z) (schedule : list Operation).

(** Lines 97-102. *)
Definition write_deferred_cp : gen unit :=
  s ← get;
  match deferred_cp s with
  | Some (n_0, st) =>
      _ ← modify (set_snapshots ({[n_0]} ∪ snapshots s));
      _ ← yield (Write n_0 st);
      modify (set_deferred_cp None)
  | None => mret tt
  end.

(** Lines 107-114. *)
Definition do_forward (n_0 n_1 : Z) : gen unit :=
  s ← get;
  if bool_decide (n_0 ≠ n s) then raise invalid_state
  else
    _ ← yield (Clear true true);
    _ ← yield (Configure (bool_decide (n_0 ∉ snapshots s)) false);
    _ ← modify (set_n n_1);
    yield (Forward n_0 n_1).

(** Lines 115-132. An index that is a list is different from the int
    [self._n]. *)
Definition do_backward (ix : index_t) : gen unit :=
  s ← get;
  match ix with
  | Pair _ _ => raise invalid_state
  | Step n_0 =>
      if bool_decide (n_0 ≠ n s) then raise invalid_state
      else if bool_decide (n_0 ≠ max_n - r s - 1)%Z then raise invalid_state
      else
        _ ← write_deferred_cp;
        _ ← yield (Clear true true);
        _ ← yield (Configure false true);
        _ ← modify (set_n (n_0 + 1));
        _ ← yield (Forward n_0 (n_0 + 1));
        _ ← (if bool_decide (n_0 + 1 = max_n)%Z then
               if bool_decide (r s ≠ 0%Z) then raise invalid_state
               else yield EndForward
             else mret tt);
        _ ← modify (set_r (r s + 1));
        yield (Reverse (n_0 + 1) n_0)
  end.

(** Lines 133-152. *)
Definition do_read (i : nat) (n_0 : Z) (storage : string) : gen unit :=
  s ← get;
  if bool_decide (deferred_cp s ≠ None) then raise invalid_state
  else
    _ ← (if bool_decide (n_0 = max_n - r s - 1)%Z then
           modify (set_cp_delete (Some true))
         else if bool_decide (Z.of_nat i < Z.of_nat (length schedule) - 2)%Z
         then
           d ← lift (action schedule (i + 2));
           match d with
           | A_Discard d_n_0 d_storage =>
               if bool_decide (d_n_0 ≠ n_0 ∨ d_storage ≠ storage)
               then raise invalid_schedule
               else modify (set_cp_delete (Some true))
           | _ => modify (set_cp_delete (Some false))
           end
         else mret tt);
    _ ← yield (Clear true true);
    s' ← get;
    match cp_delete s' with
    | None => raise UnboundLocalError
    | Some del =>
        _ ← (if del then
               (* snapshots.remove(n_0) *)
               if bool_decide (n_0 ∈ snapshots s') then
                 modify (set_snapshots (snapshots s' ∖ {[n_0]}))
               else raise (KeyError "n_0")
             else mret tt);
        _ ← modify (set_n n_0);
        yield (Read n_0 storage del)
    end.

(** Lines 153-166. *)
Definition do_write (i : nat) (n_0 : Z) (storage : string) : gen unit :=
  s ← get;
  if bool_decide (n_0 ≠ n s) then raise invalid_state
  else
    _ ← write_deferred_cp;
    _ ← modify (set_deferred_cp (Some (n_0, storage)));
    if bool_decide (0 < i) then
      p ← lift (action schedule (i - 1));
      match p with
      | A_Read r_n_0 _ =>
          if bool_decide (r_n_0 ≠ n_0) then raise invalid_schedule
          else write_deferred_cp
      | _ => mret tt
      end
    else mret tt.

(** Lines 167-174. *)
Definition do_discard (i : nat) (n_0 : Z) (storage : string) : gen unit :=
  if bool_decide (i < 2) then raise invalid_schedule
  else
    p ← lift (action schedule (i - 2));
    match p with
    | A_Read r_n_0 r_storage =>
        if bool_decide (r_n_0 ≠ n_0 ∨ r_storage ≠ storage)
        then raise invalid_schedule
        else mret tt
    | _ => raise invalid_schedule
    end.

(** Lines 105-176, the body of [for i in range(len(self._schedule))]. *)
Definition step (i : nat) : gen unit :=
  a ← lift (action schedule i);
  match a with
  | A_Forward n_0 n_1 => do_forward n_0 n_1
  | A_Backward ix => do_backward ix
  | A_Read n_0 storage => do_read i n_0 storage
  | A_Write n_0 storage => do_write i n_0 storage
  | A_Discard n_0 storage => do_discard i n_0 storage
  end.

Fixpoint for_each (ixs : list nat) : gen unit :=
  match ixs with
  | [] => mret tt
  | i :: ixs' => _ ← step i; for_each ixs'
  end.

(** Lines 178-184. *)
Definition finish : gen unit :=
  s ← get;
  if bool_decide (size (snapshots s) ≠ 0) then raise invalid_state
  else
    _ ← yield (Clear true true);
    _ ← modify (set_exhausted true);
    yield (EndReverse true).

(** Lines 94-184, from the point where [self._max_n] is known. *)
Definition run : gen unit :=
  _ ← for_each (range 0 (length schedule));
  finish.
End iter.

(** The schedule object after [__init__]. *)
Record HRevolveCheckpointSchedule : Type := Schedule {
  _max_n : option Z;
  _snapshots_in_ram : nat;
  _snapshots_on_disk : nat;
  _schedule : list Operation;
  _state : state;
}.

(** Modelled from the spec: [CheckpointSchedule.__init__] of
    [schedule.py] leaves "[n] — current forward position (initially 0)"
    and "[r] — count of reverse steps completed (initially 0)"; with them,
    [_exhausted = False] (line 41) and the fresh locals of [iter]. *)
Definition initial_state : state := State 0 0 false ∅ None None.

(** Lines 35-47. [cbwd] and [cfwd] are the entries of [defaults] that
    reach the builders: [uf] and [ub] are forwarded under their own names,
    which neither [get_hopt_table] nor [hrevolve_aux] reads. *)
Definition init (max_n snapshots_in_ram snapshots_on_disk : nat)
    (wvect rvect : list float) (cbwd cfwd : float)
  : result HRevolveCheckpointSchedule :=
  let cvect := [snapshots_in_ram; snapshots_on_disk] in
  sched ← HRevolveSequence.hrevolve cvect wvect rvect cbwd cfwd max_n;
  Ok (Schedule (Some (Z.of_nat max_n)) snapshots_in_ram snapshots_on_disk
        sched initial_state).

(** Lines 49-184: the actions yielded by a full iteration and how it ends. *)
Definition iter (sch : HRevolveCheckpointSchedule)
  : list Action * result (unit * state) :=
  match _max_n sch with
  | None => ([], Raise invalid_state)
  | Some max_n => run max_n (_schedule sch) (_state sch)
  end.

(** Lines 186-190. *)
Definition is_exhausted (s : state) : bool := exhausted s.
Definition uses_disk_storage (sch : HRevolveCheckpointSchedule) : bool :=
  bool_decide (0 < _snapshots_on_disk sch).

End HRevolve.

(** ** The two-level schedule ([TwoLevelCheckpointSchedule]) *)

Module TwoLevel.

(** Modelled from the spec: [StorageType] of [schedule.py], which is not
    among the sources, a "tagged enum: [RAM], [DISK], [FWD_RESTART],
    [ADJ_DEPS]". *)
Inductive StorageType : Type := RAM | DISK | FWD_RESTART | ADJ_DEPS.

(** Modelled from the spec: the actions of [schedule.py], with the
    arguments [twolevel_binomial.py] gives them: [Forward] with the two
    store flags and the storage, [Reverse] with the flag that clears the
    adjoint dependencies, "[Copy(n, from, to)] / [Move(n, from, to)]". *)

Inductive Action : Type :=
| Forward (n0 n1 : Z) (write_ics write_adj_deps : bool) (storage : StorageType)
| Reverse (n1 n0 : Z) (clear_adj_deps : bool)
| Copy (n : Z) (from_storage to_storage : StorageType)
| Move (n : Z) (from_storage to_storage : StorageType)
| EndForward
| EndReverse (exhausted : bool).

Global Instance StorageType_eq_dec : EqDecision StorageType.
Proof. solve_decision. Defined.
Global Instance Action_eq_dec : EqDecision Action.
Proof. solve_decision. Defined.

Definition invalid_state : exn := RuntimeError "Invalid checkpointing state".

(** The attributes set by [__init__] (lines 56-59). *)
Record TwoLevelCheckpointSchedule : Type := Schedule {
  _period : Z;
  _binomial_snapshots : Z;
  _binomial_storage : StorageType;
  _trajectory : string;
}.

(** Lines 46-59. *)
Definition init (period binomial_snapshots : Z) (binomial_storage : StorageType)
    (binomial_trajectory : string) : result TwoLevelCheckpointSchedule :=
  if bool_decide (period < 1)%Z then Raise (ValueError "period must be positive")
  else if negb (bool_decide (binomial_storage ∈ [RAM; DISK]))
  then Raise (ValueError "Invalid storage")
  else Ok (Schedule period binomial_snapshots binomial_storage
             binomial_trajectory).

(** Lines 151-153. *)
Definition is_exhausted (sch : TwoLevelCheckpointSchedule) : bool := false.

(** Lines 155-167. *)
Definition uses_storage_type (sch : TwoLevelCheckpointSchedule)
    (storage_type : StorageType) : bool :=
  bool_decide (storage_type = _binomial_storage sch).

(** The attributes [_n] and [_r], which the iterator reads and writes.
    [_max_n] is written by the consumer only: it is [None] until the
    schedule is finalized, and fixed from then on. *)
Record state : Type := State { n : Z; r : Z }.

(** Modelled from the spec: [CheckpointSchedule.__init__()] of
    [schedule.py] leaves [n] and [r] "initially 0". *)
Definition initial_state : state := State 0 0.

Definition set_n (v : Z) (s : state) : state := State v (r s).
Definition set_r (v : Z) (s : state) : state := State (n s) v.

(** What the iterator yields, with the value of the local list
    [snapshots] at the yield. *)
Definition event : Type := Action * list Z.

Local Abbreviation gen := (Gen.gen event state).
Local Abbreviation raise := (@Gen.raise event state _).
Local Abbreviation get := (@Gen.get event state).
Local Abbreviation modify := (@Gen.modify event state).
Local Abbreviation lift := (@Gen.lift event state _).

Section iterator.
Variable sch : TwoLevelCheckpointSchedule.
(** [n_advance(n, snapshots, trajectory=...)] of [utils.py], which is not
    among the sources: any function that returns an int or raises. *)
Variable n_advance : Z → Z → string → result Z.

Let period := _period sch.
Let binomial_snapshots := _binomial_snapshots sch.
Let binomial_storage := _binomial_storage sch.

Definition yield (a : Action) (snapshots : list Z) : gen unit :=
  Gen.yield (a, snapshots).

(** Lines 64-71, one iteration of [while self._max_n is None], given the
    current [self._max_n]: [None] when the loop is left. The test of line
    65 repeats the loop condition and never raises. The list [snapshots]
    does not exist yet. *)
Definition forward_step (max_n : option Z) : gen (option unit) :=
  match max_n with
  | Some _ => mret None
  | None =>
      s ← get;
      let n0 := n s in
      let n1 := (n0 + period)%Z in
      _ ← modify (set_n n1);
      _ ← yield (Forward n0 n1 true false DISK) [];
      mret (Some tt)
  end.

(** Lines 107-111 and 118-122: [n1 = n0 + n_advance(...); assert n1 > n0;
    self._n = n1]; returns [(n0, n1)]. *)
Definition advance (mx n_snapshots : Z) : gen (Z * Z) :=
  s ← get;
  let n0 := n s in
  k ← lift (n_advance (mx - r s - n0) n_snapshots (_trajectory sch));
  let n1 := (n0 + k)%Z in
  if negb (bool_decide (n0 < n1)%Z) then raise AssertionError
  else
    _ ← modify (set_n n1);
    mret (n0, n1).

(** Lines 114-128, [while self._n < self._max_n - self._r - 1]. *)
Fixpoint inner_loop (fuel : nat) (mx : Z) (snapshots : list Z)
  : gen (list Z) :=
  match fuel with
  | 0 => Gen.out_of_fuel
  | S fuel' =>
      s ← get;
      if bool_decide (n s < mx - r s - 1)%Z then
        let n_snapshots :=
          (binomial_snapshots + 1 - Z.of_nat (length snapshots))%Z in
        '(n0, n1) ← advance mx n_snapshots;
        _ ← yield (Forward n0 n1 true false binomial_storage) snapshots;
        if bool_decide (binomial_snapshots + 1 ≤ Z.of_nat (length snapshots))%Z
        then raise invalid_state
        else inner_loop fuel' mx (snapshots ++ [n0])
      else mret snapshots
  end.

(** The loop above, entered from the current state: every iteration
    moves [self._n] forward, so it runs at most
    [self._max_n - self._r - 1 - self._n] times. *)
Definition inner_while (mx : Z) (snapshots : list Z) : gen (list Z) :=
  s ← get;
  inner_loop (S (Z.to_nat (mx - r s - 1 - n s))) mx snapshots.

(** Lines 87-137, the body of [while self._r < self._max_n - n0s]. *)
Definition block_body (mx n0s : Z) (snapshots : list Z) : gen (list Z) :=
  match last snapshots with
  | None => raise invalid_state
  | Some cp_n =>
      s ← get;
      snapshots' ←
        (if bool_decide (cp_n = mx - r s - 1)%Z then
           let popped := removelast snapshots in
           _ ← modify (set_n cp_n);
           _ ← (if bool_decide (cp_n = n0s) then
                  yield (Copy cp_n DISK FWD_RESTART) popped
                else yield (Move cp_n binomial_storage FWD_RESTART) popped);
           mret popped
         else
           _ ← modify (set_n cp_n);
           _ ← (if bool_decide (cp_n = n0s) then
                  yield (Copy cp_n DISK FWD_RESTART) snapshots
                else yield (Copy cp_n binomial_storage FWD_RESTART) snapshots);
           let n_snapshots :=
             (binomial_snapshots + 1 - Z.of_nat (length snapshots) + 1)%Z in
           '(n0, n1) ← advance mx n_snapshots;
           _ ← yield (Forward n0 n1 false false FWD_RESTART) snapshots;
           snaps ← inner_while mx snapshots;
           s1 ← get;
           if bool_decide (n s1 ≠ mx - r s1 - 1)%Z then raise invalid_state
           else mret snaps);
      s2 ← get;
      _ ← modify (set_n (n s2 + 1));
      _ ← yield (Forward (n s2 + 1 - 1) (n s2 + 1) false true ADJ_DEPS)
            snapshots';
      _ ← modify (set_r (r s2 + 1));
      _ ← yield (Reverse (n s2 + 1) (n s2 + 1 - 1) true) snapshots';
      mret snapshots'
  end.

(** Lines 86-137, [while self._r < self._max_n - n0s]. *)
Fixpoint block_loop (fuel : nat) (mx n0s : Z) (snapshots : list Z)
  : gen (list Z) :=
  match fuel with
  | 0 => Gen.out_of_fuel
  | S fuel' =>
      s ← get;
      if bool_decide (r s < mx - n0s)%Z then
        snapshots' ← block_body mx n0s snapshots;
        block_loop fuel' mx n0s snapshots'
      else mret snapshots
  end.

(** Every iteration increments [self._r]: at most
    [self._max_n - n0s - self._r] iterations. *)
Definition block_while (mx n0s : Z) (snapshots : list Z) : gen (list Z) :=
  s ← get;
  block_loop (S (Z.to_nat (mx - n0s - r s))) mx n0s snapshots.

(** Lines 78-142, the body of [while self._r < self._max_n]: the
    reversal of one period block; returns the final [snapshots]. *)
Definition reverse_block (mx : Z) : gen (list Z) :=
  s ← get;
  let n_ := (mx - r s - 1)%Z in
  if bool_decide (period = 0%Z) then raise ZeroDivisionError
  else
    let n0s := (n_ `div` period * period)%Z in
    let n1s := Z.min (n0s + period) mx in
    if bool_decide (r s ≠ mx - n1s)%Z then raise invalid_state
    else
      snapshots ← block_while mx n0s [n0s];
      s' ← get;
      if bool_decide (r s' ≠ mx - n0s)%Z then raise invalid_state
      else if bool_decide (length snapshots ≠ 0) then raise invalid_state
      else mret snapshots.

(** Lines 77-142, [while self._r < self._max_n]. *)
Fixpoint outer_loop (fuel : nat) (mx : Z) : gen unit :=
  match fuel with
  | 0 => Gen.out_of_fuel
  | S fuel' =>
      s ← get;
      if bool_decide (r s < mx)%Z then
        _ ← reverse_block mx;
        outer_loop fuel' mx
      else mret tt
  end.

(** A completed block leaves [self._r] larger than it found it: at most
    [self._max_n - self._r] iterations. *)
Definition outer_while (mx : Z) : gen unit :=
  s ← get;
  outer_loop (S (Z.to_nat (mx - r s))) mx.

(** Lines 76-149, the body of [while True]: one reverse pass and the
    reset for the next one. *)
Definition reverse_pass (mx : Z) : gen unit :=
  _ ← outer_while mx;
  s ← get;
  if bool_decide (r s ≠ mx) then raise invalid_state
  else
    _ ← modify (set_r 0%Z);
    yield (EndReverse false) [].
End iterator.

(** *** Properties of an iteration *)

(** [yields good Q m]: from any state, every value [m] yields is [good],
    and a result of [m] satisfies [Q]. *)
Definition yields {A} (good : event → Prop) (Q : A → Prop)
    (m : Gen.gen event state A) : Prop :=
  ∀ s, Forall good (m s).1 ∧ ∀ a s', (m s).2 = Ok (a, s') → Q a.

(** [total P m s]: from [s], [m] ends in an exception or in a result and
    a state that satisfy [P]; it does not run out of fuel. *)
Definition total {A} (P : A → state → Prop) (m : Gen.gen event state A)
    (s : state) : Prop :=
  match (m s).2 with
  | Ok (a, s') => P a s'
  | Raise _ => True
  | OutOfFuel => False
  end.

(** The list [snapshots] holds at most [binomial_snapshots + 1] entries. *)
Definition fits (sch : TwoLevelCheckpointSchedule) (snapshots : list Z)
  : Prop :=
  (Z.of_nat (length snapshots) ≤ _binomial_snapshots sch + 1)%Z.

Definition fits_at_yield (sch : TwoLevelCheckpointSchedule) (ev : event)
  : Prop := fits sch ev.2.

End TwoLevel.

(** ** The cells of the cost tables *)

(** [is_ok m]: [m] is a value, not an exception. *)
Definition is_ok {A} (m : result A) : Prop := ∃ a, m = Ok a.

(** [only_index_error m]: the only exception [m] can end with is
    [IndexError]. *)
Definition only_index_error {A} (m : result A) : Prop :=
  ∀ e, m = Raise e → e = IndexError.

Module HOptCells.
Import HOpt.

(** [(k, l, m)] indexes a cell of a table allocated for [lmax] and
    [cvect] (line 64). *)
Definition in_table (lmax : nat) (cvect : list nat) (k l m : nat) : Prop :=
  ∃ c, cvect !! k = Some c ∧ l ≤ lmax ∧ m ≤ c.

(** The tables [s] have the cells of the allocation, no more and no
    less. *)
Definition covers (lmax : nat) (cvect : list nat) (s : tables) : Prop :=
  ∀ k l m,
    (is_ok (tget (optp s) k l m) ↔ in_table lmax cvect k l m)
    ∧ (is_ok (tget (opt s) k l m) ↔ in_table lmax cvect k l m).

(** The inputs for which the loops of lines 67-94 stay inside the
    tables. *)
Definition inputs_fit (lmax : nat) (cvect : list nat) : Prop :=
  ∃ c0, cvect !! 0 = Some c0
    ∧ (lmax = 0 → cvect = [0])
    ∧ (3 ≤ lmax → 1 ≤ c0).

(** [frame_on proj Q s s']: the table [proj s'] agrees with [proj s] on
    every cell outside [Q]. *)
Definition frame_on (proj : tables → table) (Q : nat → nat → nat → Prop)
    (s s' : tables) : Prop :=
  ∀ k l m, ¬ Q k l m → tget (proj s') k l m = tget (proj s) k l m.

(** The cells of [optp] that lines 67-94 assign: row 0 (line 71), row 1
    but for [(0, 1, 0)] (line 75), and the rows from 2 on below [lmax]
    with [m ≥ 1] (lines 80, 84 and 93). *)
Definition written_optp (lmax k l m : nat) : Prop :=
  l = 0 ∨ (l = 1 ∧ (k, m) ≠ (0, 0)) ∨ (2 ≤ l < lmax ∧ 1 ≤ m).

(** The cells of [opt] that lines 67-94 assign: those of [optp] and the
    cells without a slot of a level [k ≥ 1] (line 90). *)
Definition written_opt (lmax k l m : nat) : Prop :=
  written_optp lmax k l m ∨ (1 ≤ k ∧ 2 ≤ l < lmax ∧ m = 0).

(** The cell [(0, l, 1)] holds the values of lines 80-81. *)
Definition one_slot_cell (wvect rvect : list float) (cbwd cfwd : float)
    (l : nat) (s : tables) : Prop :=
  ∃ w0 r0, wvect !! 0 = Some w0 ∧ rvect !! 0 = Some r0
    ∧ tget (optp s) 0 l 1
      = Ok (float_of_nat (l + 1) * cbwd
            + float_of_nat (l * (l + 1)) / 2 * cfwd
            + float_of_nat l * r0)%float
    ∧ tget (opt s) 0 l 1
      = Ok (w0 + (float_of_nat (l + 1) * cbwd
                  + float_of_nat (l * (l + 1)) / 2 * cfwd
                  + float_of_nat l * r0))%float.

(** The cell [(0, l, m)] holds the values of lines 84-85, computed from
    the cells of [s] itself. *)
Definition level0_cell (wvect rvect : list float) (cfwd : float)
    (l m : nat) (s : tables) : Prop :=
  ∃ js one v w0,
    list_mem rvect cfwd s 0 l m = Ok js
    ∧ tget (optp s) 0 l 1 = Ok one
    ∧ py_min (js ++ [one]) = Ok v
    ∧ wvect !! 0 = Some w0
    ∧ tget (optp s) 0 l m = Ok v
    ∧ tget (opt s) 0 l m = Ok (w0 + v)%float.

(** The cell [(k, l, 0)] of [opt] holds the value of line 90. *)
Definition noslot_cell (cvect : list nat) (k l : nat) (s : tables) : Prop :=
  ∃ c v, cvect !! (k - 1) = Some c
    ∧ tget (opt s) (k - 1) l c = Ok v
    ∧ tget (opt s) k l 0 = Ok v.

(** The cell [(k, l, m)] holds the values of lines 93-94, computed from
    the cells of [s] itself. *)
Definition levelk_cell (cvect : list nat) (wvect rvect : list float)
    (cfwd : float) (k l m : nat) (s : tables) : Prop :=
  ∃ c below js v wk,
    cvect !! (k - 1) = Some c
    ∧ tget (opt s) (k - 1) l c = Ok below
    ∧ list_mem rvect cfwd s k l m = Ok js
    ∧ py_min (below :: js) = Ok v
    ∧ wvect !! k = Some wk
    ∧ tget (optp s) k l m = Ok v
    ∧ tget (opt s) k l m = Ok (min2 below (wk + v)%float).

End HOptCells.

(** ** The shape of a sequence *)

Module SequenceShape.
Import Op HOpt HRevolveSequence.

(** The indices of the [Backward] operations of [s], in order. *)
Definition backward_steps (s : Sequence) : list index_t :=
  omap (λ o, if decide (type o = Op.Backward) then Some (index o) else None) s.

(** The steps [l], [l - 1], ..., [0]. *)
Definition countdown (l : nat) : list index_t :=
  (λ i, Step (Z.of_nat i)) <$> rev (seq 0 (S l)).

(** What [shift_op] does to the index of an operation that is not a
    [Forward]. *)
Definition shift_step (δ : Z) (ix : index_t) : index_t :=
  match ix with
  | Step n => Step (n + δ)
  | Pair a b => Pair a (b + δ)
  end.

(** The operation [o] is one a schedule for [l] steps and the memory
    levels [0 ... K] can hold: [Backward] carries a step of [[0, l]],
    [Forward] a pair of steps [0 ≤ a ≤ b ≤ l], [Write], [Read] and
    [Discard] a level of [[0, K]] and a step of [[0, l]], and
    [Write_Forward] and [Discard_Forward] the level 0 and a step of
    [[1, l]]. *)
Definition op_in_range (l K : nat) (o : Operation) : Prop :=
  match type o, index o with
  | Op.Backward, Step n => (0 ≤ n ≤ Z.of_nat l)%Z
  | Op.Forward, Pair a b => (0 ≤ a ≤ b ∧ b ≤ Z.of_nat l)%Z
  | (Op.Write | Op.Read | Op.Discard), Pair level n =>
      (0 ≤ level ≤ Z.of_nat K ∧ 0 ≤ n ≤ Z.of_nat l)%Z
  | (Op.Write_Forward | Op.Discard_Forward), Pair level n =>
      (level = 0 ∧ 1 ≤ n ≤ Z.of_nat l)%Z
  | _, _ => False
  end.

(** The tables hold [+∞] in [optp[K][l][0]] for [K ≥ 1] and [l ≥ 2],
    where they hold a cell. *)
Definition noslot_infinite (t : tables) : Prop :=
  ∀ K l v, 1 ≤ K → 2 ≤ l → tget (optp t) K l 0 = Ok v → v = infinity.

End SequenceShape.

(** ** The driver of [examples/test.py] *)

Module Example.
Import Op.

(** The calls the driver makes on its two solvers:
    [fwd.advance(n_0, n_1)] and [bwd.advance(n_0, n_1)]. *)
Inductive call : Type :=
| Fwd_advance (n_0 n_1 : Z)
| Bwd_advance (n_0 n_1 : Z).

(** How the loop of lines 74-88 ends: at the [break] of line 88, with
    the [StopIteration] of [next] on an iterator that has no element
    left, or with another exception. *)
Inductive ending : Type :=
| Break
| StopIteration
| Failed (e : exn).

(** Lines 74-88: [schedule0] is the iterator over the operations that
    are left ([iter] of an iterator is the iterator itself). [Write]
    unpacks the index, [Forward] subscripts it, [Backward] subtracts 1
    from it; an operation of another kind is passed over. *)
Fixpoint drive (schedule0 : Sequence) : list call * ending :=
  match schedule0 with
  | [] => ([], StopIteration)
  | action :: rest =>
      match type action, index action with
      | Op.Write, Step _ => ([], Failed TypeError)
      | Op.Write, Pair _ _ => drive rest
      | Op.Forward, Step _ => ([], Failed TypeError)
      | Op.Forward, Pair n_0 n_1 =>
          let '(calls, e) := drive rest in (Fwd_advance n_0 n_1 :: calls, e)
      | Op.Backward, Pair _ _ => ([], Failed TypeError)
      | Op.Backward, Step n_0 =>
          if bool_decide (n_0 = 0%Z) then ([Bwd_advance n_0 (n_0 - 1)], Break)
          else
            let '(calls, e) := drive rest in
            (Bwd_advance n_0 (n_0 - 1) :: calls, e)
      | _, _ => drive rest
      end
  end.

(** The arguments of the calls of [bwd.advance] among [calls]. *)
Definition bwd_calls (calls : list call) : list (Z * Z) :=
  omap (λ c, match c with
             | Bwd_advance n_0 n_1 => Some (n_0, n_1)
             | Fwd_advance _ _ => None
             end) calls.

End Example.

(** ** The actions of an iteration of the adapter *)

Module HRevolveTrace.
Import Op HRevolve.

(** [keeps good proj m]: from any state, every action [m] yields is
    [good], and a result of [m] comes with a state that has the
    component [proj] of the initial one. *)
Definition keeps {A B} (good : Action → Prop) (proj : state → B)
    (m : Gen.gen Action state A) : Prop :=
  ∀ s, Forall good (m s).1 ∧ ∀ a s', (m s).2 = Ok (a, s') → proj s' = proj s.

Definition not_reverse (a : Action) : Prop := ∀ n1 n0, a ≠ Reverse n1 n0.
Definition not_end_reverse (a : Action) : Prop := ∀ b, a ≠ EndReverse b.

(** The arguments of the [Reverse] actions among [out], in order. *)
Definition reverses (out : list Action) : list (Z * Z) :=
  omap (λ a, match a with
             | Reverse n1 n0 => Some (n1, n0)
             | _ => None
             end) out.

(** [(top, top - 1)], [(top - 1, top - 2)], ...: [k] pairs. *)
Definition countdown_from (top : Z) (k : nat) : list (Z * Z) :=
  (λ i, (top - Z.of_nat i, top - Z.of_nat i - 1)%Z) <$> seq 0 k.

(** [reversing max_n m]: the [Reverse] actions [m] yields are those of
    the [k] steps below [max_n - r], in order, for some [k], and a
    result of [m] comes with [r] advanced by [k]. *)
Definition reversing {A} (max_n : Z) (m : Gen.gen Action state A) : Prop :=
  ∀ s, ∃ k : nat,
    reverses (m s).1 = countdown_from (max_n - r s) k
    ∧ ∀ a s', (m s).2 = Ok (a, s') → r s' = (r s + Z.of_nat k)%Z.

(** The steps in storage after the actions [out], from the set [stored]:
    a [Write] stores its step and a [Read] with [delete] removes it;
    [None] when a [Read] with [delete] names a step that is not stored. *)
Fixpoint replay (stored : gset Z) (out : list Action) : option (gset Z) :=
  match out with
  | [] => Some stored
  | Write n_0 _ :: out' => replay ({[n_0]} ∪ stored) out'
  | Read n_0 _ true :: out' =>
      if bool_decide (n_0 ∈ stored) then replay (stored ∖ {[n_0]}) out'
      else None
  | _ :: out' => replay stored out'
  end.

(** [tracks m]: the actions [m] yields can be replayed from [snapshots],
    and a result of [m] comes with the [snapshots] the replay ends with. *)
Definition tracks {A} (m : Gen.gen Action state A) : Prop :=
  ∀ s, ∃ stored,
    replay (snapshots s) (m s).1 = Some stored
    ∧ ∀ a s', (m s).2 = Ok (a, s') → snapshots s' = stored.

End HRevolveTrace.

(** ** The phases of the two-level schedule *)

Module TwoLevelTrace.
Import TwoLevel.

Local Abbreviation gen := (Gen.gen event state).

(** Lines 64-73 for a consumer that sets [self._max_n = mx] when it
    holds the [k]-th action: [k] iterations of the loop with
    [self._max_n] still [None], the test that leaves the loop, and
    [EndForward]. *)
Fixpoint forward_loop (sch : TwoLevelCheckpointSchedule) (k : nat) (mx : Z)
  : gen unit :=
  match k with
  | 0 => _ ← forward_step sch (Some mx); mret tt
  | S k' => _ ← forward_step sch None; forward_loop sch k' mx
  end.

Definition forward_phase (sch : TwoLevelCheckpointSchedule) (k : nat) (mx : Z)
  : gen unit :=
  _ ← forward_loop sch k mx;
  yield EndForward [].

(** The actions of a forward phase of [k] periods from the step [n0]. *)
Definition forward_actions (sch : TwoLevelCheckpointSchedule) (n0 : Z)
    (k : nat) : list event :=
  (λ i, (Forward (n0 + Z.of_nat i * _period sch)
           (n0 + (Z.of_nat i + 1) * _period sch) true false DISK, []))
    <$> seq 0 k.

(** The actions that advance the adjoint among [evs], in order: the
    [Forward] actions that store the data of the adjoint and the
    [Reverse] actions. *)
Definition adjoint_steps (evs : list event) : list Action :=
  omap (λ ev : event,
          match ev.1 with
          | Forward _ _ _ true _ | Reverse _ _ _ => Some ev.1
          | _ => None
          end) evs.

(** The adjoint of the [k] steps below [top], one at a time:
    [Forward(top-1, top, False, True, ADJ_DEPS)], [Reverse(top, top-1,
    True)], [Forward(top-2, top-1, ...)], ... *)
Definition adjoint_countdown (top : Z) (k : nat) : list Action :=
  flat_map (λ i, [Forward (top - Z.of_nat i - 1) (top - Z.of_nat i)
                    false true ADJ_DEPS;
                  Reverse (top - Z.of_nat i) (top - Z.of_nat i - 1) true])
    (seq 0 k).

(** [silent P m s]: from [s], [m] yields no action that advances the
    adjoint, and a result of [m] and its state satisfy [P]. *)
Definition silent {A} (P : A → state → Prop) (m : gen A) (s : state) : Prop :=
  adjoint_steps (m s).1 = [] ∧ ∀ a s', (m s).2 = Ok (a, s') → P a s'.

(** [advancing mx m]: the actions of [m] that advance the adjoint are
    those of the [k] steps below [mx - r], for some [k], and a result of
    [m] comes with [r] advanced by [k]. *)
Definition advancing {A} (mx : Z) (m : gen A) : Prop :=
  ∀ s, ∃ k : nat,
    adjoint_steps (m s).1 = adjoint_countdown (mx - r s) k
    ∧ ∀ a s', (m s).2 = Ok (a, s') → r s' = (r s + Z.of_nat k)%Z.

End TwoLevelTrace.

(** ** A reverse pass that completes *)

Module TwoLevelRun.
Import TwoLevel.

Local Abbreviation gen := (Gen.gen event state).

(** What the iterator needs of [n_advance(n, snapshots,
    trajectory=...)]: for [n ≥ 2] steps and [snapshots ≥ 1] it returns a
    number of steps that stops before the last one, and with a single
    snapshot it goes up to the last one. *)
Definition advances_within (n_advance : Z → Z → string → result Z)
    (trajectory : string) : Prop :=
  ∀ n snapshots, (2 ≤ n)%Z → (1 ≤ snapshots)%Z →
    ∃ k, n_advance n snapshots trajectory = Ok k
         ∧ (1 ≤ k ≤ n - 1)%Z
         ∧ (snapshots = 1%Z → k = (n - 1)%Z).

(** [succeeds P m s]: from [s], [m] ends with a result, and the result
    and its state satisfy [P]. *)
Definition succeeds {A} (P : A → state → Prop) (m : gen A) (s : state)
  : Prop :=
  ∃ out a s', m s = (out, Ok (a, s')) ∧ P a s'.

(** The list [snapshots] of the reversal of the block that starts at
    [n0s]: [n0s] first, then larger and larger steps. *)
Inductive stack (n0s : Z) : list Z → Prop :=
| stack_bottom : stack n0s [n0s]
| stack_push l top x :
    stack n0s l → last l = Some top → (top < x)%Z → stack n0s (l ++ [x]).

(** The list [snapshots] at the head of the block loop, [r] steps
    reversed: a [stack] whose last step is below [max_n - r], within
    the bound of [fits]. *)
Definition live_stack (sch : TwoLevelCheckpointSchedule) (n0s bound : Z)
    (snapshots : list Z) : Prop :=
  stack n0s snapshots
  ∧ (∃ top, last snapshots = Some top ∧ (top < bound)%Z)
  ∧ fits sch snapshots.

(** The reverse pass is at the end of a period block: either nothing is
    reversed yet or the steps left are a multiple of the period. *)
Definition aligned (sch : TwoLevelCheckpointSchedule) (mx : Z) (s : state)
  : Prop :=
  r s = 0%Z ∨ ((0 < r s)%Z ∧ ((mx - r s) `mod` _period sch = 0)%Z).

End TwoLevelRun.

(** * Properties *)

(** ** Results and loops *)

Lemma bind_Ok {A B} (m : result A) (f : A → result B) (b : B) :
  (m ≫= f) = Ok b ↔ ∃ a, m = Ok a ∧ f a = Ok b.
Proof.
  destruct m as [a| |]; simpl; split.
  - intros H. by exists a.
  - by intros (a' & [= <-] & H).
  - done.
  - by intros (? & ? & _).
  - done.
  - by intros (? & ? & _).
Qed.

Lemma getitem_Ok {A} (l : list A) (i : nat) (x : A) :
  getitem l i = Ok x ↔ l !! i = Some x.
Proof. unfold getitem. destruct (l !! i); naive_solver. Qed.

(** Splits a hypothesis [(x ← m; k) = Ok b] into [m = Ok a] and
    [k a = Ok b], as often as possible. *)
Ltac inv_ok :=
  repeat match goal with
  | H : (_ ≫= _) = Ok _ |- _ =>
      let a := fresh "a" in
      let Ha := fresh "Ha" in
      apply bind_Ok in H as (a & Ha & H)
  | H : Ok _ = Ok _ |- _ => injection H as H; try subst
  | H : Raise _ = Ok _ |- _ => discriminate H
  | H : OutOfFuel = Ok _ |- _ => discriminate H
  | H : (if ?b then _ else _) = Ok _ |- _ => destruct b eqn:?
  end.

(** Two successful evaluations of one expression give one value. *)
Ltac same_ok :=
  repeat match goal with
  | H1 : ?x = Ok ?a, H2 : ?x = Ok ?b |- _ =>
      rewrite H1 in H2; injection H2 as <-
  end.

Lemma foldM_app {X S} (body : X → S → result S) (xs ys : list X) (s : S) :
  foldM body (xs ++ ys) s = foldM body xs s ≫= foldM body ys.
Proof.
  revert s. induction xs as [|x xs IH]; intros s; simpl; [done|].
  destruct (body x s); simpl; auto.
Qed.

(** A property kept by every iteration is kept by the loop. *)
Lemma foldM_preserves {X S} (P : S → Prop) (body : X → S → result S)
    (xs : list X) (s s' : S) :
  (∀ x t t', x ∈ xs → body x t = Ok t' → P t → P t') →
  foldM body xs s = Ok s' → P s → P s'.
Proof.
  revert s. induction xs as [|x xs IH]; intros s Hbody H Hs; simpl in H.
  - by inv_ok.
  - inv_ok. eapply IH; [|done|].
    + intros y t t' Hy. apply Hbody. by right.
    + eapply Hbody; [by left|done..].
Qed.

Lemma elem_of_range (a b x : nat) : x ∈ range a b ↔ a ≤ x < b.
Proof. unfold range. rewrite elem_of_seq. lia. Qed.

Lemma range_split (a b x : nat) :
  a ≤ x < b → range a b = range a x ++ x :: range (S x) b.
Proof.
  intros Hx. unfold range.
  replace (b - a) with ((x - a) + S (b - S x)) by lia.
  rewrite seq_app. replace (a + (x - a)) with x by lia. done.
Qed.

(** In [for x in range(a, b)], a property established by the iteration at
    [x0] and kept by the later ones holds after the loop. *)
Lemma foldM_range_establishes {S} (P : S → Prop) (body : nat → S → result S)
    (a b x0 : nat) (s s' : S) :
  a ≤ x0 < b →
  (∀ t t', body x0 t = Ok t' → P t') →
  (∀ x t t', x0 < x < b → body x t = Ok t' → P t → P t') →
  foldM body (range a b) s = Ok s' → P s'.
Proof.
  intros Hx Hest Hkeep H. rewrite (range_split a b x0), foldM_app in H by done.
  simpl in H. inv_ok.
  eapply (foldM_preserves P); [|done|by eapply Hest].
  intros x t t' Hin. apply elem_of_range in Hin. apply Hkeep. lia.
Qed.

(** *** The order of the floats *)

Lemma SFltb_irrefl x : SFltb x x = false.
Proof.
  unfold SFltb, SFcompare. destruct x as [[]|[]| |[] m e]; simpl; try reflexivity.
  all: rewrite Z.compare_refl, Pos.compare_cont_refl; reflexivity.
Qed.

Lemma SFltb_trans x y z :
  SFltb x y = true → SFltb y z = true → SFltb x z = true.
Proof.
  unfold SFltb, SFcompare.
  destruct x as [[]|[]| |[] m1 e1], y as [[]|[]| |[] m2 e2],
    z as [[]|[]| |[] m3 e3];
    simpl; try (intros; congruence); try reflexivity.
  all: fold (Pos.compare m1 m2) (Pos.compare m2 m3) (Pos.compare m1 m3).
  all: destruct (Z.compare_spec e1 e2), (Z.compare_spec e2 e3),
         (Z.compare_spec e1 e3);
    try lia; subst; simpl; try (intros; congruence); try reflexivity.
  all: destruct (Pos.compare_spec m1 m2), (Pos.compare_spec m2 m3),
         (Pos.compare_spec m1 m3);
    try lia; subst; simpl; try (intros; congruence); try reflexivity.
Qed.

(** Python's [<] on floats is irreflexive and transitive. *)
Lemma float_ltb_irrefl x : (x <? x)%float = false.
Proof. rewrite ltb_spec. apply SFltb_irrefl. Qed.

Lemma float_ltb_trans x y z :
  (x <? y)%float = true → (y <? z)%float = true → (x <? z)%float = true.
Proof. rewrite !ltb_spec. apply SFltb_trans. Qed.

(** *** Outcomes that cannot happen *)

Lemma terminates_bind {A B} (m : result A) (k : A → result B) :
  terminates m → (∀ a, m = Ok a → terminates (k a)) → terminates (m ≫= k).
Proof. unfold terminates. destruct m; simpl; naive_solver. Qed.

Lemma no_key_error_bind {A B} (m : result A) (k : A → result B) :
  no_key_error m → (∀ a, m = Ok a → no_key_error (k a)) → no_key_error (m ≫= k).
Proof. unfold no_key_error. destruct m; simpl; naive_solver. Qed.

Lemma getitem_terminates {A} (l : list A) i : terminates (getitem l i).
Proof. unfold terminates, getitem. by destruct (l !! i). Qed.

Lemma getitem_no_key_error {A} (l : list A) i : no_key_error (getitem l i).
Proof. unfold no_key_error, getitem. by destruct (l !! i). Qed.

Lemma py_min_terminates xs : terminates (py_min xs).
Proof. by destruct xs. Qed.

Lemma py_min_no_key_error xs : no_key_error (py_min xs).
Proof. by destruct xs. Qed.

Lemma mapM_terminates {X Y} (f : X → result Y) xs :
  (∀ x, terminates (f x)) → terminates (mapM f xs).
Proof.
  intros Hf. induction xs as [|x xs IH]; simpl; [done|].
  apply terminates_bind; [done|]. intros y _.
  apply terminates_bind; [done|]. done.
Qed.

Lemma mapM_no_key_error {X Y} (f : X → result Y) xs :
  (∀ x, no_key_error (f x)) → no_key_error (mapM f xs).
Proof.
  intros Hf. induction xs as [|x xs IH]; simpl; [done|].
  apply no_key_error_bind; [done|]. intros y _.
  apply no_key_error_bind; [done|]. done.
Qed.

Lemma mapM_length {X Y} (f : X → result Y) xs ys :
  mapM f xs = Ok ys → length ys = length xs.
Proof.
  revert ys. induction xs as [|x xs IH]; intros ys H; simpl in H.
  - by inv_ok.
  - inv_ok. simpl. f_equal. by apply IH.
Qed.

Lemma mapM_lookup {X Y} (f : X → result Y) xs ys i x :
  mapM f xs = Ok ys → xs !! i = Some x →
  ∃ y, f x = Ok y ∧ ys !! i = Some y.
Proof.
  revert ys i. induction xs as [|x' xs IH]; intros ys i H Hx; [done|].
  simpl in H. inv_ok. destruct i as [|i]; simpl in *.
  - injection Hx as <-. eauto.
  - by eapply IH.
Qed.

Lemma range_lookup (a b i : nat) : a + i < b → range a b !! i = Some (a + i).
Proof. intros H. unfold range. apply lookup_seq. lia. Qed.

Lemma foldM_terminates {X S} (body : X → S → result S) xs s :
  (∀ x t, terminates (body x t)) → terminates (foldM body xs s).
Proof.
  intros Hb. revert s. induction xs as [|x xs IH]; intros s; simpl; [done|].
  apply terminates_bind; [done|]. intros t _. apply IH.
Qed.

Lemma length_range (a b : nat) : length (range a b) = b - a.
Proof. unfold range. by rewrite length_seq. Qed.

(** *** Generators *)

Lemma gen_bind_unfold {Ev St A B} (m : Gen.gen Ev St A)
    (f : A → Gen.gen Ev St B) (s : St) :
  (m ≫= f) s =
    match m s with
    | (out, Ok (a, s')) => let '(out', res) := f a s' in (out ++ out', res)
    | (out, Raise e) => (out, Raise e)
    | (out, OutOfFuel) => (out, OutOfFuel)
    end.
Proof. reflexivity. Qed.

Lemma gen_bind_get {Ev St B} (f : St → Gen.gen Ev St B) (s : St) :
  (Gen.get ≫= f) s = f s s.
Proof. rewrite gen_bind_unfold. simpl. by destruct (f s s). Qed.

Lemma gen_bind_modify {Ev St B} (g : St → St) (f : unit → Gen.gen Ev St B)
    (s : St) :
  (Gen.modify g ≫= f) s = f tt (g s).
Proof. rewrite gen_bind_unfold. simpl. by destruct (f tt (g s)). Qed.

(** ** The cost tables *)

Module HOptFacts.
Import HOpt.

Lemma tset_Ok (t t' : table) (k l m : nat) (v : float) :
  tset t k l m v = Ok t' ↔
  ∃ p r, t !! k = Some p ∧ p !! l = Some r ∧ m < length r
         ∧ t' = <[k := <[l := <[m := v]> r]> p]> t.
Proof.
  unfold tset. split.
  - intros H. inv_ok. apply getitem_Ok in Ha, Ha0, Ha1.
    eexists _, _. split_and!; [done..| |done]. by eapply lookup_lt_Some.
  - intros (p & r & Hp & Hr & Hm & ->).
    apply getitem_Ok in Hp, Hr. rewrite Hp. simpl. rewrite Hr. simpl.
    apply lookup_lt_is_Some in Hm as [x Hx]. apply getitem_Ok in Hx.
    by rewrite Hx.
Qed.

(** Reading the cell that was written. *)
Lemma tget_tset_eq (t t' : table) (k l m : nat) (v : float) :
  tset t k l m v = Ok t' → tget t' k l m = Ok v.
Proof.
  intros (p & r & Hp & Hr & Hm & ->)%tset_Ok. unfold tget, getitem.
  rewrite list_lookup_insert_eq by by eapply lookup_lt_Some. simpl.
  rewrite list_lookup_insert_eq by by eapply lookup_lt_Some. simpl.
  by rewrite list_lookup_insert_eq.
Qed.

(** Reading any other cell, in range or not. *)
Lemma tget_tset_ne (t t' : table) (k l m k' l' m' : nat) (v : float) :
  tset t k l m v = Ok t' → (k', l', m') ≠ (k, l, m) →
  tget t' k' l' m' = tget t k' l' m'.
Proof.
  intros (p & r & Hp & Hr & Hm & ->)%tset_Ok Hne. unfold tget, getitem.
  destruct (decide (k' = k)) as [->|Hk].
  2: { by rewrite list_lookup_insert_ne. }
  rewrite list_lookup_insert_eq by by eapply lookup_lt_Some.
  rewrite Hp. simpl.
  destruct (decide (l' = l)) as [->|Hl].
  2: { by rewrite list_lookup_insert_ne. }
  rewrite list_lookup_insert_eq by by eapply lookup_lt_Some.
  rewrite Hr. simpl.
  rewrite list_lookup_insert_ne; [done|congruence].
Qed.

Lemma tget_terminates t k l m : terminates (tget t k l m).
Proof.
  unfold tget. apply terminates_bind; [apply getitem_terminates|]. intros p _.
  apply terminates_bind; [apply getitem_terminates|]. intros r _.
  apply getitem_terminates.
Qed.

Lemma tget_no_key_error t k l m : no_key_error (tget t k l m).
Proof.
  unfold tget. apply no_key_error_bind; [apply getitem_no_key_error|].
  intros p _. apply no_key_error_bind; [apply getitem_no_key_error|].
  intros r _. apply getitem_no_key_error.
Qed.

Lemma tset_terminates t k l m v : terminates (tset t k l m v).
Proof.
  unfold tset. apply terminates_bind; [apply getitem_terminates|]. intros p _.
  apply terminates_bind; [apply getitem_terminates|]. intros r _.
  apply terminates_bind; [apply getitem_terminates|]. done.
Qed.

Lemma list_mem_terminates rvect cfwd t k l m :
  terminates (list_mem rvect cfwd t k l m).
Proof.
  apply mapM_terminates. intros j.
  apply terminates_bind; [apply tget_terminates|]. intros a _.
  apply terminates_bind; [apply getitem_terminates|]. intros rk _.
  apply terminates_bind; [apply tget_terminates|]. done.
Qed.

Lemma list_mem_no_key_error rvect cfwd t k l m :
  no_key_error (list_mem rvect cfwd t k l m).
Proof.
  apply mapM_no_key_error. intros j.
  apply no_key_error_bind; [apply tget_no_key_error|]. intros a _.
  apply no_key_error_bind; [apply getitem_no_key_error|]. intros rk _.
  apply no_key_error_bind; [apply tget_no_key_error|]. done.
Qed.

Lemma list_mem_length rvect cfwd t k l m lm :
  list_mem rvect cfwd t k l m = Ok lm → length lm = l - 1.
Proof. intros H%mapM_length. by rewrite length_range in H. Qed.

(** The entries of [list_mem], as line 203 writes them. *)
Lemma list_mem_lookup rvect cfwd t k l m lm j :
  list_mem rvect cfwd t k l m = Ok lm → 1 ≤ j < l →
  ∃ a rk b,
    tget (opt t) k (l - j) (m - 1) = Ok a ∧ rvect !! k = Some rk
    ∧ tget (optp t) k (j - 1) m = Ok b
    ∧ lm !! (j - 1) = Some (float_of_nat j * cfwd + a + rk + b)%float.
Proof.
  intros H Hj. unfold list_mem in H.
  eapply (mapM_lookup _ _ _ (j - 1) j) in H as (y & Hy & Hlm).
  - inv_ok. apply getitem_Ok in Ha0. eauto 10.
  - rewrite range_lookup by lia. f_equal. lia.
Qed.

(** Proves that a chain of table operations ends without running out of
    fuel. *)
Ltac terminates_tac :=
  repeat first
    [ done
    | apply getitem_terminates
    | apply tget_terminates
    | apply tset_terminates
    | apply py_min_terminates
    | apply list_mem_terminates
    | apply foldM_terminates; intros
    | apply terminates_bind; [|intros ? _]
    | match goal with
      | |- terminates (if ?b then _ else _) => destruct b
      end ].

(** [get_hopt_table] returns the tables or raises. *)
Lemma get_hopt_table_terminates lmax cvect wvect rvect cbwd cfwd :
  terminates (get_hopt_table lmax cvect wvect rvect cbwd cfwd).
Proof.
  unfold get_hopt_table, init_level, init_l0, init_l1, fill_level0, fill0_one,
    fill0_many, fill_level, fillk_noslot, fillk_many.
  terminates_tac.
Qed.

Lemma frame_refl Q s : frame Q s s.
Proof. by intros k l m _. Qed.

Lemma frame_trans Q s1 s2 s3 : frame Q s1 s2 → frame Q s2 s3 → frame Q s1 s3.
Proof.
  intros H12 H23 k l m HQ. destruct (H23 k l m HQ) as [-> ->].
  by apply H12.
Qed.

Lemma frame_weaken (Q Q' : nat → nat → nat → Prop) s s' :
  (∀ k l m, Q k l m → Q' k l m) → frame Q s s' → frame Q' s s'.
Proof. intros HQ H k l m HnQ. apply H. naive_solver. Qed.

Lemma foldM_frame {X} Q (body : X → tables → result tables) xs s s' :
  (∀ x t t', x ∈ xs → body x t = Ok t' → frame Q t t') →
  foldM body xs s = Ok s' → frame Q s s'.
Proof.
  intros Hbody H.
  eapply (foldM_preserves (frame Q s)); [|done|apply frame_refl].
  intros x t t' Hx Hb Ht. eapply frame_trans; [done|]. by eapply Hbody.
Qed.

(** Writing one cell of each table. *)
Lemma frame_set_both s p o k l m v v' :
  tset (optp s) k l m v = Ok p → tset (opt s) k l m v' = Ok o →
  frame (λ k' l' m', (k', l', m') = (k, l, m)) s (Tables p o).
Proof.
  intros Hp Ho k' l' m' Hne. simpl.
  split; by eapply tget_tset_ne.
Qed.

Section frames.
Variables (lmax : nat) (cvect : list nat) (wvect rvect : list float).
Variables (cbwd cfwd : float).

Local Abbreviation init_l0 := (init_l0 cbwd).
Local Abbreviation init_l1 := (init_l1 wvect rvect cbwd cfwd).
Local Abbreviation init_level := (init_level cvect wvect rvect cbwd cfwd).
Local Abbreviation fill0_one := (fill0_one wvect rvect cbwd cfwd).
Local Abbreviation fill0_many := (fill0_many wvect rvect cfwd).
Local Abbreviation fill_level0 := (fill_level0 lmax cvect wvect rvect cbwd cfwd).
Local Abbreviation fillk_noslot := (fillk_noslot cvect).
Local Abbreviation fillk_many := (fillk_many cvect wvect rvect cfwd).
Local Abbreviation fill_level := (fill_level lmax cvect wvect rvect cfwd).

Lemma init_l0_frame k m s s' :
  init_l0 k m s = Ok s' → frame (λ k' l' m', (k', l', m') = (k, 0, m)) s s'.
Proof. unfold HOpt.init_l0. intros H. inv_ok. by eapply frame_set_both. Qed.

Lemma init_l1_frame k m s s' :
  init_l1 k m s = Ok s' → frame (λ k' l' m', (k', l', m') = (k, 1, m)) s s'.
Proof.
  unfold HOpt.init_l1. intros H. inv_ok; [apply frame_refl|].
  by eapply frame_set_both.
Qed.

Lemma fill0_one_frame l s s' :
  fill0_one l s = Ok s' → frame (λ k' l' m', (k', l', m') = (0, l, 1)) s s'.
Proof. unfold HOpt.fill0_one. intros H. inv_ok. by eapply frame_set_both. Qed.

Lemma fill0_many_frame m l s s' :
  fill0_many m l s = Ok s' → frame (λ k' l' m', (k', l', m') = (0, l, m)) s s'.
Proof. unfold HOpt.fill0_many. intros H. inv_ok. by eapply frame_set_both. Qed.

Lemma fillk_noslot_frame k l s s' :
  fillk_noslot k l s = Ok s' → frame (λ k' l' m', (k', l', m') = (k, l, 0)) s s'.
Proof.
  unfold HOpt.fillk_noslot. intros H. inv_ok. intros k' l' m' Hne. simpl.
  split; [done|]. by eapply tget_tset_ne.
Qed.

Lemma fillk_many_frame k m l s s' :
  fillk_many k m l s = Ok s' → frame (λ k' l' m', (k', l', m') = (k, l, m)) s s'.
Proof. unfold HOpt.fillk_many. intros H. inv_ok. by eapply frame_set_both. Qed.

(** The initialisation of level [k] writes rows 0 and 1 of level [k]. *)
Lemma init_level_frame k s s' :
  init_level k s = Ok s' → frame (λ k' l' _, k' = k ∧ l' ≤ 1) s s'.
Proof.
  unfold HOpt.init_level. intros H. inv_ok.
  eapply frame_trans.
  - eapply foldM_frame; [|done]. intros m t t' _ Hb.
    eapply frame_weaken; [|by eapply init_l0_frame]. intros ? ? ? [= -> -> ->]; lia.
  - eapply foldM_frame; [|done]. intros m t t' _ Hb.
    eapply frame_weaken; [|by eapply init_l1_frame]. intros ? ? ? [= -> -> ->]; lia.
Qed.

(** Level 0 is filled from length 2 on, below [lmax]. *)
Lemma fill_level0_frame s s' :
  fill_level0 s = Ok s' → frame (λ k' l' _, k' = 0 ∧ 2 ≤ l' < lmax) s s'.
Proof.
  unfold HOpt.fill_level0. intros H. inv_ok.
  eapply frame_trans.
  - eapply foldM_frame; [|done]. intros l t t' Hl Hb.
    apply elem_of_range in Hl.
    eapply frame_weaken; [|by eapply fill0_one_frame]. intros ? ? ? [= -> -> ->]; lia.
  - eapply foldM_frame; [|done]. intros m t t' _ Hb. simpl in Hb.
    eapply foldM_frame; [|exact Hb]. intros l u u' Hl Hb'.
    apply elem_of_range in Hl.
    eapply frame_weaken; [|by eapply fill0_many_frame]. intros ? ? ? [= -> -> ->]; lia.
Qed.

(** Level [k ≥ 1] is filled from length 2 on without a slot, and from
    length 1 on, below [lmax], with [m ≥ 1] slots. *)
Lemma fill_level_frame k s s' :
  fill_level k s = Ok s' →
  frame (λ k' l' m', k' = k ∧ 1 ≤ l' < lmax ∧ (m' = 0 → 2 ≤ l')) s s'.
Proof.
  unfold HOpt.fill_level. intros H. inv_ok.
  eapply frame_trans.
  - eapply foldM_frame; [|done]. intros l t t' Hl Hb.
    apply elem_of_range in Hl.
    eapply frame_weaken; [|by eapply fillk_noslot_frame]. intros ? ? ? [= -> -> ->]; lia.
  - eapply foldM_frame; [|done]. intros m t t' Hm Hb. simpl in Hb.
    apply elem_of_range in Hm.
    eapply foldM_frame; [|exact Hb]. intros l u u' Hl Hb'.
    apply elem_of_range in Hl.
    eapply frame_weaken; [|by eapply fillk_many_frame]. intros ? ? ? [= -> -> ->]; lia.
Qed.
End frames.

(** *** The cells at length 1 *)

Section length1.
Variables (lmax : nat) (cvect : list nat) (wvect rvect : list float).
Variables (cbwd cfwd : float).

Local Abbreviation base_cell := (base_cell wvect rvect cbwd cfwd).
Local Abbreviation overwritten_cell := (overwritten_cell cvect wvect).

Lemma base_cell_frame Q k m s s' :
  frame Q s s' → ¬ Q k 1 m → base_cell k m s → base_cell k m s'.
Proof.
  intros Hf HQ (w0 & r0 & Hw & Hr & Hp & Ho).
  destruct (Hf k 1 m HQ) as [Hp' Ho'].
  exists w0, r0. by rewrite Hp', Ho'.
Qed.

Lemma overwritten_cell_frame Q k m s s' :
  frame Q s s' → ¬ Q k 1 m → (∀ c, ¬ Q (k - 1) 1 c) →
  overwritten_cell k m s → overwritten_cell k m s'.
Proof.
  intros Hf HQ HQ' (c & below & wk & Hc & Hw & Hb & Hp & Ho).
  destruct (Hf k 1 m HQ) as [Hp' Ho'].
  destruct (Hf (k - 1) 1 c (HQ' c)) as [_ Hb'].
  exists c, below, wk. by rewrite Hp', Ho', Hb'.
Qed.

Lemma init_l1_sets k m s s' :
  (k, m) ≠ (0, 0) →
  init_l1 wvect rvect cbwd cfwd k m s = Ok s' → base_cell k m s'.
Proof.
  unfold init_l1. intros Hkm H.
  destruct ((m =? 0) && (k =? 0)) eqn:E.
  { apply andb_true_iff in E as [->%Nat.eqb_eq ->%Nat.eqb_eq]. done. }
  inv_ok. apply getitem_Ok in Ha, Ha1.
  exists a1, a. split_and!; [done..| |]; simpl.
  - by eapply tget_tset_eq.
  - erewrite tget_tset_eq in Ha2 by done. injection Ha2 as <-.
    by eapply tget_tset_eq.
Qed.

Lemma init_level_sets k m c s s' :
  cvect !! k = Some c → m ≤ c → (k, m) ≠ (0, 0) →
  init_level cvect wvect rvect cbwd cfwd k s = Ok s' → base_cell k m s'.
Proof.
  unfold init_level. intros Hc Hm Hkm H. inv_ok.
  apply getitem_Ok in Ha. rewrite Hc in Ha. injection Ha as <-.
  eapply (foldM_range_establishes (base_cell k m)); [| | |done].
  - instantiate (1 := m). lia.
  - intros t t'. by apply init_l1_sets.
  - intros x t t' Hx Hb. eapply base_cell_frame; [by eapply init_l1_frame|].
    intros [= ->]. lia.
Qed.

Lemma fillk_many_sets k m s s' :
  1 ≤ k →
  fillk_many cvect wvect rvect cfwd k m 1 s = Ok s' → overwritten_cell k m s'.
Proof.
  unfold fillk_many, list_mem. intros Hk H. simpl in H. inv_ok.
  same_ok. erewrite tget_tset_eq in Ha5 by done. injection Ha5 as <-.
  apply getitem_Ok in Ha, Ha4.
  exists a, a0, a4. split_and!; [done..| | |]; simpl.
  - erewrite tget_tset_ne; [done..|]. intros [= ? _]. lia.
  - by eapply tget_tset_eq.
  - by eapply tget_tset_eq.
Qed.

Lemma fill_level_sets k m c s s' :
  1 ≤ k → 2 ≤ lmax → cvect !! k = Some c → 1 ≤ m ≤ c →
  fill_level lmax cvect wvect rvect cfwd k s = Ok s' → overwritten_cell k m s'.
Proof.
  unfold fill_level. intros Hk Hl Hc Hm H. inv_ok.
  apply getitem_Ok in Ha. rewrite Hc in Ha. injection Ha as <-.
  eapply (foldM_range_establishes (overwritten_cell k m)); [| | |done].
  - instantiate (1 := m). lia.
  - intros t t' Hb. simpl in Hb.
    eapply (foldM_range_establishes (overwritten_cell k m)); [| | |exact Hb].
    + instantiate (1 := 1). lia.
    + intros u u'. by apply fillk_many_sets.
    + intros l u u' Hl' Hb'.
      eapply overwritten_cell_frame; [by eapply fillk_many_frame|..].
      * intros [=]; lia.
      * intros c' [=]; lia.
  - intros m' t t' Hm' Hb. simpl in Hb.
    eapply (foldM_preserves (overwritten_cell k m)); [|exact Hb].
    intros l u u' _ Hb'.
    eapply overwritten_cell_frame; [by eapply fillk_many_frame|..].
    + intros [=]; lia.
    + intros c' [=]; lia.
Qed.

(** What all the loops after the allocation write: rows 0 and 1, and the
    rows from 2 on below [lmax]; at length 1, only cells of a level
    [k ≥ 1] with [m ≥ 1] slots are written again. *)
Lemma get_hopt_table_frame T :
  get_hopt_table lmax cvect wvect rvect cbwd cfwd = Ok T →
  ∃ s1, foldM (init_level cvect wvect rvect cbwd cfwd)
          (range 0 (length cvect))
          (Tables (new_table lmax cvect) (new_table lmax cvect)) = Ok s1
    ∧ frame (λ k l m, 2 ≤ l < lmax ∨ (1 ≤ k ∧ l = 1 ∧ 1 ≤ m ∧ 2 ≤ lmax)) s1 T.
Proof.
  unfold get_hopt_table. intros H.
  destruct (negb _); [done|]. inv_ok. eexists. split; [done|].
  eapply frame_trans.
  - eapply frame_weaken; [|by eapply fill_level0_frame].
    simpl. intros k l m ?. lia.
  - eapply foldM_frame; [|done]. intros k t t' Hk Hb.
    apply elem_of_range in Hk.
    eapply frame_weaken; [|by eapply fill_level_frame].
    simpl. intros k' l' m' ?. lia.
Qed.

Lemma init_frame s s' :
  foldM (init_level cvect wvect rvect cbwd cfwd) (range 0 (length cvect)) s
    = Ok s' →
  frame (λ _ l _, l ≤ 1) s s'.
Proof.
  intros H. eapply foldM_frame; [|done]. intros k t t' _ Hb.
  eapply frame_weaken; [|by eapply init_level_frame]. simpl. intros; lia.
Qed.

Lemma tget_new_table k c l m :
  cvect !! k = Some c → l ≤ lmax → m ≤ c →
  tget (new_table lmax cvect) k l m = Ok infinity.
Proof.
  intros Hc Hl Hm. unfold tget, getitem, new_table.
  rewrite list_lookup_fmap, Hc. simpl.
  rewrite lookup_replicate_2 by lia. simpl.
  by rewrite lookup_replicate_2 by lia.
Qed.
End length1.

(** C2: [get_hopt_table] never writes the row of length [lmax] when
    [lmax ≥ 2]: its loops over the lengths are [range(2, lmax)] and
    [range(1, lmax)], so every cell [opt[k][lmax][m]] and
    [optp[k][lmax][m]] of the returned tables still holds the [+∞] of the
    allocation, although the docstring announces the table for
    [l = 0 ... lmax]. *)
Theorem get_hopt_table_last_row_infinite lmax cvect wvect rvect cbwd cfwd T
    k c m :
  get_hopt_table lmax cvect wvect rvect cbwd cfwd = Ok T →
  2 ≤ lmax → cvect !! k = Some c → m ≤ c →
  tget (optp T) k lmax m = Ok infinity ∧ tget (opt T) k lmax m = Ok infinity.
Proof.
  intros H Hl Hc Hm.
  apply get_hopt_table_frame in H as (s1 & Hinit & Hfill).
  apply init_frame in Hinit.
  destruct (Hfill k lmax m) as [-> ->]; [lia|].
  destruct (Hinit k lmax m) as [-> ->]; [lia|]. simpl.
  split; by eapply tget_new_table.
Qed.

(** C3, as the code has it: at length 1 the base values
    [optp = cfwd + 2*cbwd + rvect[0]] and [opt = wvect[0] + optp] are the
    final ones for level 0, for [m = 0] and when [lmax ≤ 1]; for a level
    [k ≥ 1] with [m ≥ 1] slots and [lmax ≥ 2] the loop of lines 92-94
    starts at [l = 1] and replaces them by
    [optp[k][1][m] = opt[k-1][1][cvect[k-1]]] and
    [opt[k][1][m] = min(opt[k-1][1][cvect[k-1]], wvect[k] + optp[k][1][m])]. *)
Theorem get_hopt_table_length1 lmax cvect wvect rvect cbwd cfwd T k c m :
  get_hopt_table lmax cvect wvect rvect cbwd cfwd = Ok T →
  cvect !! k = Some c → m ≤ c → (k, m) ≠ (0, 0) →
  (k = 0 ∨ m = 0 ∨ lmax ≤ 1 → base_cell wvect rvect cbwd cfwd k m T)
  ∧ (1 ≤ k → 1 ≤ m → 2 ≤ lmax → overwritten_cell cvect wvect k m T).
Proof.
  intros H Hc Hm Hkm. split.
  - intros Hcase.
    apply get_hopt_table_frame in H as (s1 & Hinit & Hfill).
    eapply base_cell_frame; [done|simpl; lia|].
    eapply (foldM_range_establishes (base_cell _ _ _ _ k m)); [| | |done].
    + instantiate (1 := k). apply lookup_lt_Some in Hc. lia.
    + intros t t'. by eapply init_level_sets.
    + intros k' t t' Hk' Hb.
      eapply base_cell_frame; [by eapply init_level_frame|]. simpl. lia.
  - intros Hk Hm1 Hl. unfold get_hopt_table in H.
    destruct (negb _); [done|]. inv_ok.
    eapply (foldM_range_establishes (overwritten_cell _ _ k m)); [| | |done].
    + instantiate (1 := k). apply lookup_lt_Some in Hc. lia.
    + intros t t'. by eapply fill_level_sets.
    + intros k' t t' Hk' Hb.
      eapply overwritten_cell_frame; [by eapply fill_level_frame|..];
        simpl; intros; lia.
Qed.

(** An architecture with two levels of one slot each, a write cost of 1
    at level 0, and [lmax = 2]: [(2, 1)] are [cbwd] and [cfwd]. *)
Lemma get_hopt_table_last_row_infinite_witness :
  ∃ T, get_hopt_table 2 [1; 1] [1; 0]%float [0; 0]%float 2 1 = Ok T
       ∧ tget (optp T) 0 2 1 = Ok infinity ∧ tget (opt T) 0 2 1 = Ok infinity.
Proof.
  eexists. split; [vm_compute; reflexivity|].
  apply (get_hopt_table_last_row_infinite 2 [1; 1] [1; 0]%float [0; 0]%float
           2 1 _ 0 1 1); [vm_compute; reflexivity|lia|reflexivity|lia].
Defined.

Lemma get_hopt_table_length1_witness :
  ∃ T, get_hopt_table 2 [1; 1] [1; 0]%float [0; 0]%float 2 1 = Ok T
       ∧ base_cell [1; 0]%float [0; 0]%float 2 1 1 0 T
       ∧ overwritten_cell [1; 1] [1; 0]%float 1 1 T.
Proof.
  eexists. split; [vm_compute; reflexivity|]. split.
  - apply (get_hopt_table_length1 2 [1; 1] [1; 0]%float [0; 0]%float
             2 1 _ 1 1 0); [vm_compute; reflexivity|reflexivity|lia| |].
    + intros [=].
    + right. by left.
  - apply (get_hopt_table_length1 2 [1; 1] [1; 0]%float [0; 0]%float
             2 1 _ 1 1 1); [vm_compute; reflexivity|reflexivity|lia| |lia..].
    intros [=].
Defined.

(** C3, as stated, fails: with two levels of one slot each,
    [wvect = (1, 0)], [rvect = (0, 0)], [cbwd = 2], [cfwd = 1] and
    [lmax = 2], the cell [optp[1][1][1]] is [opt[0][1][1] = 6], not
    [cfwd + 2*cbwd + rvect[0] = 5]. *)
Lemma get_hopt_table_length1_not_base :
  ¬ (∀ lmax cvect wvect rvect cbwd cfwd T k c m,
       get_hopt_table lmax cvect wvect rvect cbwd cfwd = Ok T →
       cvect !! k = Some c → m ≤ c → (k, m) ≠ (0, 0) →
       base_cell wvect rvect cbwd cfwd k m T).
Proof.
  intros H.
  destruct (get_hopt_table 2 [1; 1] [1; 0]%float [0; 0]%float 2 1)
    as [T| |] eqn:E; [|vm_compute in E; discriminate E..].
  destruct (H _ _ _ _ _ _ T 1 1 1 E) as (w0 & r0 & Hw & Hr & Hp & _);
    [reflexivity|lia|by intros [=]|].
  vm_compute in E. injection E as <-.
  injection Hr as <-.
  apply (f_equal (λ x, match x with
                       | Ok v => PrimFloat.eqb v 5
                       | _ => false
                       end)) in Hp.
  vm_compute in Hp. discriminate Hp.
Qed.

End HOptFacts.


(** ** The sequence builders *)

Module HRevolveSequenceFacts.
Import HOpt HOptFacts HRevolveSequence.

(** *** [argmin] *)

Lemma argmin_from_bound i best_i best xs :
  best_i < i → argmin_from i best_i best xs < i + length xs.
Proof.
  revert i best_i best. induction xs as [|x xs IH]; intros i bi b Hi; simpl.
  - lia.
  - destruct (x <? b)%float.
    + specialize (IH (S i) i x). lia.
    + specialize (IH (S i) bi b). lia.
Qed.

(** [argmin] returns a [j] with [1 ≤ j ≤ len(xs)]. *)
Lemma argmin_bounds xs : xs ≠ [] → 1 ≤ argmin xs ≤ length xs.
Proof.
  destruct xs as [|x xs]; [done|]. intros _. simpl.
  pose proof (argmin_from_bound 1 0 x xs). lia.
Qed.

Lemma argmin_from_attains pre xs best_i best :
  (pre ++ xs) !! best_i = Some best →
  (pre ++ xs) !! argmin_from (length pre) best_i best xs
    = Some (fold_left min2 xs best).
Proof.
  revert pre best_i best.
  induction xs as [|x xs IH]; intros pre bi b Hb; simpl; [done|].
  rewrite cons_middle, app_assoc in Hb |- *.
  replace (S (length pre)) with (length (pre ++ [x]))
    by (rewrite length_app; simpl; lia).
  unfold min2 at 2. destruct (x <? b)%float.
  - apply IH. rewrite lookup_app_l by (rewrite length_app; simpl; lia).
    by rewrite list_lookup_middle.
  - by apply IH.
Qed.

(** The element at [argmin] is the minimum. *)
Lemma argmin_attains xs mn :
  py_min xs = Ok mn → xs !! (argmin xs - 1) = Some mn.
Proof.
  destruct xs as [|x xs]; [done|]. intros [= <-]. simpl.
  rewrite Nat.sub_0_r. by apply (argmin_from_attains [x] xs 0 x).
Qed.

Lemma argmin_from_leftmost pre xs best_i best :
  (∀ j y, pre !! j = Some y → (y <? best)%float = false) →
  (∀ j y, j < best_i → pre !! j = Some y → y ≠ best) →
  best_i < length pre →
  ∀ j y, j < argmin_from (length pre) best_i best xs →
    (pre ++ xs) !! j = Some y → y ≠ fold_left min2 xs best.
Proof.
  revert pre best_i best.
  induction xs as [|x xs IH]; intros pre bi b Hlow Hfirst Hbi j y Hj Hy; simpl in *.
  { rewrite app_nil_r in Hy. by eapply Hfirst. }
  rewrite cons_middle, app_assoc in Hy.
  replace (S (length pre)) with (length (pre ++ [x])) in Hj
    by (rewrite length_app; simpl; lia).
  unfold min2 at 2. destruct (x <? b)%float eqn:Hx.
  - eapply (IH (pre ++ [x])); [| | |exact Hj|exact Hy].
    + intros j' y' Hy'. destruct (decide (j' < length pre)) as [Hlt|Hge].
      * rewrite lookup_app_l in Hy' by done.
        destruct (y' <? x)%float eqn:Hyx; [|done].
        pose proof (Hlow j' y' Hy') as Hyb.
        by rewrite (float_ltb_trans y' x b) in Hyb.
      * rewrite lookup_app_r in Hy' by lia.
        destruct (j' - length pre); simpl in Hy'; [|done].
        injection Hy' as <-. apply float_ltb_irrefl.
    + intros j' y' Hj' Hy'. rewrite lookup_app_l in Hy' by done.
      intros ->. by rewrite (Hlow j' x Hy') in Hx.
    + rewrite length_app. simpl. lia.
  - eapply (IH (pre ++ [x])); [| | |exact Hj|exact Hy].
    + intros j' y' Hy'. destruct (decide (j' < length pre)) as [Hlt|Hge].
      * rewrite lookup_app_l in Hy' by done. by eapply Hlow.
      * rewrite lookup_app_r in Hy' by lia.
        destruct (j' - length pre); simpl in Hy'; [|done]. by injection Hy' as <-.
    + intros j' y' Hj' Hy'. rewrite lookup_app_l in Hy' by lia.
      by eapply Hfirst.
    + rewrite length_app. simpl. lia.
Qed.

(** No element before [argmin] is the minimum: the left-most wins. *)
Lemma argmin_leftmost xs mn j y :
  py_min xs = Ok mn → j < argmin xs - 1 → xs !! j = Some y → y ≠ mn.
Proof.
  destruct xs as [|x xs]; [done|]. intros [= <-]. simpl.
  rewrite Nat.sub_0_r. intros Hj Hy.
  eapply (argmin_from_leftmost [x] xs 0 x); [| |simpl; lia|exact Hj|exact Hy].
  - intros [|j'] y'; simpl; [|done]. intros [= <-]. apply float_ltb_irrefl.
  - intros; lia.
Qed.

(** *** The "no memory" error *)

Section no_memory.
Variables (cvect : list nat) (wvect rvect : list float) (cbwd cfwd : float).

Local Abbreviation aux := (hrevolve_aux cvect wvect rvect cbwd cfwd).
Local Abbreviation recurse := (hrevolve_recurse cvect wvect rvect cbwd cfwd).

Lemma bind_not_no_memory {A} (m : result A) (k : A → result Sequence) :
  no_key_error m → (∀ a, m = Ok a → k a ≠ no_memory) →
  (m ≫= k) ≠ no_memory.
Proof.
  intros Hm Hk. destruct m as [a|e|]; simpl; [by apply Hk| |done].
  intros [= ->]. by eapply Hm.
Qed.

(** At level 0, [hrevolve_aux] never ends with the "no memory" error and
    [hrevolve_recurse] does only when it has no slot. *)
Lemma level0_no_memory fuel :
  (∀ l cmem t, aux fuel l 0 cmem (Some t) ≠ no_memory)
  ∧ (∀ l cmem t, cmem ≠ 0 → recurse fuel l 0 cmem (Some t) ≠ no_memory).
Proof.
  induction fuel as [|fuel [IHa IHr]]; [done|]. split.
  - intros l cmem t. simpl.
    destruct (cmem =? 0) eqn:Ec; [done|]. apply Nat.eqb_neq in Ec.
    destruct (l =? 0); [done|]. destruct (l =? 1).
    { apply bind_not_no_memory; [apply getitem_no_key_error|]. intros ? _.
      apply bind_not_no_memory; [apply getitem_no_key_error|]. intros ? _.
      apply bind_not_no_memory; [apply getitem_no_key_error|]. done. }
    destruct (cmem =? 1) eqn:Ec1; [done|]. apply Nat.eqb_neq in Ec1.
    apply bind_not_no_memory; [apply list_mem_no_key_error|]. intros lm _.
    apply bind_not_no_memory; [apply py_min_no_key_error|]. intros mn _.
    apply bind_not_no_memory; [apply tget_no_key_error|]. intros one _.
    destruct (mn <? one)%float; [|done].
    destruct (recurse fuel _ 0 (cmem - 1) (Some t)) as [s1| |] eqn:E1;
      simpl; [| |done].
    2: { intros [= ->]. eapply IHr; [|done]. lia. }
    destruct (aux fuel _ 0 cmem (Some t)) as [s2| |] eqn:E2; simpl; [done| |done].
    intros [= ->]. by eapply IHa.
  - intros l cmem t Hc. simpl.
    destruct (l =? 0); [done|].
    destruct (cmem =? 0) eqn:Ec; [by apply Nat.eqb_eq in Ec|].
    destruct (l =? 1); [done|].
    destruct (aux fuel l 0 cmem (Some t)) as [s| |] eqn:E; simpl; [done| |done].
    intros [= ->]. by eapply IHa.
Qed.

(** C5, as the code has it: given the cost tables, [hrevolve_recurse]
    returns [Backward(0)] for [l = 0] whatever [K] and [cmem] are; it
    raises the "no memory" error when [l > 0], [K = 0] and [cmem = 0],
    and at level [K = 0] only then; a call at a level [K ≥ 1] can end
    with that error only for [l ≥ 2], where it delegates to lower
    levels. *)
Theorem hrevolve_recurse_no_memory fuel l K cmem tabs t :
  tables_or_compute cvect wvect rvect cbwd cfwd tabs l = Ok t →
  (l = 0 → recurse (S fuel) l K cmem tabs = Ok [op Backward 0])
  ∧ (0 < l → K = 0 → cmem = 0 → recurse (S fuel) l K cmem tabs = no_memory)
  ∧ (K = 0 → recurse fuel l K cmem tabs = no_memory → 0 < l ∧ cmem = 0)
  ∧ (recurse fuel l K cmem tabs = no_memory →
     0 < l ∧ ((K = 0 ∧ cmem = 0) ∨ (1 ≤ K ∧ 2 ≤ l))).
Proof.
  intros Ht.
  assert (Hsome : ∀ f, recurse f l K cmem tabs = recurse f l K cmem (Some t)).
  { intros [|f]; [done|]. simpl. by rewrite Ht. }
  rewrite !Hsome.
  assert (H0 : K = 0 → recurse fuel l K cmem (Some t) = no_memory →
               0 < l ∧ cmem = 0).
  { intros -> H. destruct l as [|l].
    { destruct fuel; done. }
    split; [lia|]. destruct (decide (cmem = 0)) as [|Hc]; [done|].
    by apply (level0_no_memory fuel) in H. }
  split_and!; [| |done|].
  - intros ->. done.
  - intros Hl -> ->. simpl. destruct l; [lia|done].
  - intros H. destruct K as [|K].
    { destruct (H0 eq_refl H). split; [done|by left]. }
    destruct fuel as [|fuel]; [done|].
    destruct l as [|[|l]]; [done..|]. lia.
Qed.
End no_memory.

(** The input of [hrevolve(2, (0, 0), ...)]: no slot at either level. *)
Lemma hrevolve_recurse_no_memory_witness :
  ∃ t, tables_or_compute [0; 0] [0; 0]%float [0; 0]%float 2 1 None 2 = Ok t
       ∧ hrevolve_recurse [0; 0] [0; 0]%float [0; 0]%float 2 1 4 2 0 0 None
         = no_memory.
Proof.
  assert (∃ t, tables_or_compute [0; 0] [0; 0]%float [0; 0]%float 2 1 None 2
               = Ok t) as [t Ht] by (eexists; vm_compute; reflexivity).
  exists t. split; [exact Ht|].
  apply (hrevolve_recurse_no_memory [0; 0] [0; 0]%float [0; 0]%float 2 1
           3 2 0 0 None t Ht); [lia|reflexivity|reflexivity].
Defined.

(** C5, as stated, fails: [hrevolve_recurse(2, 1, 0, (0, 0), ...)], the
    call [hrevolve(2, (0, 0), ...)] makes, raises the "no memory" error
    although [K = 1]. *)
Lemma hrevolve_recurse_no_memory_level1 :
  hrevolve_recurse [0; 0] [0; 0]%float [0; 0]%float 2 1 (fuel_for 2 1) 2 1 0 None
    = no_memory
  ∧ ¬ (0 < 2 ∧ 1 = 0 ∧ 0 = 0).
Proof. split; [vm_compute; reflexivity|]. intros (_ & [=] & _). Qed.

(** *** Fuel *)

Lemma refines_refl {A} (r : result A) : refines r r.
Proof. by right. Qed.

Lemma refines_bind {A B} (m m' : result A) (k k' : A → result B) :
  refines m m' → (∀ a, refines (k a) (k' a)) →
  refines (m ≫= k) (m' ≫= k').
Proof.
  intros [->| <-] Hk; [by left|]. destruct m; simpl; [done|by right..].
Qed.

Lemma refines_terminates {A} (r r' : result A) :
  refines r r' → terminates r → r = r'.
Proof. by intros [->|]. Qed.

Section fuel.
Variables (cvect : list nat) (wvect rvect : list float) (cbwd cfwd : float).

Local Abbreviation aux := (hrevolve_aux cvect wvect rvect cbwd cfwd).
Local Abbreviation recurse := (hrevolve_recurse cvect wvect rvect cbwd cfwd).

(** More fuel does not change a result. *)
Lemma fuel_mono f :
  ∀ f', f ≤ f' →
    (∀ l K cmem tabs, refines (aux f l K cmem tabs) (aux f' l K cmem tabs))
    ∧ (∀ l K cmem tabs,
         refines (recurse f l K cmem tabs) (recurse f' l K cmem tabs)).
Proof.
  induction f as [|f IH]; intros f' Hle; [by split; left|].
  destruct f' as [|f']; [lia|].
  destruct (IH f') as [IHa IHr]; [lia|].
  split; intros l K cmem tabs; simpl;
    repeat first
      [ apply refines_refl
      | apply IHa
      | apply IHr
      | apply refines_bind; [|intros ?]
      | match goal with
        | |- refines (if ?b then _ else _) (if ?b then _ else _) =>
            destruct b
        end ].
Qed.

(** [fuel_for] is enough: the recursion ends in a value or an
    exception. *)
Lemma fuel_enough f :
  (∀ l K cmem t, 2 * (l + K) + 1 ≤ f → terminates (aux f l K cmem (Some t)))
  ∧ (∀ l K cmem t, 2 * (l + K) + 2 ≤ f →
       terminates (recurse f l K cmem (Some t))).
Proof.
  induction f as [|f [IHa IHr]]; [split; intros; lia|].
  split; intros l K cmem t Hf; simpl.
  - destruct (cmem =? 0); [done|]. destruct (l =? 0) eqn:El0; [done|].
    destruct (l =? 1) eqn:El1.
    { repeat (apply terminates_bind; [apply getitem_terminates|intros ? _]).
      done. }
    apply Nat.eqb_neq in El0, El1.
    destruct ((K =? 0) && (cmem =? 1)); [done|].
    destruct (K =? 0) eqn:EK.
    + apply terminates_bind; [apply list_mem_terminates|]. intros lm Hlm.
      apply terminates_bind; [apply py_min_terminates|]. intros mn Hmn.
      apply terminates_bind; [apply tget_terminates|]. intros one _.
      destruct (mn <? one)%float; [|done].
      apply list_mem_length in Hlm.
      assert (1 ≤ argmin lm ≤ length lm) by (apply argmin_bounds; by intros ->).
      apply terminates_bind; [apply IHr; lia|]. intros s1 _.
      apply terminates_bind; [apply IHa; lia|]. done.
    + apply Nat.eqb_neq in EK.
      apply terminates_bind; [apply list_mem_terminates|]. intros lm Hlm.
      apply terminates_bind; [apply py_min_terminates|]. intros mn Hmn.
      apply terminates_bind; [apply getitem_terminates|]. intros c _.
      apply terminates_bind; [apply tget_terminates|]. intros below _.
      apply list_mem_length in Hlm.
      assert (1 ≤ argmin lm ≤ length lm) by (apply argmin_bounds; by intros ->).
      destruct (mn <? below)%float.
      * apply terminates_bind; [apply IHr; lia|]. intros s1 _.
        apply terminates_bind; [apply IHa; lia|]. done.
      * apply terminates_bind; [apply getitem_terminates|]. intros c' _.
        apply IHr. lia.
  - destruct (l =? 0); [done|]. destruct ((K =? 0) && (cmem =? 0)); [done|].
    destruct (l =? 1); [done|]. destruct (K =? 0) eqn:EK.
    + apply Nat.eqb_eq in EK as ->.
      apply terminates_bind; [apply IHa; lia|]. done.
    + apply Nat.eqb_neq in EK.
      apply terminates_bind; [apply getitem_terminates|]. intros wK _.
      apply terminates_bind; [apply tget_terminates|]. intros p _.
      apply terminates_bind; [apply getitem_terminates|]. intros c _.
      apply terminates_bind; [apply tget_terminates|]. intros below _.
      destruct (wK + p <? below)%float.
      * apply terminates_bind; [apply IHa; lia|]. done.
      * apply terminates_bind; [apply getitem_terminates|]. intros c' _.
        apply IHr. lia.
Qed.

(** With enough fuel a call is the call by [hrevolve_aux_tab]
    or [hrevolve_recurse_tab]. *)
Lemma aux_enough f l K cmem t :
  2 * (l + K) + 1 ≤ f →
  aux f l K cmem (Some t) = hrevolve_aux_tab cvect wvect rvect cbwd cfwd l K cmem t.
Proof.
  intros Hf. symmetry. apply refines_terminates.
  - by apply fuel_mono.
  - by apply fuel_enough.
Qed.

Lemma recurse_enough f l K cmem t :
  2 * (l + K) + 2 ≤ f →
  recurse f l K cmem (Some t)
  = hrevolve_recurse_tab cvect wvect rvect cbwd cfwd l K cmem t.
Proof.
  intros Hf. symmetry. apply refines_terminates.
  - by apply fuel_mono.
  - apply fuel_enough. unfold fuel_for. lia.
Qed.

(** A call without tables computes them and goes on as a call with
    tables. *)
Lemma recurse_tables f l K cmem tabs :
  recurse (S f) l K cmem tabs
  = (tables_or_compute cvect wvect rvect cbwd cfwd tabs l
     ≫= λ t, recurse (S f) l K cmem (Some t)).
Proof.
  simpl. destruct (tables_or_compute _ _ _ _ _ tabs l); reflexivity.
Qed.

(** X1: [hrevolve] ends for every input: whatever the number of steps,
    the slot counts and the costs are, the recursion of
    [hrevolve_recurse] and [hrevolve_aux] reaches its end, with a
    sequence or with an exception. *)
Lemma hrevolve_terminates l :
  terminates (hrevolve cvect wvect rvect cbwd cfwd l).
Proof.
  unfold hrevolve. apply terminates_bind; [apply getitem_terminates|].
  intros c _. unfold fuel_for.
  replace (2 * (l + (length cvect - 1)) + 2)
    with (S (2 * (l + (length cvect - 1)) + 1)) by lia.
  rewrite recurse_tables. apply terminates_bind.
  - apply get_hopt_table_terminates.
  - intros t _. apply fuel_enough. lia.
Qed.

(** C4: at a level [K ≥ 1] with [cmem ≥ 1] slots and [l ≥ 2], where the
    cells read exist, [list_mem] holds
    [j*cfwd + opt[K][l-j][cmem-1] + rvect[K] + optp[K][j-1][cmem]] for
    [j] in [[1, l)] and [hrevolve_aux] compares its minimum
    with [opt[K-1][l][cvect[K-1]]]: if it is smaller, the sequence is
    [Forward(0, jmin-1)], [hrevolve_recurse(l-jmin, K, cmem-1)] shifted
    by [jmin], [Read(K, 0)] and [hrevolve_aux(jmin-1, K, cmem)], where
    [jmin = argmin(list_mem)] is the smallest [j] in [[1, l)] at which
    [list_mem] attains its minimum; otherwise it is
    [hrevolve_recurse(l, K-1, cvect[K-1])]. *)
Theorem hrevolve_aux_level_K l K cmem t lm c below :
  1 ≤ K → 1 ≤ cmem → 2 ≤ l →
  list_mem rvect cfwd t K l cmem = Ok lm →
  cvect !! (K - 1) = Some c →
  tget (opt t) (K - 1) l c = Ok below →
  (∀ j, 1 ≤ j < l → ∃ a rK b,
     tget (opt t) K (l - j) (cmem - 1) = Ok a ∧ rvect !! K = Some rK
     ∧ tget (optp t) K (j - 1) cmem = Ok b
     ∧ lm !! (j - 1) = Some (float_of_nat j * cfwd + a + rK + b)%float) ∧
  ∃ mn, py_min lm = Ok mn ∧
    let jmin := argmin lm in
    1 ≤ jmin < l ∧ lm !! (jmin - 1) = Some mn ∧
    (∀ j y, 1 ≤ j < jmin → lm !! (j - 1) = Some y → y ≠ mn) ∧
    hrevolve_aux_tab cvect wvect rvect cbwd cfwd l K cmem t =
      if (mn <? below)%float then
        s1 ← hrevolve_recurse_tab cvect wvect rvect cbwd cfwd
               (l - jmin) K (cmem - 1) t;
        s2 ← hrevolve_aux_tab cvect wvect rvect cbwd cfwd (jmin - 1) K cmem t;
        Ok ([op2 Forward 0 (jmin - 1)] ++ shift (Z.of_nat jmin) s1
            ++ [op2 Read K 0] ++ s2)
      else hrevolve_recurse_tab cvect wvect rvect cbwd cfwd l (K - 1) c t.
Proof.
  intros HK Hc Hl Hlm Hcv Hbelow.
  split; [intros j Hj; by eapply list_mem_lookup|].
  pose proof (list_mem_length _ _ _ _ _ _ _ Hlm) as Hlen.
  assert (Hne : lm ≠ []) by (intros ->; simpl in Hlen; lia).
  destruct (py_min lm) as [mn| |] eqn:Hmn; [|by destruct lm..].
  exists mn. split; [done|]. intros jmin.
  assert (1 ≤ jmin ≤ length lm) by (by apply argmin_bounds).
  split; [lia|]. split; [by apply argmin_attains|].
  split. { intros j y Hj. apply argmin_leftmost; [done|]. unfold jmin in Hj. lia. }
  unfold hrevolve_aux_tab at 1.
  replace (2 * (l + K) + 1) with (S (2 * (l + K))) by lia.
  simpl hrevolve_aux.
  destruct (cmem =? 0) eqn:E1; [apply Nat.eqb_eq in E1; lia|].
  destruct (l =? 0) eqn:E2; [apply Nat.eqb_eq in E2; lia|].
  destruct (l =? 1) eqn:E3; [apply Nat.eqb_eq in E3; lia|].
  destruct (K =? 0) eqn:E4; [apply Nat.eqb_eq in E4; lia|].
  simpl. rewrite Hlm. simpl. rewrite Hmn. simpl.
  apply getitem_Ok in Hcv. rewrite Hcv. simpl. rewrite Hbelow. simpl.
  fold jmin. destruct (_ <? below)%float.
  - rewrite recurse_enough, aux_enough by lia. done.
  - by rewrite recurse_enough by lia.
Qed.
End fuel.

(** Two levels of one slot each, tables for lengths up to 3, and the call
    [hrevolve_aux(2, 1, 1, ...)]: [list_mem] is [[8.5]], smaller than
    [opt[0][2][1] = 9], and [jmin = 1]. *)
Lemma hrevolve_aux_level_K_witness :
  ∃ t,
    get_hopt_table 3 [1; 1] [0; 0.5]%float [0; 0.5]%float 2 1 = Ok t
    ∧ list_mem [0; 0.5]%float 1 t 1 2 1 = Ok [8.5%float]
    ∧ hrevolve_aux_tab [1; 1] [0; 0.5]%float [0; 0.5]%float 2 1 2 1 1 t
      = (s1 ← hrevolve_recurse_tab [1; 1] [0; 0.5]%float [0; 0.5]%float 2 1
                1 1 0 t;
         s2 ← hrevolve_aux_tab [1; 1] [0; 0.5]%float [0; 0.5]%float 2 1
                0 1 1 t;
         Ok ([op2 Forward 0 0] ++ shift 1 s1 ++ [op2 Read 1 0] ++ s2)).
Proof.
  assert (∃ t, get_hopt_table 3 [1; 1] [0; 0.5]%float [0; 0.5]%float 2 1 = Ok t
               ∧ list_mem [0; 0.5]%float 1 t 1 2 1 = Ok [8.5%float]
               ∧ tget (opt t) 0 2 1 = Ok 9%float) as (t & Ht & Hlm & Hbelow)
    by (eexists; split; [vm_compute; reflexivity|]; split; vm_compute; reflexivity).
  exists t. split; [exact Ht|]. split; [exact Hlm|].
  destruct (hrevolve_aux_level_K [1; 1] [0; 0.5]%float [0; 0.5]%float 2 1
              2 1 1 t [8.5%float] 1 9%float)
    as (_ & mn & Hmn & _ & _ & _ & ->);
    [lia|lia|lia|exact Hlm|reflexivity|exact Hbelow|].
  injection Hmn as <-. reflexivity.
Defined.

(** *** The operations of a sequence *)

Section operations.
Variables (cvect : list nat) (wvect rvect : list float) (cbwd cfwd : float).

Local Abbreviation aux := (hrevolve_aux cvect wvect rvect cbwd cfwd).
Local Abbreviation recurse := (hrevolve_recurse cvect wvect rvect cbwd cfwd).

Lemma has_forward_pair_app_l s s' : has_forward_pair s → has_forward_pair (s ++ s').
Proof. intros (a & b & H). exists a, b. apply elem_of_app. by left. Qed.

Lemma has_forward_pair_app_r s s' : has_forward_pair s' → has_forward_pair (s ++ s').
Proof. intros (a & b & H). exists a, b. apply elem_of_app. by right. Qed.

Lemma has_forward_pair_cons a b s :
  has_forward_pair (Operation_ Op.Forward (Pair a b) :: s).
Proof. exists a, b. by left. Qed.

(** Every sequence built for a length [l ≥ 1] holds a [Forward] whose
    index is a list. *)
Lemma builders_forward_pair fuel :
  (∀ l K cmem tabs s, 1 ≤ l → aux fuel l K cmem tabs = Ok s → has_forward_pair s)
  ∧ (∀ l K cmem tabs s, 1 ≤ l →
       recurse fuel l K cmem tabs = Ok s → has_forward_pair s).
Proof.
  induction fuel as [|fuel [IHa IHr]]; [done|].
  split; intros l K cmem tabs s Hl H; simpl in H.
  - apply bind_Ok in H as (t & _ & H).
    destruct (cmem =? 0); [done|].
    destruct (l =? 0) eqn:El0; [apply Nat.eqb_eq in El0; lia|].
    destruct (l =? 1).
    { inv_ok. apply has_forward_pair_app_r, has_forward_pair_cons. }
    destruct ((K =? 0) && (cmem =? 1)).
    { injection H as <-. apply has_forward_pair_app_l.
      exists 0%Z, (Z.of_nat (l - 1 + 1)). apply list_elem_of_In, in_flat_map.
      exists (l - 1). split.
      - rewrite <- in_rev. apply in_seq. lia.
      - apply list_elem_of_In. unfold scan_body.
        rewrite bool_decide_false by (intros ?; lia). by left. }
    destruct (K =? 0).
    + inv_ok. apply has_forward_pair_cons.
    + inv_ok.
      * apply has_forward_pair_cons.
      * by eapply IHr.
  - apply bind_Ok in H as (t & _ & H).
    destruct (l =? 0) eqn:El0; [apply Nat.eqb_eq in El0; lia|].
    destruct ((K =? 0) && (cmem =? 0)); [done|].
    destruct (l =? 1).
    { injection H as <-. apply (has_forward_pair_app_r [_]).
      apply has_forward_pair_cons. }
    destruct (K =? 0).
    + inv_ok. apply (has_forward_pair_app_r [_]). by eapply IHa.
    + inv_ok.
      * apply (has_forward_pair_app_r [_]). by eapply IHa.
      * by eapply IHr.
Qed.

Lemma has_write_forward_app_l s s' :
  has_write_forward s → has_write_forward (s ++ s').
Proof. intros (ix & H). exists ix. apply elem_of_app. by left. Qed.

Lemma has_write_forward_app_r s s' :
  has_write_forward s' → has_write_forward (s ++ s').
Proof. intros (ix & H). exists ix. apply elem_of_app. by right. Qed.

Lemma has_write_forward_shift δ s :
  has_write_forward s → has_write_forward (shift δ s).
Proof.
  intros (ix & H).
  exists (index (shift_op δ (Operation_ Op.Write_Forward ix))).
  apply list_elem_of_fmap. exists (Operation_ Op.Write_Forward ix).
  split; [|done]. by destruct ix.
Qed.

(** Every sequence built for a length [l ≥ 1] holds a [Write_Forward]. *)
Lemma builders_write_forward fuel :
  (∀ l K cmem tabs s, 1 ≤ l → aux fuel l K cmem tabs = Ok s → has_write_forward s)
  ∧ (∀ l K cmem tabs s, 1 ≤ l →
       recurse fuel l K cmem tabs = Ok s → has_write_forward s).
Proof.
  induction fuel as [|fuel [IHa IHr]]; [done|].
  assert (Hsplit : ∀ l K cmem t lm mn s1 s2 (o o' : Operation),
            2 ≤ l → list_mem rvect cfwd t K l cmem = Ok lm → py_min lm = Ok mn →
            recurse fuel (l - argmin lm) K (cmem - 1) (Some t) = Ok s1 →
            has_write_forward (o :: shift (Z.of_nat (argmin lm)) s1 ++ o' :: s2)).
  { intros l K cmem t lm mn s1 s2 o o' Hl Hlm Hmn Hs1.
    apply list_mem_length in Hlm.
    assert (1 ≤ argmin lm ≤ length lm) by (apply argmin_bounds; by intros ->).
    apply (has_write_forward_app_r [_]), has_write_forward_app_l,
      has_write_forward_shift.
    eapply IHr; [|done]. lia. }
  split; intros l K cmem tabs s Hl H; simpl in H.
  - apply bind_Ok in H as (t & _ & H).
    destruct (cmem =? 0); [done|].
    destruct (l =? 0) eqn:El0; [apply Nat.eqb_eq in El0; lia|].
    destruct (l =? 1) eqn:El1.
    { inv_ok. apply has_write_forward_app_r. exists (Pair 0 1).
      apply elem_of_cons. right. by left. }
    apply Nat.eqb_neq in El1.
    destruct ((K =? 0) && (cmem =? 1)).
    { injection H as <-. apply has_write_forward_app_l.
      exists (Pair 0 (Z.of_nat (l - 1 + 1))). apply list_elem_of_In, in_flat_map.
      exists (l - 1). split.
      - rewrite <- in_rev. apply in_seq. lia.
      - apply list_elem_of_In. unfold scan_body.
        rewrite bool_decide_false by (intros ?; lia).
        apply elem_of_cons. right. by left. }
    destruct (K =? 0).
    + inv_ok. eapply Hsplit; [|done..]. lia.
    + inv_ok.
      * eapply Hsplit; [|done..]. lia.
      * by eapply IHr.
  - apply bind_Ok in H as (t & _ & H).
    destruct (l =? 0) eqn:El0; [apply Nat.eqb_eq in El0; lia|].
    destruct ((K =? 0) && (cmem =? 0)); [done|].
    destruct (l =? 1).
    { injection H as <-. exists (Pair 0 1). unfold unrolled_l1.
      apply elem_of_cons. right. apply elem_of_cons. right. by left. }
    destruct (K =? 0).
    + inv_ok. apply (has_write_forward_app_r [_]). by eapply IHa.
    + inv_ok.
      * apply (has_write_forward_app_r [_]). by eapply IHa.
      * by eapply IHr.
Qed.

Lemma hrevolve_write_forward l s :
  1 ≤ l → hrevolve cvect wvect rvect cbwd cfwd l = Ok s → has_write_forward s.
Proof.
  unfold hrevolve. intros Hl H. inv_ok.
  by eapply (builders_write_forward (fuel_for l (length cvect - 1))).
Qed.

Lemma hrevolve_forward_pair l s :
  1 ≤ l → hrevolve cvect wvect rvect cbwd cfwd l = Ok s → has_forward_pair s.
Proof.
  unfold hrevolve. intros Hl H. inv_ok.
  by eapply (builders_forward_pair (fuel_for l (length cvect - 1))).
Qed.
End operations.

End HRevolveSequenceFacts.

(** ** The action adapter *)

Module HRevolveFacts.
Import HRevolve.

Lemma write_deferred_cp_spec s :
  write_deferred_cp s
  = (flushed_actions s,
     Ok (tt, set_deferred_cp None (set_snapshots (flushed_snapshots s) s))).
Proof.
  unfold write_deferred_cp, flushed_actions, flushed_snapshots.
  destruct s as [n r e sn [[n_0 st]|] cd]; reflexivity.
Qed.

(** C6: a raw [Backward(n0)] at position [i] is accepted exactly when
    [n0 = n] and [n0 = max_n - r - 1] (otherwise the adapter raises
    "Invalid checkpointing state" before it yields anything); it then
    flushes the deferred write, yields [Clear(True, True)],
    [Configure(False, True)], [Forward(n0, n0+1)], [EndForward] exactly
    when [n0+1 = max_n] and [r = 0], and [Reverse(n0+1, n0)], and leaves
    [n = n0+1] and [r] incremented. *)
Theorem step_backward max_n schedule i n_0 s :
  schedule !! i = Some (Operation_ Op.Backward (Step n_0)) →
  step max_n schedule i s =
    if bool_decide (n_0 = n s ∧ n_0 = max_n - r s - 1)%Z then
      (flushed_actions s
       ++ [Clear true true; Configure false true; Forward n_0 (n_0 + 1)]
       ++ (if bool_decide (n_0 + 1 = max_n ∧ r s = 0)%Z then [EndForward] else [])
       ++ [Reverse (n_0 + 1) n_0],
       Ok (tt, State (n_0 + 1) (r s + 1) (exhausted s) (flushed_snapshots s)
                 None (cp_delete s)))
    else ([], Raise invalid_state).
Proof.
  intros Hi. unfold step, action. rewrite Hi. simpl.
  unfold do_backward.
  destruct s as [n r e sn [[d_n d_st]|] cd];
    cbv [mbind mret Gen.gen_bind Gen.gen_ret Gen.bind Gen.ret Gen.lift Gen.get
         Gen.yield Gen.modify Gen.raise write_deferred_cp flushed_actions
         flushed_snapshots]; simpl;
    repeat case_bool_decide; simpl; try reflexivity; exfalso; lia.
Qed.

(** A schedule of one [Backward(0)], for [max_n = 1]. *)
Lemma step_backward_witness :
  step 1 [Operation_ Op.Backward (Step 0)] 0 initial_state
  = ([Clear true true; Configure false true; Forward 0 1; EndForward;
      Reverse 1 0],
     Ok (tt, State 1 1 false ∅ None None)).
Proof.
  rewrite (step_backward 1 [Operation_ Op.Backward (Step 0)] 0 0 initial_state);
    reflexivity.
Defined.

(** C7, as the code has it: for a raw [Read(level, n0)] at position [i]
    with a level 0 or 1 and no deferred write, [cp_delete] is true when
    [n0 = max_n - r - 1]; otherwise, when the [Read] is not in the last two
    positions, the adapter decodes the operation at [i + 2]: a [Discard]
    of the same step and storage gives [cp_delete = True], a [Discard] of
    another step or storage raises "Invalid schedule", any other operation
    the adapter accepts gives [cp_delete = False], and one it does not
    accept ends the iteration. *)
Theorem step_read max_n schedule i level n_0 storage s :
  schedule !! i = Some (Operation_ Op.Read (Pair level n_0)) →
  storage_name level = Ok storage →
  deferred_cp s = None →
  (n_0 = max_n - r s - 1)%Z ∨ i + 2 < length schedule →
  step max_n schedule i s =
    if bool_decide (n_0 = max_n - r s - 1)%Z then read_outcome n_0 storage true s
    else
      match action schedule (i + 2) with
      | Ok (A_Discard d_n_0 d_storage) =>
          if bool_decide (d_n_0 = n_0 ∧ d_storage = storage)
          then read_outcome n_0 storage true s
          else ([], Raise invalid_schedule)
      | Ok _ => read_outcome n_0 storage false s
      | Raise e => ([], Raise e)
      | OutOfFuel => ([], OutOfFuel)
      end.
Proof.
  intros Hi Hst Hd Hpos. unfold step, action at 1. rewrite Hi. simpl.
  rewrite Hst. simpl. unfold do_read, read_outcome.
  destruct s as [n r e sn d cd]. simpl in *. subst d.
  cbv [mbind mret Gen.gen_bind Gen.gen_ret Gen.bind Gen.ret Gen.lift Gen.get
       Gen.yield Gen.modify Gen.raise]. simpl.
  case_bool_decide as Hn.
  { cbv [set_cp_delete set_snapshots set_n snapshots cp_delete].
    destruct (bool_decide (n_0 ∈ sn)); reflexivity. }
  destruct Hpos as [?|Hpos]; [done|].
  rewrite bool_decide_true by lia.
  destruct (action schedule (i + 2)) as [[| | | |d_n_0 d_storage]| |];
    simpl; try reflexivity.
  destruct (decide (d_n_0 = n_0 ∧ d_storage = storage)) as [[-> ->]|Hne].
  - rewrite (bool_decide_false (_ ∨ _)) by (intros [?|?]; congruence).
    rewrite (bool_decide_true (_ ∧ _)) by (split; reflexivity).
    cbv [set_cp_delete set_snapshots set_n snapshots cp_delete].
    destruct (bool_decide (n_0 ∈ sn)); reflexivity.
  - rewrite (bool_decide_false (_ ∧ _)) by done.
    rewrite (bool_decide_true (_ ∨ _)); [reflexivity|].
    destruct (decide (d_n_0 = n_0)) as [->|]; [right|left; done].
    intros ->. by apply Hne.
Qed.

(** A [Read(0, 3)] of a live checkpoint, followed two positions later by
    its [Discard(0, 3)], while the next step to reverse is 4. *)
Lemma step_read_witness :
  step 5 [Operation_ Op.Read (Pair 0 3); Operation_ Op.Backward (Step 3);
          Operation_ Op.Discard (Pair 0 3)] 0
       (State 4 0 false {[3%Z]} None None)
  = read_outcome 3 "RAM" true (State 4 0 false {[3%Z]} None None).
Proof.
  rewrite (step_read 5 _ 0 0 3 "RAM"); [reflexivity..|].
  right. simpl. lia.
Defined.

(** C7, as stated, fails: when the operation two positions after
    [Read(0, 3)] is the [Discard] of another step, the adapter raises
    "Invalid schedule" and yields no [Read] at all. *)
Lemma step_read_discard_mismatch :
  let schedule := [Operation_ Op.Read (Pair 0 3);
                   Operation_ Op.Backward (Step 3);
                   Operation_ Op.Discard (Pair 0 2)] in
  let s := State 4 0 false {[3%Z]} None None in
  step 5 schedule 0 s = ([], Raise invalid_schedule)
  ∧ ¬ (∃ out s', step 5 schedule 0 s = (out ++ [Read 3 "RAM" false], Ok (tt, s'))).
Proof.
  assert (H : step 5 [Operation_ Op.Read (Pair 0 3);
                      Operation_ Op.Backward (Step 3);
                      Operation_ Op.Discard (Pair 0 2)] 0
                (State 4 0 false {[3%Z]} None None)
              = ([], Raise invalid_schedule)) by reflexivity.
  simpl. split; [exact H|]. intros (out & s' & H'). rewrite H in H'.
  discriminate H'.
Qed.

(** In the last two positions, with [n0 ≠ max_n - r - 1], no branch
    assigns [cp_delete]: a first [Read] ends in [UnboundLocalError]. *)
Lemma step_read_last_positions :
  step 5 [Operation_ Op.Read (Pair 0 3); Operation_ Op.Backward (Step 3)] 0
       (State 4 0 false {[3%Z]} None None)
  = ([Clear true true], Raise UnboundLocalError).
Proof. reflexivity. Qed.

(** A schedule that holds an operation [action] does not accept (a
    [Forward] whose index is a list, [Write_Forward], [Discard_Forward])
    is never run to its end. *)
Lemma for_each_unaccepted max_n schedule i e ixs s :
  i ∈ ixs → action schedule i = Raise e →
  ∀ x, (for_each max_n schedule ixs s).2 ≠ Ok x.
Proof.
  intros Hi He. revert s. induction ixs as [|j ixs IH]; intros s x.
  { by apply elem_of_nil in Hi. }
  simpl. unfold mbind, Gen.gen_bind, Gen.bind.
  destruct (step max_n schedule j s) as [out [[[] s']| |]] eqn:Hstep;
    simpl; [|done..].
  apply elem_of_cons in Hi as [->|Hi].
  - unfold step in Hstep. rewrite He in Hstep. discriminate Hstep.
  - specialize (IH Hi s' x).
    destruct (for_each max_n schedule ixs s') as [out' res']. done.
Qed.

(** C1: whatever [max_n ≥ 1], the slot counts and the costs are, the
    iteration of an [HRevolveCheckpointSchedule] does not reach its end:
    the sequence [hrevolve] builds holds a [Write_Forward] operation, which
    [action] rejects as "Unexpected action" (and an
    [Operation("Forward", [a, b])], whose index is a list, on which
    [n_1 = n_0 + 1] fails, see [hrevolve_forward_pair]). The stream ends
    in an exception before [EndReverse(True)] is yielded and before
    [_exhausted] is set. *)
Theorem iter_never_completes max_n snapshots_in_ram snapshots_on_disk
    wvect rvect cbwd cfwd sch :
  1 ≤ max_n →
  init max_n snapshots_in_ram snapshots_on_disk wvect rvect cbwd cfwd = Ok sch →
  ∀ x, (iter sch).2 ≠ Ok x.
Proof.
  intros Hn Hinit x. unfold init in Hinit. inv_ok. unfold iter. simpl.
  apply HRevolveSequenceFacts.hrevolve_write_forward in Ha as (ix & Hop);
    [|done].
  apply list_elem_of_lookup in Hop as [i Hi].
  assert (action a i = Raise (unexpected_action Op.Write_Forward)) as Hact.
  { unfold action. by rewrite Hi. }
  unfold run. rewrite gen_bind_unfold.
  pose proof (for_each_unaccepted (Z.of_nat max_n) a i
                (unexpected_action Op.Write_Forward)
                (range 0 (length a)) initial_state) as H.
  destruct (for_each _ _ _ _) as [out [[[] s']| |]]; simpl in *; [|done..].
  exfalso. eapply H; [|done|reflexivity].
  apply elem_of_range. apply lookup_lt_Some in Hi. lia.
Qed.

(** [HRevolveCheckpointSchedule(1, 1, 0)] with the default [wvect] and
    [rvect]: the schedule is the 8-operation sequence of
    [hrevolve_recurse] for [l = 1]; the adapter defers the [Write], then
    fails on the second operation, [Operation("Forward", [0, 1])]: it
    yields no [Reverse], no [EndForward] and no [EndReverse]. *)
Lemma iter_never_completes_witness :
  ∃ sch,
    init 1 1 0 [0; 0x1.999999999999ap-4]%float [0; 0x1.999999999999ap-4]%float
      2 1 = Ok sch
    ∧ _schedule sch = HRevolveSequence.unrolled_l1
    ∧ iter sch = ([], Raise TypeError)
    ∧ ∀ x, (iter sch).2 ≠ Ok x.
Proof.
  assert (∃ sch,
    init 1 1 0 [0; 0x1.999999999999ap-4]%float [0; 0x1.999999999999ap-4]%float
      2 1 = Ok sch
    ∧ _schedule sch = HRevolveSequence.unrolled_l1
    ∧ iter sch = ([], Raise TypeError)) as (sch & Hinit & Hsched & Hiter)
    by (eexists; split_and!; [vm_compute; reflexivity|reflexivity..]).
  exists sch. split_and!; [exact Hinit|exact Hsched|exact Hiter|].
  apply (iter_never_completes 1 1 0 [0; 0x1.999999999999ap-4]%float
           [0; 0x1.999999999999ap-4]%float 2 1 sch); [lia|exact Hinit].
Defined.

End HRevolveFacts.

(** ** The two-level schedule *)

Module TwoLevelFacts.
Import TwoLevel.

(** C8: [uses_storage_type(StorageType.DISK)] is false for a schedule
    built with [binomial_storage = RAM], although the first action of its
    iterator is [Forward(0, period, True, False, StorageType.DISK)]: the
    method compares with [binomial_storage] alone, while its docstring
    announces whether the schedule uses the storage type. *)
Theorem uses_storage_type_misses_disk period binomial_snapshots trajectory sch :
  init period binomial_snapshots RAM trajectory = Ok sch →
  uses_storage_type sch DISK = false
  ∧ forward_step sch None initial_state
    = ([(Forward 0 period true false DISK, [])],
       Ok (Some tt, State period 0)).
Proof.
  unfold init. case_bool_decide; [done|]. simpl. intros [= <-]. done.
Qed.

Lemma uses_storage_type_misses_disk_witness :
  ∃ sch, init 4 2 RAM "maximum" = Ok sch
         ∧ uses_storage_type sch DISK = false
         ∧ forward_step sch None initial_state
           = ([(Forward 0 4 true false DISK, [])], Ok (Some tt, State 4 0)).
Proof.
  eexists. split; [reflexivity|].
  apply (uses_storage_type_misses_disk 4 2 "maximum"). reflexivity.
Defined.

(** *** What a generator yields *)

Lemma yields_bind {A B} good (Q : A → Prop) (R : B → Prop)
    (m : Gen.gen event state A) (f : A → Gen.gen event state B) :
  yields good Q m → (∀ a, Q a → yields good R (f a)) → yields good R (m ≫= f).
Proof.
  intros Hm Hf s. unfold mbind, Gen.gen_bind, Gen.bind.
  destruct (Hm s) as [Hout Hres].
  destruct (m s) as [out [[a s']| |]]; simpl in *; [|done..].
  destruct (Hf a (Hres a s' eq_refl) s') as [Hout' Hres'].
  destruct (f a s') as [out' res']; simpl in *. split; [|done].
  by apply Forall_app.
Qed.

Lemma yields_weaken {A} good (Q Q' : A → Prop) (m : Gen.gen event state A) :
  (∀ a, Q a → Q' a) → yields good Q m → yields good Q' m.
Proof. intros HQ Hm s. destruct (Hm s) as [? H]. split; [done|]. eauto. Qed.

Lemma yields_ret {A} good (Q : A → Prop) (a : A) : Q a → yields good Q (mret a).
Proof. intros Ha s. simpl. split; [done|]. by intros ? ? [= <- _]. Qed.

Lemma yields_raise {A} good (Q : A → Prop) e : yields good Q (Gen.raise e).
Proof. intros s. simpl. done. Qed.

Lemma yields_out_of_fuel {A} good (Q : A → Prop) : yields good Q Gen.out_of_fuel.
Proof. intros s. simpl. done. Qed.

Lemma yields_get good : yields good (λ _, True) Gen.get.
Proof. intros s. simpl. done. Qed.

Lemma yields_modify good f : yields good (λ _, True) (Gen.modify f).
Proof. intros s. simpl. done. Qed.

Lemma yields_yield (good : event → Prop) a snapshots :
  good (a, snapshots) → yields good (λ _, True) (yield a snapshots).
Proof. intros Ha s. simpl. split; [|done]. by apply Forall_singleton. Qed.

Lemma yields_lift {A} good (x : result A) : yields good (λ _, True) (Gen.lift x).
Proof. intros s. destruct x; simpl; done. Qed.

(** *** The snapshot stack *)

Section stack.
Variable sch : TwoLevelCheckpointSchedule.
Variable n_advance : Z → Z → string → result Z.
Hypothesis binomial_snapshots_nonneg : (0 ≤ _binomial_snapshots sch)%Z.

Local Abbreviation fits := (fits sch).
Local Abbreviation fits_at_yield := (fits_at_yield sch).
Local Abbreviation keeps := (yields fits_at_yield fits).

Lemma advance_yields mx n_snapshots :
  yields fits_at_yield (λ _, True) (advance sch n_advance mx n_snapshots).
Proof.
  unfold advance. eapply yields_bind; [apply yields_get|]. intros s _.
  eapply yields_bind; [apply yields_lift|]. intros k _.
  destruct (negb _); [apply yields_raise|].
  eapply yields_bind; [apply yields_modify|]. intros _ _.
  by apply yields_ret.
Qed.

Lemma inner_loop_yields fuel mx snapshots :
  fits snapshots → keeps (inner_loop sch n_advance fuel mx snapshots).
Proof.
  revert snapshots. induction fuel as [|fuel IH]; intros snapshots Hfit; simpl.
  { apply yields_out_of_fuel. }
  eapply yields_bind; [apply yields_get|]. intros s _.
  case_bool_decide; [|by apply yields_ret].
  eapply yields_bind; [apply advance_yields|]. intros [n0 n1] _.
  eapply yields_bind; [by apply yields_yield|]. intros _ _.
  case_bool_decide as Hfull; [apply yields_raise|].
  apply IH. unfold fits in *. rewrite length_app. simpl. lia.
Qed.

(** The guard of line 125: with [binomial_snapshots + 1] snapshots or
    more, another advance of the inner loop ends the iteration, after the
    [Forward] of line 123. *)
Lemma inner_loop_full fuel mx snapshots s k :
  (n s < mx - r s - 1)%Z →
  (_binomial_snapshots sch + 1 ≤ Z.of_nat (length snapshots))%Z →
  n_advance (mx - r s - n s)
    (_binomial_snapshots sch + 1 - Z.of_nat (length snapshots))
    (_trajectory sch) = Ok k →
  (0 < k)%Z →
  inner_loop sch n_advance (S fuel) mx snapshots s
  = ([(Forward (n s) (n s + k) true false (_binomial_storage sch), snapshots)],
     Raise invalid_state).
Proof.
  intros Hn Hfull Hk Hpos. simpl. rewrite gen_bind_get.
  rewrite bool_decide_true by done. rewrite gen_bind_unfold.
  unfold advance. rewrite gen_bind_get. rewrite gen_bind_unfold.
  rewrite Hk. simpl. rewrite bool_decide_true by lia. simpl.
  by rewrite bool_decide_true by done.
Qed.

Lemma inner_while_yields mx snapshots :
  fits snapshots → keeps (inner_while sch n_advance mx snapshots).
Proof.
  intros Hfit. unfold inner_while.
  eapply yields_bind; [apply yields_get|]. intros s _.
  by apply inner_loop_yields.
Qed.

Lemma fits_removelast snapshots : fits snapshots → fits (removelast snapshots).
Proof.
  unfold fits. intros H.
  assert (length (removelast snapshots) ≤ length snapshots); [|lia].
  induction snapshots as [|x [|y l] IH]; simpl in *; lia.
Qed.

Lemma block_body_yields mx n0s snapshots :
  fits snapshots → keeps (block_body sch n_advance mx n0s snapshots).
Proof.
  intros Hfit. unfold block_body.
  destruct (last snapshots) as [cp_n|]; [|apply yields_raise].
  eapply yields_bind; [apply yields_get|]. intros s _.
  eapply (yields_bind _ fits).
  - case_bool_decide.
    + pose proof (fits_removelast _ Hfit).
      eapply yields_bind; [apply yields_modify|]. intros _ _.
      eapply yields_bind.
      { case_bool_decide; by apply yields_yield. }
      intros _ _. by apply yields_ret.
    + eapply yields_bind; [apply yields_modify|]. intros _ _.
      eapply yields_bind.
      { case_bool_decide; by apply yields_yield. }
      intros _ _.
      eapply yields_bind; [apply advance_yields|]. intros [n0 n1] _.
      eapply yields_bind; [by apply yields_yield|]. intros _ _.
      eapply yields_bind; [by apply inner_while_yields|]. intros snaps Hsnaps.
      eapply yields_bind; [apply yields_get|]. intros s1 _.
      case_bool_decide; [apply yields_raise|by apply yields_ret].
  - intros snapshots' Hfit'.
    eapply yields_bind; [apply yields_get|]. intros s2 _.
    eapply yields_bind; [apply yields_modify|]. intros _ _.
    eapply yields_bind; [by apply yields_yield|]. intros _ _.
    eapply yields_bind; [apply yields_modify|]. intros _ _.
    eapply yields_bind; [by apply yields_yield|]. intros _ _.
    by apply yields_ret.
Qed.

Lemma block_loop_yields fuel mx n0s snapshots :
  fits snapshots → keeps (block_loop sch n_advance fuel mx n0s snapshots).
Proof.
  revert snapshots. induction fuel as [|fuel IH]; intros snapshots Hfit; simpl.
  { apply yields_out_of_fuel. }
  eapply yields_bind; [apply yields_get|]. intros s _.
  case_bool_decide; [|by apply yields_ret].
  eapply yields_bind; [by apply block_body_yields|]. intros snapshots' Hfit'.
  by apply IH.
Qed.

(** A block starts with one snapshot and ends, if it ends, with none. *)
Lemma reverse_block_yields mx :
  yields fits_at_yield (λ snapshots, snapshots = [])
    (reverse_block sch n_advance mx).
Proof.
  unfold reverse_block.
  eapply yields_bind; [apply yields_get|]. intros s _.
  case_bool_decide; [apply yields_raise|].
  case_bool_decide; [apply yields_raise|].
  eapply (yields_bind _ fits).
  - unfold block_while.
    eapply yields_bind; [apply yields_get|]. intros s0 _.
    apply block_loop_yields. unfold fits. simpl. lia.
  - intros snapshots _.
    eapply yields_bind; [apply yields_get|]. intros s' _.
    case_bool_decide; [apply yields_raise|].
    case_bool_decide as Hlen; [apply yields_raise|].
    apply yields_ret. destruct snapshots; [done|]. simpl in Hlen. done.
Qed.

Lemma outer_loop_yields fuel mx :
  yields fits_at_yield (λ _, True) (outer_loop sch n_advance fuel mx).
Proof.
  induction fuel as [|fuel IH]; simpl; [apply yields_out_of_fuel|].
  eapply yields_bind; [apply yields_get|]. intros s _.
  case_bool_decide; [|by apply yields_ret].
  eapply yields_bind; [apply reverse_block_yields|]. intros _ _. apply IH.
Qed.

Lemma reverse_pass_yields mx :
  yields fits_at_yield (λ _, True) (reverse_pass sch n_advance mx).
Proof.
  unfold reverse_pass, outer_while.
  eapply yields_bind.
  { eapply yields_bind; [apply yields_get|]. intros s _.
    apply outer_loop_yields. }
  intros _ _.
  eapply yields_bind; [apply yields_get|]. intros s _.
  case_bool_decide; [apply yields_raise|].
  eapply yields_bind; [apply yields_modify|]. intros _ _.
  apply yields_yield. unfold fits_at_yield, fits. simpl. lia.
Qed.
End stack.

(** C10: with [binomial_snapshots ≥ 0], at every yield of a reverse pass
    the list [snapshots] holds at most [binomial_snapshots + 1] entries,
    whatever [n_advance] returns (the guard of line 125 raises before an
    append would exceed the bound), and the reversal of a period block
    that completes leaves the list empty. *)
Theorem snapshot_stack_bounded sch n_advance mx s :
  (0 ≤ _binomial_snapshots sch)%Z →
  Forall (λ ev : event,
            (Z.of_nat (length ev.2) ≤ _binomial_snapshots sch + 1)%Z)
    (reverse_pass sch n_advance mx s).1
  ∧ Forall (λ ev : event,
              (Z.of_nat (length ev.2) ≤ _binomial_snapshots sch + 1)%Z)
      (reverse_block sch n_advance mx s).1
  ∧ ∀ snapshots s',
      (reverse_block sch n_advance mx s).2 = Ok (snapshots, s') →
      snapshots = [].
Proof.
  intros Hbs. split_and!.
  - by apply (reverse_pass_yields sch n_advance Hbs mx s).
  - by apply (reverse_block_yields sch n_advance Hbs mx s).
  - by apply (reverse_block_yields sch n_advance Hbs mx s).
Qed.

(** *** Restarting *)

Section restart.
Variable sch : TwoLevelCheckpointSchedule.
Variable n_advance : Z → Z → string → result Z.
Hypothesis period_positive : (1 ≤ _period sch)%Z.

Local Abbreviation block_body := (block_body sch n_advance).
Local Abbreviation block_loop := (block_loop sch n_advance).
Local Abbreviation block_while := (block_while sch n_advance).
Local Abbreviation reverse_block := (reverse_block sch n_advance).
Local Abbreviation outer_loop := (outer_loop sch n_advance).
Local Abbreviation outer_while := (outer_while sch n_advance).
Local Abbreviation reverse_pass := (reverse_pass sch n_advance).

(** The body of the block loop sets [self._n] before it reads it. *)
Lemma block_body_n mx n0s snapshots n1 n2 r0 :
  block_body mx n0s snapshots (State n1 r0)
  = block_body mx n0s snapshots (State n2 r0).
Proof.
  unfold TwoLevel.block_body. destruct (last snapshots); [|reflexivity].
  unfold mbind, Gen.gen_bind, Gen.bind, Gen.get. simpl.
  case_bool_decide; reflexivity.
Qed.

Lemma block_while_n mx n0s snapshots n1 n2 r0 :
  (r0 < mx - n0s)%Z →
  block_while mx n0s snapshots (State n1 r0)
  = block_while mx n0s snapshots (State n2 r0).
Proof.
  intros Hr. unfold TwoLevel.block_while. rewrite !gen_bind_get. simpl.
  rewrite !gen_bind_get. simpl. rewrite bool_decide_true by done.
  rewrite !(gen_bind_unfold (block_body _ _ _)).
  by rewrite (block_body_n mx n0s snapshots n1 n2).
Qed.

Lemma reverse_block_n mx n1 n2 r0 :
  (r0 < mx)%Z →
  reverse_block mx (State n1 r0) = reverse_block mx (State n2 r0).
Proof.
  intros Hr. unfold TwoLevel.reverse_block. rewrite !gen_bind_get. simpl.
  case_bool_decide; [done|]. case_bool_decide; [done|].
  rewrite !(gen_bind_unfold (block_while _ _ _)).
  rewrite (block_while_n mx _ _ n1 n2); [done|].
  pose proof (Z.mul_div_le (mx - r0 - 1) (_period sch)). lia.
Qed.

(** A reverse pass that has something to reverse does not depend on the
    position [self._n] it starts from. *)
Lemma outer_while_n mx n1 n2 r0 :
  (r0 < mx)%Z →
  outer_while mx (State n1 r0) = outer_while mx (State n2 r0).
Proof.
  intros Hr. unfold TwoLevel.outer_while. rewrite !gen_bind_get. simpl.
  rewrite !gen_bind_get. simpl. rewrite bool_decide_true by done.
  rewrite !(gen_bind_unfold (reverse_block _)).
  by rewrite (reverse_block_n mx n1 n2).
Qed.

Lemma outer_while_done mx s :
  ¬ (r s < mx)%Z → outer_while mx s = ([], Ok (tt, s)).
Proof.
  intros Hr. unfold TwoLevel.outer_while. rewrite gen_bind_get. simpl.
  rewrite gen_bind_get. by rewrite bool_decide_false.
Qed.

(** C9: a reverse pass that completes ends with [EndReverse(False)] and
    [r = 0]; from the state it leaves, the body of [while True] runs
    again and completes with the same actions; [is_exhausted] is false. *)
Theorem reverse_pass_restarts mx s evs s' :
  r s = 0%Z →
  reverse_pass mx s = (evs, Ok (tt, s')) →
  (∃ evs0, evs = evs0 ++ [(EndReverse false, [])])
  ∧ r s' = 0%Z
  ∧ reverse_pass mx s' = (evs, Ok (tt, s'))
  ∧ is_exhausted sch = false.
Proof.
  intros Hr0 Hpass.
  assert (Hshape : ∃ evs0 s1, outer_while mx s = (evs0, Ok (tt, s1))
            ∧ r s1 = mx ∧ evs = evs0 ++ [(EndReverse false, [])]
            ∧ s' = set_r 0 s1).
  { unfold TwoLevel.reverse_pass, mbind, Gen.gen_bind, Gen.bind in Hpass.
    destruct (outer_while mx s) as [evs0 [[[] s1]| |]]; simpl in Hpass;
      [|done..].
    case_bool_decide as Hr1; simpl in Hpass; [done|].
    injection Hpass as <- <-. by exists evs0, s1. }
  destruct Hshape as (evs0 & s1 & Hout & Hr1 & -> & ->).
  split_and!; [by eexists|done| |done].
  destruct s as [n0 r0]. simpl in Hr0. subst r0.
  destruct (decide (0 < mx)%Z) as [Hmx|Hmx].
  - rewrite <- Hpass. destruct s1 as [n1 r1]. unfold set_r. simpl.
    unfold TwoLevel.reverse_pass, mbind, Gen.gen_bind, Gen.bind.
    by rewrite (outer_while_n mx n1 n0).
  - rewrite outer_while_done in Hout by done. injection Hout as <- <-.
    exact Hpass.
Qed.
End restart.

(** A schedule with period 2 and no binomial snapshot, finalized at
    [max_n = 2], with an [n_advance] that always returns 1: the pass
    reverses the block [[0, 2)] and yields eight actions. *)
Lemma reverse_pass_restarts_witness :
  ∃ evs s',
    reverse_pass (Schedule 2 0 RAM "maximum") (λ _ _ _, Ok 1%Z) 2 (State 2 0)
      = (evs, Ok (tt, s'))
    ∧ length evs = 8
    ∧ reverse_pass (Schedule 2 0 RAM "maximum") (λ _ _ _, Ok 1%Z) 2 s'
      = (evs, Ok (tt, s')).
Proof.
  assert (∃ evs s',
            reverse_pass (Schedule 2 0 RAM "maximum") (λ _ _ _, Ok 1%Z) 2
              (State 2 0) = (evs, Ok (tt, s'))
            ∧ length evs = 8) as (evs & s' & Hpass & Hlen)
    by (eexists _, _; split; [vm_compute; reflexivity|reflexivity]).
  exists evs, s'. split; [exact Hpass|]. split; [exact Hlen|].
  eapply proj1, proj2, proj2,
    (reverse_pass_restarts (Schedule 2 0 RAM "maximum") (λ _ _ _, Ok 1%Z)
       ltac:(simpl; lia) 2 (State 2 0) evs s' eq_refl Hpass).
Defined.

Lemma snapshot_stack_bounded_witness :
  Forall (λ ev : event, (Z.of_nat (length ev.2) ≤ 2 + 1)%Z)
    (reverse_pass (Schedule 4 2 RAM "maximum") (λ _ _ _, Ok 1%Z) 12
       (State 12 0)).1
  ∧ (reverse_block (Schedule 4 2 RAM "maximum") (λ _ _ _, Ok 1%Z) 12
       (State 12 0)).2 = Ok ([], State 9 4).
Proof.
  split; [|vm_compute; reflexivity].
  apply (snapshot_stack_bounded (Schedule 4 2 RAM "maximum") (λ _ _ _, Ok 1%Z)
           12 (State 12 0)).
  simpl. lia.
Defined.

(** *** Termination *)

Lemma total_bind {A B} (Q : A → state → Prop) (R : B → state → Prop)
    (m : Gen.gen event state A) (f : A → Gen.gen event state B) s :
  total Q m s → (∀ a s', Q a s' → total R (f a) s') → total R (m ≫= f) s.
Proof.
  unfold total. rewrite gen_bind_unfold. intros Hm Hf.
  destruct (m s) as [out [[a s']| |]]; simpl in *; [|done..].
  specialize (Hf a s' Hm). by destruct (f a s') as [out' res'].
Qed.

Lemma total_weaken {A} (P Q : A → state → Prop) m s :
  (∀ a s', P a s' → Q a s') → total P m s → total Q m s.
Proof. unfold total. intros HPQ. destruct (m s).2 as [[a s']| |]; auto. Qed.

Lemma total_get_bind {B} (P : B → state → Prop)
    (f : state → Gen.gen event state B) s :
  total P (f s) s → total P (Gen.get ≫= f) s.
Proof. unfold total. by rewrite gen_bind_get. Qed.

Lemma total_modify_bind {B} (P : B → state → Prop) (g : state → state)
    (f : unit → Gen.gen event state B) s :
  total P (f tt) (g s) → total P (Gen.modify g ≫= f) s.
Proof. unfold total. by rewrite gen_bind_modify. Qed.

Section termination.
Variable sch : TwoLevelCheckpointSchedule.
Variable n_advance : Z → Z → string → result Z.
Hypothesis period_positive : (1 ≤ _period sch)%Z.
Hypothesis n_advance_terminates : ∀ a b c, terminates (n_advance a b c).

Lemma advance_total mx n_snapshots s :
  total (λ _ s', (n s < n s')%Z ∧ r s' = r s)
    (advance sch n_advance mx n_snapshots) s.
Proof.
  unfold advance. apply total_get_bind. unfold total.
  rewrite gen_bind_unfold.
  pose proof (n_advance_terminates (mx - r s - n s) n_snapshots
                (_trajectory sch)) as Hk.
  destruct (n_advance _ _ _) as [k| |]; simpl; [|done..].
  case_bool_decide; simpl; [|done]. done.
Qed.

Lemma inner_loop_total fuel mx snapshots s :
  Z.to_nat (mx - r s - 1 - n s) < fuel →
  total (λ _ s', r s' = r s) (inner_loop sch n_advance fuel mx snapshots) s.
Proof.
  revert snapshots s.
  induction fuel as [|fuel IH]; intros snapshots s Hfuel; [lia|]. simpl.
  apply total_get_bind. case_bool_decide as Hn; [|done].
  eapply total_bind; [apply advance_total|].
  intros [n0 n1] s1 [Hn1 Hr1]. simpl.
  eapply (total_bind (λ _ s', s' = s1)); [done|]. intros _ s2 ->.
  case_bool_decide; [done|].
  eapply total_weaken; [|apply IH; lia]. simpl. intros _ s' ->. done.
Qed.

Lemma block_body_total mx n0s snapshots s :
  total (λ _ s', r s' = r s + 1)%Z (block_body sch n_advance mx n0s snapshots) s.
Proof.
  unfold block_body. destruct (last snapshots) as [cp_n|]; [|done].
  apply total_get_bind.
  eapply (total_bind (λ _ s', r s' = r s)).
  - case_bool_decide.
    + apply total_modify_bind.
      eapply (total_bind (λ _ s', r s' = r s)); [by case_bool_decide|].
      by intros _ s1 Hs1.
    + apply total_modify_bind.
      eapply (total_bind (λ _ s', r s' = r s)); [by case_bool_decide|].
      intros _ s1 Hs1.
      eapply total_bind; [apply advance_total|]. intros [n0 n1] s2 [_ Hs2].
      eapply (total_bind (λ _ s', s' = s2)); [done|]. intros _ s3 ->.
      eapply total_bind.
      { unfold inner_while. apply total_get_bind. apply inner_loop_total. lia. }
      simpl. intros snaps s3 Hs3. apply total_get_bind.
      case_bool_decide; [done|]. unfold total. simpl. congruence.
  - intros snapshots' s1 Hs1. apply total_get_bind, total_modify_bind.
    unfold total. simpl. lia.
Qed.

Lemma block_loop_total fuel mx n0s snapshots s :
  Z.to_nat (mx - n0s - r s) < fuel →
  total (λ _ _, True) (block_loop sch n_advance fuel mx n0s snapshots) s.
Proof.
  revert snapshots s.
  induction fuel as [|fuel IH]; intros snapshots s Hfuel; [lia|]. simpl.
  apply total_get_bind. case_bool_decide as Hr; [|done].
  eapply total_bind; [apply block_body_total|]. simpl.
  intros snapshots' s' Hs'. apply IH. lia.
Qed.

Lemma reverse_block_total mx s :
  (r s < mx)%Z →
  total (λ _ s', r s < r s')%Z (reverse_block sch n_advance mx) s.
Proof.
  intros Hr. unfold reverse_block. apply total_get_bind.
  case_bool_decide; [done|]. case_bool_decide; [done|].
  eapply total_bind.
  { unfold block_while. apply total_get_bind. apply block_loop_total. lia. }
  simpl. intros snapshots s' _. apply total_get_bind.
  case_bool_decide as Hr'; [done|]. case_bool_decide; [done|].
  unfold total. simpl.
  pose proof (Z.mul_div_le (mx - r s - 1) (_period sch)). lia.
Qed.

Lemma outer_loop_total fuel mx s :
  Z.to_nat (mx - r s) < fuel →
  total (λ _ _, True) (outer_loop sch n_advance fuel mx) s.
Proof.
  revert s. induction fuel as [|fuel IH]; intros s Hfuel; [lia|]. simpl.
  apply total_get_bind. case_bool_decide as Hr; [|done].
  eapply total_bind; [by apply reverse_block_total|]. simpl.
  intros _ s' Hs'. apply IH. lia.
Qed.

(** X2: for a period of at least 1 and an [n_advance] that returns or
    raises, the loops of a reverse pass end, from every state and for
    every [max_n]: a pass ends with [EndReverse] or with an exception
    ([assert n1 > n0] makes every advance progress). *)
Lemma reverse_pass_terminates mx s :
  terminates (reverse_pass sch n_advance mx s).2.
Proof.
  assert (total (λ _ _, True) (reverse_pass sch n_advance mx) s) as H.
  { unfold reverse_pass. eapply total_bind.
    - unfold outer_while. apply total_get_bind. apply outer_loop_total. lia.
    - simpl. intros _ s' _. apply total_get_bind.
      case_bool_decide; [done|]. by apply total_modify_bind. }
  unfold total, terminates in *. by destruct (_.2).
Qed.
End termination.

(** Twelve steps in periods of four, with an [n_advance] that always
    returns 1. *)
Lemma reverse_pass_terminates_witness :
  terminates
    (reverse_pass (Schedule 4 2 RAM "maximum") (λ _ _ _, Ok 1%Z) 12
       (State 12 0)).2.
Proof.
  apply (reverse_pass_terminates (Schedule 4 2 RAM "maximum")
           (λ _ _ _, Ok 1%Z)).
  - simpl. lia.
  - intros a b c. discriminate.
Defined.

End TwoLevelFacts.

(** ** The cost tables, cell by cell *)

Lemma foldM_ok {X S} (P : S → Prop) (body : X → S → result S)
    (xs : list X) (s : S) :
  (∀ x t, x ∈ xs → P t → ∃ t', body x t = Ok t' ∧ P t') →
  P s → ∃ s', foldM body xs s = Ok s' ∧ P s'.
Proof.
  revert s. induction xs as [|x xs IH]; intros s Hbody Hs; simpl.
  - by exists s.
  - destruct (Hbody x s) as (t' & -> & Ht'); [by left|done|]. simpl.
    apply IH; [|done]. intros y t Hy. apply Hbody. by right.
Qed.

(** A loop that ends well ran each of its iterations, from a state the
    earlier ones reached. *)
Lemma foldM_ran {X S} (P : S → Prop) (body : X → S → result S)
    (xs : list X) (x : X) (s s' : S) :
  (∀ y t t', y ∈ xs → body y t = Ok t' → P t → P t') →
  foldM body xs s = Ok s' → x ∈ xs → P s →
  ∃ t t', P t ∧ body x t = Ok t'.
Proof.
  revert s. induction xs as [|y xs IH]; intros s Hbody H Hx Hs.
  { by apply elem_of_nil in Hx. }
  simpl in H. inv_ok. apply elem_of_cons in Hx as [->|Hx].
  - eauto.
  - eapply IH; [|done..|].
    + intros z t t' Hz. apply Hbody. by right.
    + eapply Hbody; [by left|done..].
Qed.

Lemma only_index_error_bind {A B} (m : result A) (k : A → result B) :
  only_index_error m → (∀ a, m = Ok a → only_index_error (k a)) →
  only_index_error (m ≫= k).
Proof.
  unfold only_index_error. destruct m; simpl; [eauto| |done].
  intros Hm _ e' [= <-]. by apply Hm.
Qed.

Lemma getitem_only_index_error {A} (l : list A) i :
  only_index_error (getitem l i).
Proof. unfold only_index_error, getitem. destruct (l !! i); congruence. Qed.

Lemma foldM_only_index_error {X S} (body : X → S → result S) xs s :
  (∀ x t, only_index_error (body x t)) → only_index_error (foldM body xs s).
Proof.
  intros Hb. revert s. induction xs as [|x xs IH]; intros s; simpl; [done|].
  apply only_index_error_bind; [done|]. intros t _. apply IH.
Qed.

Lemma mapM_only_index_error {X Y} (f : X → result Y) xs :
  (∀ x, only_index_error (f x)) → only_index_error (mapM f xs).
Proof.
  intros Hf. induction xs as [|x xs IH]; simpl; [done|].
  apply only_index_error_bind; [done|]. intros y _.
  apply only_index_error_bind; [done|]. done.
Qed.

Lemma mapM_ext_in {X Y} (f g : X → result Y) xs :
  (∀ x, x ∈ xs → f x = g x) → mapM f xs = mapM g xs.
Proof.
  induction xs as [|x xs IH]; intros H; simpl; [done|].
  rewrite (H x) by by left. rewrite IH; [done|].
  intros y Hy. apply H. by right.
Qed.

(** The minimum of a list is not above its first element. *)
Lemma fold_left_min2_le xs a : (a <? fold_left min2 xs a)%float = false.
Proof.
  revert a. induction xs as [|x xs IH]; intros a; simpl.
  - apply float_ltb_irrefl.
  - unfold min2 at 2. destruct (x <? a)%float eqn:Hx; [|apply IH].
    destruct (a <? fold_left min2 xs x)%float eqn:Ha; [|done].
    by rewrite <- (IH x), (float_ltb_trans x a _).
Qed.

Lemma min2_le a b : (a <? min2 a b)%float = false.
Proof. apply (fold_left_min2_le [b]). Qed.

Module HOptCellsFacts.
Import HOpt HOptFacts HOptCells.

Lemma frame_on_refl proj Q s : frame_on proj Q s s.
Proof. by intros k l m _. Qed.

Lemma frame_on_trans proj Q s1 s2 s3 :
  frame_on proj Q s1 s2 → frame_on proj Q s2 s3 → frame_on proj Q s1 s3.
Proof. intros H12 H23 k l m HQ. rewrite (H23 k l m HQ). by apply H12. Qed.

Lemma frame_on_weaken proj (Q Q' : nat → nat → nat → Prop) s s' :
  (∀ k l m, Q k l m → Q' k l m) → frame_on proj Q s s' → frame_on proj Q' s s'.
Proof. intros HQ H k l m HnQ. apply H. naive_solver. Qed.

Lemma foldM_frame_on {X} proj Q (body : X → tables → result tables) xs s s' :
  (∀ x t t', x ∈ xs → body x t = Ok t' → frame_on proj Q t t') →
  foldM body xs s = Ok s' → frame_on proj Q s s'.
Proof.
  intros Hbody H.
  eapply (foldM_preserves (frame_on proj Q s)); [|done|apply frame_on_refl].
  intros x t t' Hx Hb Ht. eapply frame_on_trans; [done|]. by eapply Hbody.
Qed.

Lemma frame_optp Q s s' : frame Q s s' → frame_on optp Q s s'.
Proof. intros H k l m HQ. by destruct (H k l m HQ). Qed.

Lemma frame_opt Q s s' : frame Q s s' → frame_on opt Q s s'.
Proof. intros H k l m HQ. by destruct (H k l m HQ). Qed.

Lemma frame_on_both Q s s' :
  frame_on optp Q s s' → frame_on opt Q s s' → frame Q s s'.
Proof. intros Hp Ho k l m HQ. split; [by apply Hp|by apply Ho]. Qed.

Section cells.
Variables (lmax : nat) (cvect : list nat) (wvect rvect : list float).
Variables (cbwd cfwd : float).

Local Abbreviation init_l0 := (init_l0 cbwd).
Local Abbreviation init_l1 := (init_l1 wvect rvect cbwd cfwd).
Local Abbreviation init_level := (init_level cvect wvect rvect cbwd cfwd).
Local Abbreviation fill0_one := (fill0_one wvect rvect cbwd cfwd).
Local Abbreviation fill0_many := (fill0_many wvect rvect cfwd).
Local Abbreviation fill_level0 := (fill_level0 lmax cvect wvect rvect cbwd cfwd).
Local Abbreviation fillk_noslot := (fillk_noslot cvect).
Local Abbreviation fillk_many := (fillk_many cvect wvect rvect cfwd).
Local Abbreviation fill_level := (fill_level lmax cvect wvect rvect cfwd).
Local Abbreviation get_hopt_table :=
  (get_hopt_table lmax cvect wvect rvect cbwd cfwd).
Local Abbreviation s0 :=
  (Tables (new_table lmax cvect) (new_table lmax cvect)).

(** *** The cells each loop assigns *)

Lemma init_level_writes k s s' :
  init_level k s = Ok s' →
  frame (λ k' l' m', k' = k ∧ (l' = 0 ∨ (l' = 1 ∧ (k', m') ≠ (0, 0)))) s s'.
Proof.
  unfold HOpt.init_level. intros H. inv_ok.
  eapply frame_trans.
  - eapply foldM_frame; [|done]. intros m t t' _ Hb.
    eapply frame_weaken; [|by eapply init_l0_frame].
    intros ? ? ? [= -> -> ->]. auto.
  - eapply foldM_frame; [|done]. intros m t t' _ Hb.
    unfold HOpt.init_l1 in Hb.
    destruct ((m =? 0) && (k =? 0)) eqn:E.
    { injection Hb as <-. apply frame_refl. }
    apply andb_false_iff in E.
    inv_ok. eapply frame_weaken; [|by eapply frame_set_both].
    intros ? ? ? [= -> -> ->]. split; [done|]. right. split; [done|].
    intros [= -> ->]. by destruct E.
Qed.

Lemma fill_level0_writes s s' :
  fill_level0 s = Ok s' →
  frame (λ k' l' m', k' = 0 ∧ 2 ≤ l' < lmax ∧ 1 ≤ m') s s'.
Proof.
  unfold HOpt.fill_level0. intros H. inv_ok.
  eapply frame_trans.
  - eapply foldM_frame; [|done]. intros l t t' Hl Hb.
    apply elem_of_range in Hl.
    eapply frame_weaken; [|by eapply fill0_one_frame].
    intros ? ? ? [= -> -> ->]; lia.
  - eapply foldM_frame; [|done]. intros m t t' Hm Hb. simpl in Hb.
    apply elem_of_range in Hm.
    eapply foldM_frame; [|exact Hb]. intros l u u' Hl Hb'.
    apply elem_of_range in Hl.
    eapply frame_weaken; [|by eapply fill0_many_frame].
    intros ? ? ? [= -> -> ->]; lia.
Qed.

Lemma fillk_noslot_optp k l s s' : fillk_noslot k l s = Ok s' → optp s' = optp s.
Proof. unfold HOpt.fillk_noslot. intros H. by inv_ok. Qed.

Lemma fill_level_writes_optp k s s' :
  fill_level k s = Ok s' →
  frame_on optp (λ k' l' m', k' = k ∧ 1 ≤ l' < lmax ∧ 1 ≤ m') s s'.
Proof.
  unfold HOpt.fill_level. intros H. inv_ok.
  eapply frame_on_trans.
  - eapply foldM_frame_on; [|done]. intros l t t' Hl Hb.
    intros k' l' m' _. by rewrite (fillk_noslot_optp _ _ _ _ Hb).
  - eapply foldM_frame_on; [|done]. intros m t t' Hm Hb. simpl in Hb.
    apply elem_of_range in Hm.
    eapply foldM_frame_on; [|exact Hb]. intros l u u' Hl Hb'.
    apply elem_of_range in Hl. apply frame_optp.
    eapply frame_weaken; [|by eapply fillk_many_frame].
    intros ? ? ? [= -> -> ->]; lia.
Qed.

(** Every cell of the two tables outside [written_optp] and
    [written_opt] is as the allocation left it. *)
Lemma get_hopt_table_writes T :
  get_hopt_table = Ok T →
  frame_on optp (written_optp lmax) s0 T ∧ frame_on opt (written_opt lmax) s0 T.
Proof.
  unfold HOpt.get_hopt_table. intros H.
  destruct (negb _); [done|]. inv_ok.
  assert (frame (written_optp lmax) s0 a) as H1.
  { eapply foldM_frame; [|done]. intros k t t' _ Hb.
    eapply frame_weaken; [|by eapply init_level_writes].
    unfold written_optp. simpl. intros k' l' m' [-> [->|[-> ?]]]; auto. }
  assert (frame (written_optp lmax) a a0) as H2.
  { eapply frame_weaken; [|by eapply fill_level0_writes].
    unfold written_optp. simpl. intros k' l' m' (-> & ? & ?). auto. }
  split.
  - eapply frame_on_trans; [apply frame_optp, H1|].
    eapply frame_on_trans; [apply frame_optp, H2|].
    eapply foldM_frame_on; [|done]. intros k t t' Hk Hb.
    apply elem_of_range in Hk.
    eapply frame_on_weaken; [|by eapply fill_level_writes_optp].
    unfold written_optp. simpl. intros k' l' m' (-> & ? & ?).
    destruct (decide (l' = 1)) as [->|]; [|right; right; lia].
    right. left. split; [done|]. intros [=]. lia.
  - eapply frame_on_trans.
    { eapply frame_on_weaken; [|apply frame_opt, H1]. by left. }
    eapply frame_on_trans.
    { eapply frame_on_weaken; [|apply frame_opt, H2]. by left. }
    eapply foldM_frame_on; [|done]. intros k t t' Hk Hb.
    apply elem_of_range in Hk. apply frame_opt.
    eapply frame_weaken; [|by eapply fill_level_frame].
    unfold written_opt, written_optp. simpl. intros k' l' m' (-> & ? & ?).
    destruct (decide (m' = 0)) as [->|]; [right; lia|]. left.
    destruct (decide (l' = 1)) as [->|]; [|right; right; lia].
    right. left. split; [done|]. intros [=]. lia.
Qed.

End cells.

(** X3: a cell of the returned tables that lines 67-94 never assign
    still holds the [float("inf")] of the allocation: in [optp] the cell
    [(0, 1, 0)], the cells with [m = 0] of the rows [l ≥ 2] and the
    cells of the row [lmax] when [lmax ≥ 2]; in [opt] the same cells, but
    for the cells [(k, l, 0)] with [k ≥ 1] and [2 ≤ l < lmax], which
    line 90 assigns. *)
Theorem get_hopt_table_unwritten lmax cvect wvect rvect cbwd cfwd T k c l m :
  get_hopt_table lmax cvect wvect rvect cbwd cfwd = Ok T →
  cvect !! k = Some c → l ≤ lmax → m ≤ c →
  (¬ written_optp lmax k l m → tget (optp T) k l m = Ok infinity)
  ∧ (¬ written_opt lmax k l m → tget (opt T) k l m = Ok infinity).
Proof.
  intros H Hc Hl Hm.
  apply get_hopt_table_writes in H as [Hp Ho]. split; intros Hw.
  - rewrite (Hp k l m Hw). simpl. by eapply tget_new_table.
  - rewrite (Ho k l m Hw). simpl. by eapply tget_new_table.
Qed.

(** The cell [(0, 2, 0)]: no slot at level 0. *)
Lemma get_hopt_table_unwritten_witness :
  ∃ T, get_hopt_table 4 [2; 1] [1; 0]%float [0; 0]%float 2 1 = Ok T
       ∧ tget (optp T) 0 2 0 = Ok infinity
       ∧ tget (opt T) 0 2 0 = Ok infinity.
Proof.
  assert (∃ T, get_hopt_table 4 [2; 1] [1; 0]%float [0; 0]%float 2 1 = Ok T)
    as [T HT] by (eexists; vm_compute; reflexivity).
  exists T. split; [exact HT|].
  destruct (get_hopt_table_unwritten 4 [2; 1] [1; 0]%float [0; 0]%float 2 1 T 0 2 2 0)
    as [Hp Ho]; [exact HT|reflexivity|lia|lia|].
  split; [apply Hp|apply Ho]; unfold written_opt, written_optp; lia.
Defined.

(** *** Row 0 *)

Section row0.
Variables (lmax : nat) (cvect : list nat) (wvect rvect : list float).
Variables (cbwd cfwd : float).

Lemma init_l0_sets k m s s' :
  init_l0 cbwd k m s = Ok s' →
  tget (optp s') k 0 m = Ok cbwd ∧ tget (opt s') k 0 m = Ok cbwd.
Proof.
  unfold init_l0. intros H. inv_ok. simpl. split; by eapply tget_tset_eq.
Qed.

Lemma cells_frame Q k l m v v' s s' :
  frame Q s s' → ¬ Q k l m →
  tget (optp s) k l m = Ok v ∧ tget (opt s) k l m = Ok v' →
  tget (optp s') k l m = Ok v ∧ tget (opt s') k l m = Ok v'.
Proof. intros Hf HQ H. by destruct (Hf k l m HQ) as [-> ->]. Qed.

Lemma init_level_row0 k c m s s' :
  cvect !! k = Some c → m ≤ c →
  init_level cvect wvect rvect cbwd cfwd k s = Ok s' →
  tget (optp s') k 0 m = Ok cbwd ∧ tget (opt s') k 0 m = Ok cbwd.
Proof.
  unfold init_level. intros Hc Hm H. inv_ok.
  apply getitem_Ok in Ha. rewrite Hc in Ha. injection Ha as <-.
  eapply (foldM_preserves
            (λ s, tget (optp s) k 0 m = Ok cbwd ∧ tget (opt s) k 0 m = Ok cbwd));
    [|done|].
  - intros m' t t' _ Hb. eapply cells_frame; [by eapply init_l1_frame|].
    by intros [=].
  - eapply (foldM_range_establishes
              (λ s, tget (optp s) k 0 m = Ok cbwd ∧ tget (opt s) k 0 m = Ok cbwd));
      [| | |done].
    + instantiate (1 := m). lia.
    + intros t t'. apply init_l0_sets.
    + intros m' t t' Hm' Hb. eapply cells_frame; [by eapply init_l0_frame|].
      intros [=]. lia.
Qed.
End row0.

Lemma table_row0 lmax cvect wvect rvect cbwd cfwd T k c m :
  get_hopt_table lmax cvect wvect rvect cbwd cfwd = Ok T →
  cvect !! k = Some c → m ≤ c →
  tget (optp T) k 0 m = Ok cbwd ∧ tget (opt T) k 0 m = Ok cbwd.
Proof.
  intros H Hc Hm.
  apply get_hopt_table_frame in H as (s1 & Hinit & Hfill).
  eapply cells_frame; [done|simpl; lia|].
  eapply (foldM_range_establishes
            (λ s, tget (optp s) k 0 m = Ok cbwd ∧ tget (opt s) k 0 m = Ok cbwd));
    [| | |done].
  - instantiate (1 := k). apply lookup_lt_Some in Hc. lia.
  - intros t t'. by eapply init_level_row0.
  - intros k' t t' Hk' Hb.
    eapply cells_frame; [by eapply init_level_frame|]. simpl. lia.
Qed.

(** X4: in the returned tables every cell of the row [l = 0] holds
    [cbwd], in [optp] and in [opt], at every level and for every number
    of slots: no later loop writes over lines 70-71. *)
Theorem get_hopt_table_length0 lmax cvect wvect rvect cbwd cfwd T k c m :
  get_hopt_table lmax cvect wvect rvect cbwd cfwd = Ok T →
  cvect !! k = Some c → m ≤ c →
  tget (optp T) k 0 m = Ok cbwd ∧ tget (opt T) k 0 m = Ok cbwd.
Proof. apply table_row0. Qed.

Lemma get_hopt_table_length0_witness :
  ∃ T, get_hopt_table 4 [2; 1] [1; 0]%float [0; 0]%float 2 1 = Ok T
       ∧ tget (optp T) 1 0 1 = Ok 2%float ∧ tget (opt T) 1 0 1 = Ok 2%float.
Proof.
  eexists. split; [vm_compute; reflexivity|].
  apply (get_hopt_table_length0 4 [2; 1] [1; 0]%float [0; 0]%float 2 1 _ 1 1 1);
    [vm_compute; reflexivity|reflexivity|lia].
Defined.

(** *** One slot at level 0 *)

Section one_slot.
Variables (lmax : nat) (cvect : list nat) (wvect rvect : list float).
Variables (cbwd cfwd : float).

Local Abbreviation one_slot_cell := (one_slot_cell wvect rvect cbwd cfwd).

Lemma one_slot_cell_frame Q l s s' :
  frame Q s s' → ¬ Q 0 l 1 → one_slot_cell l s → one_slot_cell l s'.
Proof.
  intros Hf HQ (w0 & r0 & Hw & Hr & Hp & Ho).
  destruct (Hf 0 l 1 HQ) as [Hp' Ho'].
  exists w0, r0. by rewrite Hp', Ho'.
Qed.

Lemma fill0_one_sets l s s' :
  fill0_one wvect rvect cbwd cfwd l s = Ok s' → one_slot_cell l s'.
Proof.
  unfold fill0_one. intros H. inv_ok. apply getitem_Ok in Ha, Ha1.
  erewrite tget_tset_eq in Ha2 by done. injection Ha2 as <-.
  exists a1, a. split_and!; [done..| |]; simpl; by eapply tget_tset_eq.
Qed.

Lemma fill_level0_one_slot l s s' :
  2 ≤ l < lmax →
  fill_level0 lmax cvect wvect rvect cbwd cfwd s = Ok s' → one_slot_cell l s'.
Proof.
  unfold fill_level0. intros Hl H. inv_ok.
  eapply (foldM_preserves (one_slot_cell l)); [|done|].
  - intros m t t' Hm Hb. simpl in Hb. apply elem_of_range in Hm.
    eapply (foldM_preserves (one_slot_cell l)); [|exact Hb].
    intros l' u u' _ Hb'.
    eapply one_slot_cell_frame; [by eapply fill0_many_frame|].
    intros [=]. lia.
  - eapply (foldM_range_establishes (one_slot_cell l)); [| | |done].
    + instantiate (1 := l). lia.
    + intros t t'. apply fill0_one_sets.
    + intros l' t t' Hl' Hb.
      eapply one_slot_cell_frame; [by eapply fill0_one_frame|].
      intros [=]. lia.
Qed.
End one_slot.

(** X5: for [2 ≤ l < lmax] the cell [(0, l, 1)] of the returned tables
    holds the closed form of lines 80-81, in the float arithmetic and the
    order of the code: [optp[0][l][1] = (l+1)*cbwd + l*(l+1)/2*cfwd +
    l*rvect[0]] and [opt[0][l][1] = wvect[0] + optp[0][l][1]]. *)
Theorem get_hopt_table_one_slot lmax cvect wvect rvect cbwd cfwd T l :
  get_hopt_table lmax cvect wvect rvect cbwd cfwd = Ok T →
  2 ≤ l < lmax →
  one_slot_cell wvect rvect cbwd cfwd l T.
Proof.
  unfold get_hopt_table. intros H Hl.
  destruct (negb _); [done|]. inv_ok.
  eapply (foldM_preserves (one_slot_cell _ _ _ _ l)); [|done|].
  - intros k t t' Hk Hb. apply elem_of_range in Hk.
    eapply one_slot_cell_frame; [by eapply fill_level_frame|]. simpl. lia.
  - by eapply fill_level0_one_slot.
Qed.

Lemma get_hopt_table_one_slot_witness :
  ∃ T, get_hopt_table 4 [2; 1] [1; 0]%float [0; 0]%float 2 1 = Ok T
       ∧ one_slot_cell [1; 0]%float [0; 0]%float 2 1 3 T.
Proof.
  eexists. split; [vm_compute; reflexivity|].
  apply (get_hopt_table_one_slot 4 [2; 1] [1; 0]%float [0; 0]%float 2 1 _ 3);
    [vm_compute; reflexivity|lia].
Defined.

(** *** The recurrences *)

Lemma list_mem_frame Q rvect cfwd s s' k l m :
  frame Q s s' →
  (∀ j, 1 ≤ j < l → ¬ Q k (l - j) (m - 1) ∧ ¬ Q k (j - 1) m) →
  list_mem rvect cfwd s' k l m = list_mem rvect cfwd s k l m.
Proof.
  intros Hf HQ. unfold list_mem. apply mapM_ext_in.
  intros j Hj%elem_of_range. destruct (HQ j) as [H1 H2]; [lia|].
  destruct (Hf _ _ _ H1) as [_ ->]. by destruct (Hf _ _ _ H2) as [-> _].
Qed.

Section level0.
Variables (lmax : nat) (cvect : list nat) (wvect rvect : list float).
Variables (cbwd cfwd : float).

Local Abbreviation level0_cell := (level0_cell wvect rvect cfwd).

Lemma level0_cell_frame Q l m s s' :
  frame Q s s' →
  (∀ j, 1 ≤ j < l → ¬ Q 0 (l - j) (m - 1) ∧ ¬ Q 0 (j - 1) m) →
  ¬ Q 0 l 1 → ¬ Q 0 l m →
  level0_cell l m s → level0_cell l m s'.
Proof.
  intros Hf Hjs H1 Hm (js & one & v & w0 & Hlm & Hone & Hv & Hw & Hp & Ho).
  destruct (Hf 0 l 1 H1) as [Hone' _]. destruct (Hf 0 l m Hm) as [Hp' Ho'].
  exists js, one, v, w0.
  rewrite (list_mem_frame Q _ _ s s') by done.
  by rewrite Hone', Hp', Ho'.
Qed.

Lemma fill0_many_sets m l s s' :
  2 ≤ m →
  fill0_many wvect rvect cfwd m l s = Ok s' → level0_cell l m s'.
Proof.
  intros Hm H. pose proof (fill0_many_frame _ _ _ _ _ _ _ H) as Hf.
  unfold fill0_many in H. inv_ok. apply getitem_Ok in Ha3.
  erewrite tget_tset_eq in Ha4 by done. injection Ha4 as <-.
  exists a, a0, a1, a3.
  rewrite (list_mem_frame _ _ _ _ _ _ _ _ Hf)
    by (intros j Hj; split; intros [=]; lia).
  destruct (Hf 0 l 1) as [-> _]; [intros [=]; lia|].
  split_and!; [done..| |]; simpl; by eapply tget_tset_eq.
Qed.

Lemma fill_level0_sets l m c s s' :
  cvect !! 0 = Some c → 2 ≤ m ≤ c → 2 ≤ l < lmax →
  fill_level0 lmax cvect wvect rvect cbwd cfwd s = Ok s' → level0_cell l m s'.
Proof.
  unfold fill_level0. intros Hc Hm Hl H. inv_ok.
  apply getitem_Ok in Ha. rewrite Hc in Ha. injection Ha as <-.
  eapply (foldM_range_establishes (level0_cell l m)); [| | |done].
  - instantiate (1 := m). lia.
  - intros t t' Hb. simpl in Hb.
    eapply (foldM_range_establishes (level0_cell l m)); [| | |exact Hb].
    + instantiate (1 := l). lia.
    + intros u u'. apply fill0_many_sets. lia.
    + intros l' u u' Hl' Hb'.
      eapply level0_cell_frame; [by eapply fill0_many_frame|..].
      * intros j Hj. split; intros [=]; lia.
      * intros [=]; lia.
      * intros [=]; lia.
  - intros m' t t' Hm' Hb. simpl in Hb.
    eapply (foldM_preserves (level0_cell l m)); [|exact Hb].
    intros l' u u' _ Hb'.
    eapply level0_cell_frame; [by eapply fill0_many_frame|..].
    + intros j Hj. split; intros [=]; lia.
    + intros [=]; lia.
    + intros [=]; lia.
Qed.
End level0.

(** X6: for [2 ≤ l < lmax] and [2 ≤ m ≤ cvect[0]] the cell [(0, l, m)]
    of the returned tables satisfies the recurrence of lines 84-85 read
    on the returned tables themselves: [optp[0][l][m]] is the minimum of
    the values [j*cfwd + opt[0][l-j][m-1] + rvect[0] + optp[0][j-1][m]]
    for [1 ≤ j < l] and of [optp[0][l][1]], and [opt[0][l][m] = wvect[0]
    + optp[0][l][m]]: no cell the recurrence reads changes after it is
    read. *)
Theorem get_hopt_table_level0 lmax cvect wvect rvect cbwd cfwd T c l m :
  get_hopt_table lmax cvect wvect rvect cbwd cfwd = Ok T →
  cvect !! 0 = Some c → 2 ≤ m ≤ c → 2 ≤ l < lmax →
  level0_cell wvect rvect cfwd l m T.
Proof.
  unfold get_hopt_table. intros H Hc Hm Hl.
  destruct (negb _); [done|]. inv_ok.
  eapply (foldM_preserves (level0_cell _ _ _ l m)); [|done|].
  - intros k t t' Hk Hb. apply elem_of_range in Hk.
    eapply level0_cell_frame; [by eapply fill_level_frame|..]; simpl.
    + intros j Hj. lia.
    + lia.
    + lia.
  - by eapply fill_level0_sets.
Qed.

Lemma get_hopt_table_level0_witness :
  ∃ T, get_hopt_table 4 [2; 1] [1; 0]%float [0; 0]%float 2 1 = Ok T
       ∧ level0_cell [1; 0]%float [0; 0]%float 1 3 2 T.
Proof.
  eexists. split; [vm_compute; reflexivity|].
  apply (get_hopt_table_level0 4 [2; 1] [1; 0]%float [0; 0]%float 2 1 _ 2 3 2);
    [vm_compute; reflexivity|reflexivity|lia|lia].
Defined.

Section levelk.
Variables (lmax : nat) (cvect : list nat) (wvect rvect : list float).
Variables (cbwd cfwd : float).

Local Abbreviation levelk_cell := (levelk_cell cvect wvect rvect cfwd).
Local Abbreviation noslot_cell := (noslot_cell cvect).

Lemma noslot_cell_frame Q k l s s' :
  frame_on opt Q s s' → (∀ c, ¬ Q (k - 1) l c) → ¬ Q k l 0 →
  noslot_cell k l s → noslot_cell k l s'.
Proof.
  intros Hf Hb H0 (c & v & Hc & Hv & Ho).
  exists c, v. by rewrite (Hf _ _ _ (Hb c)), (Hf _ _ _ H0).
Qed.

Lemma fillk_noslot_sets k l s s' :
  1 ≤ k → fillk_noslot cvect k l s = Ok s' → noslot_cell k l s'.
Proof.
  unfold fillk_noslot. intros Hk H. inv_ok. apply getitem_Ok in Ha.
  exists a, a0. simpl. split_and!; [done| |by eapply tget_tset_eq].
  erewrite tget_tset_ne; [done..|]. intros [=]. lia.
Qed.

Lemma levelk_cell_frame Q k l m s s' :
  frame Q s s' →
  (∀ c, ¬ Q (k - 1) l c) →
  (∀ j, 1 ≤ j < l → ¬ Q k (l - j) (m - 1) ∧ ¬ Q k (j - 1) m) →
  ¬ Q k l m →
  levelk_cell k l m s → levelk_cell k l m s'.
Proof.
  intros Hf Hb Hjs Hm (c & below & js & v & wk & Hc & Hbelow & Hlm & Hv & Hw
                       & Hp & Ho).
  destruct (Hf (k - 1) l c (Hb c)) as [_ Hbelow'].
  destruct (Hf k l m Hm) as [Hp' Ho'].
  exists c, below, js, v, wk.
  rewrite (list_mem_frame Q _ _ s s') by done.
  by rewrite Hbelow', Hp', Ho'.
Qed.

Lemma fillk_many_sets_cell k m l s s' :
  1 ≤ k → 1 ≤ m →
  fillk_many cvect wvect rvect cfwd k m l s = Ok s' → levelk_cell k l m s'.
Proof.
  intros Hk Hm H. pose proof (fillk_many_frame _ _ _ _ _ _ _ _ _ H) as Hf.
  unfold fillk_many in H. inv_ok. same_ok.
  apply getitem_Ok in Ha, Ha6.
  erewrite tget_tset_eq in Ha7 by done. injection Ha7 as <-.
  exists a, a0, a1, a2, a6.
  rewrite (list_mem_frame _ _ _ _ _ _ _ _ Hf)
    by (intros j Hj; split; intros [=]; lia).
  destruct (Hf (k - 1) l a) as [_ ->]; [intros [=]; lia|].
  split_and!; [done..| |]; simpl; by eapply tget_tset_eq.
Qed.

Lemma fill_level_sets_cell k l m c s s' :
  1 ≤ k → cvect !! k = Some c → 1 ≤ m ≤ c → 1 ≤ l < lmax →
  fill_level lmax cvect wvect rvect cfwd k s = Ok s' → levelk_cell k l m s'.
Proof.
  unfold fill_level. intros Hk Hc Hm Hl H. inv_ok.
  apply getitem_Ok in Ha. rewrite Hc in Ha. injection Ha as <-.
  eapply (foldM_range_establishes (levelk_cell k l m)); [| | |done].
  - instantiate (1 := m). lia.
  - intros t t' Hb. simpl in Hb.
    eapply (foldM_range_establishes (levelk_cell k l m)); [| | |exact Hb].
    + instantiate (1 := l). lia.
    + intros u u'. apply fillk_many_sets_cell; lia.
    + intros l' u u' Hl' Hb'.
      eapply levelk_cell_frame; [by eapply fillk_many_frame|..].
      * intros c' [=]; lia.
      * intros j Hj. split; intros [=]; lia.
      * intros [=]; lia.
  - intros m' t t' Hm' Hb. simpl in Hb.
    eapply (foldM_preserves (levelk_cell k l m)); [|exact Hb].
    intros l' u u' _ Hb'.
    eapply levelk_cell_frame; [by eapply fillk_many_frame|..].
    + intros c' [=]; lia.
    + intros j Hj. split; intros [=]; lia.
    + intros [=]; lia.
Qed.

Lemma fill_level_sets_noslot k l s s' :
  1 ≤ k → 2 ≤ l < lmax →
  fill_level lmax cvect wvect rvect cfwd k s = Ok s' → noslot_cell k l s'.
Proof.
  unfold fill_level. intros Hk Hl H. inv_ok.
  eapply (foldM_preserves (noslot_cell k l)); [|done|].
  - intros m t t' Hm Hb. simpl in Hb. apply elem_of_range in Hm.
    eapply (foldM_preserves (noslot_cell k l)); [|exact Hb].
    intros l' u u' _ Hb'.
    eapply noslot_cell_frame;
      [by eapply frame_opt, fillk_many_frame|..].
    + intros c' [=]; lia.
    + intros [=]; lia.
  - eapply (foldM_range_establishes (noslot_cell k l)); [| | |done].
    + instantiate (1 := l). lia.
    + intros t t'. by apply fillk_noslot_sets.
    + intros l' t t' Hl' Hb.
      eapply noslot_cell_frame;
        [by eapply frame_opt, fillk_noslot_frame|..].
      * intros c' [=]; lia.
      * intros [=]; lia.
Qed.
End levelk.

Lemma table_levelk lmax cvect wvect rvect cbwd cfwd T k c l m :
  get_hopt_table lmax cvect wvect rvect cbwd cfwd = Ok T →
  1 ≤ k → cvect !! k = Some c → 1 ≤ m ≤ c → 1 ≤ l < lmax →
  levelk_cell cvect wvect rvect cfwd k l m T.
Proof.
  unfold get_hopt_table. intros H Hk Hc Hm Hl.
  destruct (negb _); [done|]. inv_ok.
  eapply (foldM_range_establishes (levelk_cell _ _ _ _ k l m)); [| | |done].
  - instantiate (1 := k). apply lookup_lt_Some in Hc. lia.
  - intros t t'. by eapply fill_level_sets_cell.
  - intros k' t t' Hk' Hb.
    eapply levelk_cell_frame; [by eapply fill_level_frame|..]; simpl.
    + intros c'. lia.
    + intros j Hj. lia.
    + lia.
Qed.

(** X7: for a level [k ≥ 1], [1 ≤ l < lmax] and [1 ≤ m ≤ cvect[k]] the
    cell [(k, l, m)] of the returned tables satisfies the recurrence of
    lines 93-94 read on the returned tables themselves: [optp[k][l][m]]
    is the minimum of [opt[k-1][l][cvect[k-1]]] and of the values
    [j*cfwd + opt[k][l-j][m-1] + rvect[k] + optp[k][j-1][m]] for
    [1 ≤ j < l], and [opt[k][l][m] = min(opt[k-1][l][cvect[k-1]],
    wvect[k] + optp[k][l][m])]. *)
Theorem get_hopt_table_levelk lmax cvect wvect rvect cbwd cfwd T k c l m :
  get_hopt_table lmax cvect wvect rvect cbwd cfwd = Ok T →
  1 ≤ k → cvect !! k = Some c → 1 ≤ m ≤ c → 1 ≤ l < lmax →
  levelk_cell cvect wvect rvect cfwd k l m T.
Proof. apply table_levelk. Qed.

Lemma get_hopt_table_levelk_witness :
  ∃ T, get_hopt_table 4 [2; 1] [1; 0]%float [0; 0]%float 2 1 = Ok T
       ∧ levelk_cell [2; 1] [1; 0]%float [0; 0]%float 1 1 3 1 T.
Proof.
  eexists. split; [vm_compute; reflexivity|].
  apply (get_hopt_table_levelk 4 [2; 1] [1; 0]%float [0; 0]%float 2 1 _ 1 1 3 1);
    [vm_compute; reflexivity|lia|reflexivity|lia|lia].
Defined.

Lemma table_noslot lmax cvect wvect rvect cbwd cfwd T k l :
  get_hopt_table lmax cvect wvect rvect cbwd cfwd = Ok T →
  1 ≤ k < length cvect → 2 ≤ l < lmax →
  noslot_cell cvect k l T.
Proof.
  unfold get_hopt_table. intros H Hk Hl.
  destruct (negb _); [done|]. inv_ok.
  eapply (foldM_range_establishes (noslot_cell _ k l)); [| | |done].
  - instantiate (1 := k). lia.
  - intros t t'. apply fill_level_sets_noslot; lia.
  - intros k' t t' Hk' Hb.
    eapply noslot_cell_frame; [by eapply frame_opt, fill_level_frame|..]; simpl.
    + intros c'. lia.
    + lia.
Qed.

(** X8: a level without a slot costs what the full level below costs:
    for [1 ≤ k < len(cvect)] and [2 ≤ l < lmax] the returned tables have
    [opt[k][l][0] = opt[k-1][l][cvect[k-1]]] (line 90). *)
Theorem get_hopt_table_noslot lmax cvect wvect rvect cbwd cfwd T k l :
  get_hopt_table lmax cvect wvect rvect cbwd cfwd = Ok T →
  1 ≤ k < length cvect → 2 ≤ l < lmax →
  noslot_cell cvect k l T.
Proof. apply table_noslot. Qed.

Lemma get_hopt_table_noslot_witness :
  ∃ T, get_hopt_table 4 [2; 1] [1; 0]%float [0; 0]%float 2 1 = Ok T ∧ noslot_cell [2; 1] 1 3 T.
Proof.
  eexists. split; [vm_compute; reflexivity|].
  apply (get_hopt_table_noslot 4 [2; 1] [1; 0]%float [0; 0]%float 2 1 _ 1 3);
    [vm_compute; reflexivity|simpl; lia|lia].
Defined.

(** X9: one more level of memory never costs more: for a level
    [k ≥ 1], a length [l < lmax] and any number [m ≤ cvect[k]] of slots,
    but for the base cell [l = 1], [m = 0], the comparison
    [opt[k-1][l][cvect[k-1]] < opt[k][l][m]] is false in the returned
    tables. *)
Theorem get_hopt_table_level_monotone lmax cvect wvect rvect cbwd cfwd T k c l m :
  get_hopt_table lmax cvect wvect rvect cbwd cfwd = Ok T →
  1 ≤ k → cvect !! k = Some c → m ≤ c → l < lmax →
  ¬ (l = 1 ∧ m = 0) →
  ∃ c' below v,
    cvect !! (k - 1) = Some c'
    ∧ tget (opt T) (k - 1) l c' = Ok below
    ∧ tget (opt T) k l m = Ok v
    ∧ (below <? v)%float = false.
Proof.
  intros H Hk Hc Hm Hl Hcase.
  destruct (decide (l = 0)) as [->|Hl0].
  { assert (is_Some (cvect !! (k - 1))) as [c' Hc'].
    { apply lookup_lt_is_Some. apply lookup_lt_Some in Hc. lia. }
    destruct (table_row0 _ _ _ _ _ _ _ (k - 1) c' c' H) as [_ H1];
      [done..|].
    destruct (table_row0 _ _ _ _ _ _ _ k c m H) as [_ H2];
      [done..|].
    exists c', cbwd, cbwd. split_and!; [done..|]. apply float_ltb_irrefl. }
  destruct (decide (m = 0)) as [->|Hm0].
  - destruct (table_noslot _ _ _ _ _ _ _ k l H) as (c' & v & ? & ? & ?).
    { apply lookup_lt_Some in Hc. lia. }
    { lia. }
    exists c', v, v. split_and!; [done..|]. apply float_ltb_irrefl.
  - destruct (table_levelk _ _ _ _ _ _ _ k c l m H)
      as (c' & below & js & v & wk & ? & ? & ? & ? & ? & ? & ?); [lia|done|lia..|].
    exists c', below, (min2 below (wk + v)%float).
    split_and!; [done..|]. apply min2_le.
Qed.

Lemma get_hopt_table_level_monotone_witness :
  ∃ T below v,
    get_hopt_table 4 [2; 1] [1; 0]%float [0; 0]%float 2 1 = Ok T
    ∧ tget (opt T) 0 3 2 = Ok below
    ∧ tget (opt T) 1 3 1 = Ok v
    ∧ (below <? v)%float = false.
Proof.
  assert (∃ T, get_hopt_table 4 [2; 1] [1; 0]%float [0; 0]%float 2 1 = Ok T)
    as [T HT] by (eexists; vm_compute; reflexivity).
  destruct (get_hopt_table_level_monotone 4 [2; 1] [1; 0]%float [0; 0]%float 2 1 T 1 1 3 1)
    as (c' & below & v & Hc' & Hbelow & Hv & Hle);
    [exact HT|lia|reflexivity|lia|lia|lia|].
  injection Hc' as <-. by exists T, below, v.
Defined.

(** *** The cells of the tables and the inputs that fit *)

Lemma tget_tset_is_ok (t t' : table) k l m v k' l' m' :
  tset t k l m v = Ok t' →
  is_ok (tget t' k' l' m') ↔ is_ok (tget t k' l' m').
Proof.
  intros H. destruct (decide ((k', l', m') = (k, l, m))) as [[= -> -> ->]|Hne].
  - rewrite (tget_tset_eq _ _ _ _ _ _ H).
    apply tset_Ok in H as (p & r & Hp & Hr & Hm & _).
    apply lookup_lt_is_Some in Hm as [x Hx].
    unfold tget, getitem. rewrite Hp. simpl. rewrite Hr. simpl. rewrite Hx.
    split; intros _; by eexists.
  - by rewrite (tget_tset_ne _ _ _ _ _ _ _ _ _ H Hne).
Qed.

Lemma tset_is_ok (t : table) k l m v :
  is_ok (tget t k l m) → is_ok (tset t k l m v).
Proof.
  unfold tget, tset. intros [x H]. inv_ok. rewrite Ha. simpl.
  rewrite Ha0. simpl. rewrite H. simpl. by eexists.
Qed.

Lemma tset_is_ok_inv (t t' : table) k l m v :
  tset t k l m v = Ok t' → is_ok (tget t k l m).
Proof.
  unfold tget, tset. intros H. inv_ok. rewrite Ha. simpl.
  rewrite Ha0. simpl. rewrite Ha1. by eexists.
Qed.

Lemma tget_only_index_error t k l m : only_index_error (tget t k l m).
Proof.
  unfold tget.
  repeat (apply only_index_error_bind;
          [apply getitem_only_index_error|intros ? _]).
  apply getitem_only_index_error.
Qed.

Lemma tset_only_index_error t k l m v : only_index_error (tset t k l m v).
Proof.
  unfold tset.
  repeat (apply only_index_error_bind;
          [apply getitem_only_index_error|intros ? _]).
  done.
Qed.

(** A cell that does not exist raises [IndexError]. *)
Lemma tget_not_ok t k l m : ¬ is_ok (tget t k l m) → tget t k l m = Raise IndexError.
Proof.
  intros H. pose proof (tget_only_index_error t k l m) as He.
  pose proof (tget_terminates t k l m) as Ht.
  destruct (tget t k l m) as [v|e|]; [|by rewrite (He e)|done].
  destruct H. by eexists.
Qed.

Section covers.
Variables (lmax : nat) (cvect : list nat) (wvect rvect : list float).
Variables (cbwd cfwd : float).

Local Abbreviation in_table := (in_table lmax cvect).
Local Abbreviation covers := (covers lmax cvect).

Lemma covers_new_table :
  covers (Tables (new_table lmax cvect) (new_table lmax cvect)).
Proof.
  assert (∀ k l m, is_ok (tget (new_table lmax cvect) k l m) ↔ in_table k l m)
    as H; [|by split; apply H].
  intros k l m. split.
  - intros [v H]. unfold tget, new_table in H. inv_ok.
    apply getitem_Ok in Ha, Ha0, H.
    rewrite list_lookup_fmap in Ha.
    destruct (cvect !! k) as [c|] eqn:Hc; [|done]. injection Ha as <-.
    apply lookup_replicate in Ha0 as [-> Hl].
    apply lookup_replicate in H as [_ Hm].
    exists c. split_and!; [done|lia..].
  - intros (c & Hc & Hl & Hm). exists infinity. by eapply tget_new_table.
Qed.

Lemma covers_set_both s p o k l m v k' l' m' v' :
  covers s → tset (optp s) k l m v = Ok p → tset (opt s) k' l' m' v' = Ok o →
  covers (Tables p o).
Proof.
  intros Hc Hp Ho k0 l0 m0. simpl.
  rewrite (tget_tset_is_ok _ _ _ _ _ _ _ _ _ Hp).
  rewrite (tget_tset_is_ok _ _ _ _ _ _ _ _ _ Ho). apply Hc.
Qed.

Lemma covers_optp s k l m v :
  covers s → in_table k l m → is_ok (tset (optp s) k l m v).
Proof. intros Hc Hin. apply tset_is_ok. by apply Hc. Qed.

Lemma covers_opt s k l m v :
  covers s → in_table k l m → is_ok (tset (opt s) k l m v).
Proof. intros Hc Hin. apply tset_is_ok. by apply Hc. Qed.

Lemma covers_written_optp s k l m v p :
  covers s → tset (optp s) k l m v = Ok p → in_table k l m.
Proof.
  intros Hc H. apply tset_is_ok_inv in H.
  destruct (Hc k l m) as [Hp _]. by apply Hp.
Qed.

(** Every loop body keeps the cells of the tables. *)
Lemma init_l0_covers k m s s' :
  init_l0 cbwd k m s = Ok s' → covers s → covers s'.
Proof. unfold init_l0. intros H Hc. inv_ok. by eapply covers_set_both. Qed.

Lemma init_l1_covers k m s s' :
  init_l1 wvect rvect cbwd cfwd k m s = Ok s' → covers s → covers s'.
Proof. unfold init_l1. intros H Hc. inv_ok; [done|]. by eapply covers_set_both. Qed.

Lemma fill0_one_covers l s s' :
  fill0_one wvect rvect cbwd cfwd l s = Ok s' → covers s → covers s'.
Proof. unfold fill0_one. intros H Hc. inv_ok. by eapply covers_set_both. Qed.

Lemma fill0_many_covers m l s s' :
  fill0_many wvect rvect cfwd m l s = Ok s' → covers s → covers s'.
Proof. unfold fill0_many. intros H Hc. inv_ok. by eapply covers_set_both. Qed.

Lemma fillk_noslot_covers k l s s' :
  fillk_noslot cvect k l s = Ok s' → covers s → covers s'.
Proof.
  unfold fillk_noslot. intros H Hc. inv_ok. intros k0 l0 m0. simpl.
  rewrite (tget_tset_is_ok _ _ _ _ _ _ _ _ _ Ha1). apply Hc.
Qed.

Lemma fillk_many_covers k m l s s' :
  fillk_many cvect wvect rvect cfwd k m l s = Ok s' → covers s → covers s'.
Proof. unfold fillk_many. intros H Hc. inv_ok. by eapply covers_set_both. Qed.

Lemma init_level_covers k s s' :
  init_level cvect wvect rvect cbwd cfwd k s = Ok s' → covers s → covers s'.
Proof.
  unfold init_level. intros H Hc. inv_ok.
  eapply (foldM_preserves covers); [|done|].
  { intros m t t' _ Hb. by eapply init_l1_covers. }
  eapply (foldM_preserves covers); [|done..].
  intros m t t' _ Hb. by eapply init_l0_covers.
Qed.

Lemma fill_level0_covers s s' :
  fill_level0 lmax cvect wvect rvect cbwd cfwd s = Ok s' → covers s → covers s'.
Proof.
  unfold fill_level0. intros H Hc. inv_ok.
  eapply (foldM_preserves covers); [|done|].
  { intros m t t' _ Hb. simpl in Hb.
    eapply (foldM_preserves covers); [|exact Hb].
    intros l u u' _ Hb'. by eapply fill0_many_covers. }
  eapply (foldM_preserves covers); [|done..].
  intros l t t' _ Hb. by eapply fill0_one_covers.
Qed.

Lemma fill_level_covers k s s' :
  fill_level lmax cvect wvect rvect cfwd k s = Ok s' → covers s → covers s'.
Proof.
  unfold fill_level. intros H Hc. inv_ok.
  eapply (foldM_preserves covers); [|done|].
  { intros m t t' _ Hb. simpl in Hb.
    eapply (foldM_preserves covers); [|exact Hb].
    intros l u u' _ Hb'. by eapply fillk_many_covers. }
  eapply (foldM_preserves covers); [|done..].
  intros l t t' _ Hb. by eapply fillk_noslot_covers.
Qed.

Lemma get_hopt_table_covers T :
  get_hopt_table lmax cvect wvect rvect cbwd cfwd = Ok T → covers T.
Proof.
  unfold get_hopt_table. intros H. destruct (negb _); [done|]. inv_ok.
  eapply (foldM_preserves covers); [|done|].
  { intros k t t' _ Hb. by eapply fill_level_covers. }
  eapply fill_level0_covers; [done|].
  eapply (foldM_preserves covers); [|done|apply covers_new_table].
  intros k t t' _ Hb. by eapply init_level_covers.
Qed.
End covers.

(** X10: the returned tables have the cells of the allocation of lines
    64-65, no more and no less: [optp[k][l][m]] and [opt[k][l][m]] are
    floats for [k < len(cvect)], [l ≤ lmax] and [m ≤ cvect[k]], and
    reading any other cell [k, l, m ≥ 0] raises [IndexError]. *)
Theorem get_hopt_table_shape lmax cvect wvect rvect cbwd cfwd T k l m :
  get_hopt_table lmax cvect wvect rvect cbwd cfwd = Ok T →
  (in_table lmax cvect k l m →
     is_ok (tget (optp T) k l m) ∧ is_ok (tget (opt T) k l m))
  ∧ (¬ in_table lmax cvect k l m →
     tget (optp T) k l m = Raise IndexError
     ∧ tget (opt T) k l m = Raise IndexError).
Proof.
  intros H. apply get_hopt_table_covers in H. destruct (H k l m) as [Hp Ho].
  split; intros Hin.
  - split; [by apply Hp|by apply Ho].
  - split; apply tget_not_ok; [by rewrite Hp|by rewrite Ho].
Qed.

(** The cell [(1, 4, 1)] is one of the tables, the cell [(1, 4, 2)] is
    not: level 1 has one slot. *)
Lemma get_hopt_table_shape_witness :
  ∃ T, get_hopt_table 4 [2; 1] [1; 0]%float [0; 0]%float 2 1 = Ok T
       ∧ is_ok (tget (opt T) 1 4 1)
       ∧ tget (opt T) 1 4 2 = Raise IndexError.
Proof.
  eexists. split; [vm_compute; reflexivity|]. split.
  - apply (get_hopt_table_shape 4 [2; 1] [1; 0]%float [0; 0]%float 2 1 _ 1 4 1);
      [vm_compute; reflexivity|]. exists 1. split_and!; [reflexivity|lia..].
  - apply (get_hopt_table_shape 4 [2; 1] [1; 0]%float [0; 0]%float 2 1 _ 1 4 2);
      [vm_compute; reflexivity|]. intros (c & [= <-] & _ & ?). lia.
Defined.

Lemma mapM_is_ok {X Y} (f : X → result Y) xs :
  (∀ x, x ∈ xs → is_ok (f x)) → is_ok (mapM f xs).
Proof.
  induction xs as [|x xs IH]; intros H; simpl; [by eexists|].
  destruct (H x) as [y ->]; [by left|]. simpl.
  destruct IH as [ys ->]; [intros z Hz; apply H; by right|]. simpl.
  by eexists.
Qed.

Lemma foldM_is_ok {X S} (P : S → Prop) (body : X → S → result S)
    (xs : list X) (s : S) :
  (∀ x t, x ∈ xs → P t → is_ok (body x t)) →
  (∀ x t t', x ∈ xs → body x t = Ok t' → P t → P t') →
  P s → ∃ s', foldM body xs s = Ok s' ∧ P s'.
Proof.
  intros Hok Hkeep. apply foldM_ok. intros x t Hx Ht.
  destruct (Hok x t Hx Ht) as [t' Ht']. exists t'. split; [done|].
  by eapply Hkeep.
Qed.

Lemma getitem_is_ok {A} (l : list A) i : i < length l → is_ok (getitem l i).
Proof.
  intros [x Hx]%lookup_lt_is_Some. exists x. by apply getitem_Ok.
Qed.

Lemma py_min_is_ok xs : xs ≠ [] → is_ok (py_min xs).
Proof. destruct xs; [done|]. intros _. by eexists. Qed.

Section fits.
Variables (lmax : nat) (cvect : list nat) (wvect rvect : list float).
Variables (cbwd cfwd : float).
Hypothesis wvect_length : length wvect = length cvect.
Hypothesis rvect_length : length rvect = length cvect.

Local Abbreviation in_table := (in_table lmax cvect).
Local Abbreviation covers := (covers lmax cvect).

(** Takes the next step of a chain of table operations, given that it
    succeeds. *)
Local Ltac next H :=
  let x := fresh "x" in
  let Hx := fresh "Hx" in
  destruct H as [x Hx]; rewrite Hx; simpl.

Lemma covers_tget_optp s k l m : covers s → in_table k l m → is_ok (tget (optp s) k l m).
Proof. intros Hc Hin. destruct (Hc k l m) as [Hp _]. by apply Hp. Qed.

Lemma covers_tget_opt s k l m : covers s → in_table k l m → is_ok (tget (opt s) k l m).
Proof. intros Hc Hin. destruct (Hc k l m) as [_ Ho]. by apply Ho. Qed.

Lemma in_table_intro k l m c :
  cvect !! k = Some c → l ≤ lmax → m ≤ c → in_table k l m.
Proof. intros. by exists c. Qed.

Lemma init_l0_is_ok k m s :
  covers s → in_table k 0 m → is_ok (init_l0 cbwd k m s).
Proof.
  intros Hc Hin. unfold init_l0.
  next (covers_opt _ _ s k 0 m cbwd Hc Hin).
  next (covers_optp _ _ s k 0 m cbwd Hc Hin). by eexists.
Qed.

Lemma init_l1_is_ok k m s :
  covers s → (k, m) = (0, 0) ∨ in_table k 1 m → 0 < length cvect →
  is_ok (init_l1 wvect rvect cbwd cfwd k m s).
Proof.
  intros Hc Hin HK. unfold init_l1.
  destruct ((m =? 0) && (k =? 0)) eqn:E; [by eexists|].
  destruct Hin as [[= -> ->]|Hin]; [done|].
  next (getitem_is_ok rvect 0 ltac:(lia)).
  destruct (covers_optp _ _ s k 1 m (cfwd + 2 * cbwd + x)%float Hc Hin)
    as [p Hp]. rewrite Hp. simpl.
  next (getitem_is_ok wvect 0 ltac:(lia)).
  rewrite (tget_tset_eq _ _ _ _ _ _ Hp). simpl.
  next (covers_opt _ _ s k 1 m (x0 + (cfwd + 2 * cbwd + x))%float Hc Hin).
  by eexists.
Qed.

Lemma init_level_is_ok k c s :
  covers s → cvect !! k = Some c → 1 ≤ lmax ∨ (k = 0 ∧ c = 0) →
  is_ok (init_level cvect wvect rvect cbwd cfwd k s).
Proof.
  intros Hc Hk Hl. unfold init_level.
  apply getitem_Ok in Hk as Hk'. rewrite Hk'. simpl.
  apply lookup_lt_Some in Hk as HK.
  destruct (foldM_is_ok covers (init_l0 cbwd k) (range 0 (c + 1)) s)
    as (s1 & -> & Hc1); [| |done|].
  { intros m t Hm%elem_of_range Ht. apply init_l0_is_ok; [done|].
    exists c. split_and!; [done|lia..]. }
  { intros m t t' _. apply init_l0_covers. }
  simpl.
  destruct (foldM_is_ok covers (init_l1 wvect rvect cbwd cfwd k)
              (range 0 (c + 1)) s1) as (s2 & -> & Hc2); [| |done|by eexists].
  { intros m t Hm%elem_of_range Ht. apply init_l1_is_ok; [done| |lia].
    destruct Hl as [Hl|[-> ->]].
    - right. exists c. split_and!; [done|lia..].
    - left. f_equal. lia. }
  { intros m t t' _. apply init_l1_covers. }
Qed.

Lemma list_mem_is_ok s k l m c :
  covers s → cvect !! k = Some c → l ≤ lmax → 1 ≤ m ≤ c →
  is_ok (list_mem rvect cfwd s k l m).
Proof.
  intros Hc Hk Hl Hm. unfold list_mem. apply mapM_is_ok.
  intros j Hj%elem_of_range.
  next (covers_tget_opt s k (l - j) (m - 1) Hc
          (in_table_intro k (l - j) (m - 1) c ltac:(eassumption) ltac:(lia) ltac:(lia))).
  apply lookup_lt_Some in Hk as HK.
  next (getitem_is_ok rvect k ltac:(lia)).
  next (covers_tget_optp s k (j - 1) m Hc
          (in_table_intro k (j - 1) m c ltac:(eassumption) ltac:(lia) ltac:(lia))).
  by eexists.
Qed.

Lemma fill0_one_is_ok l c s :
  covers s → cvect !! 0 = Some c → 1 ≤ c → l ≤ lmax →
  is_ok (fill0_one wvect rvect cbwd cfwd l s).
Proof.
  intros Hc H0 Hc1 Hl. unfold fill0_one.
  apply lookup_lt_Some in H0 as HK.
  assert (in_table 0 l 1) as Hin by (exists c; split_and!; [done|lia..]).
  next (getitem_is_ok rvect 0 ltac:(lia)).
  match goal with
  | |- is_ok (tset (optp s) 0 l 1 ?v ≫= _) =>
      destruct (covers_optp _ _ s 0 l 1 v Hc Hin) as [p Hp]; rewrite Hp; simpl
  end.
  next (getitem_is_ok wvect 0 ltac:(lia)).
  rewrite (tget_tset_eq _ _ _ _ _ _ Hp). simpl.
  match goal with
  | |- is_ok (tset (opt s) 0 l 1 ?v ≫= _) =>
      destruct (covers_opt _ _ s 0 l 1 v Hc Hin) as [o Ho]; rewrite Ho; simpl
  end.
  by eexists.
Qed.

Lemma fill0_many_is_ok m l c s :
  covers s → cvect !! 0 = Some c → 2 ≤ m ≤ c → l ≤ lmax →
  is_ok (fill0_many wvect rvect cfwd m l s).
Proof.
  intros Hc H0 Hm Hl. unfold fill0_many.
  apply lookup_lt_Some in H0 as HK.
  assert (in_table 0 l m) as Hin by (exists c; split_and!; [done|lia..]).
  next (list_mem_is_ok s 0 l m c Hc H0 Hl ltac:(lia)).
  next (covers_tget_optp s 0 l 1 Hc
          (in_table_intro 0 l 1 c ltac:(eassumption) ltac:(lia) ltac:(lia))).
  next (py_min_is_ok (x ++ [x0]) ltac:(by destruct x)).
  destruct (covers_optp _ _ s 0 l m x1 Hc Hin) as [p Hp]. rewrite Hp. simpl.
  next (getitem_is_ok wvect 0 ltac:(lia)).
  rewrite (tget_tset_eq _ _ _ _ _ _ Hp). simpl.
  next (covers_opt _ _ s 0 l m (x2 + x1)%float Hc Hin).
  by eexists.
Qed.

Lemma fill_level0_is_ok c s :
  covers s → cvect !! 0 = Some c → (3 ≤ lmax → 1 ≤ c) →
  is_ok (fill_level0 lmax cvect wvect rvect cbwd cfwd s).
Proof.
  intros Hc H0 Hc1. unfold fill_level0.
  apply getitem_Ok in H0 as H0'. rewrite H0'. simpl.
  destruct (foldM_is_ok covers (fill0_one wvect rvect cbwd cfwd)
              (range 2 lmax) s) as (s1 & -> & Hs1); [| |done|].
  { intros l t Hl%elem_of_range Ht.
    eapply fill0_one_is_ok; [done..|lia|lia]. }
  { intros l t t' _. apply fill0_one_covers. }
  simpl.
  destruct (foldM_is_ok covers
              (λ m, foldM (fill0_many wvect rvect cfwd m) (range 2 lmax))
              (range 2 (c + 1)) s1) as (s2 & -> & Hs2); [| |done|by eexists].
  { intros m t Hm%elem_of_range Ht.
    destruct (foldM_is_ok covers (fill0_many wvect rvect cfwd m)
                (range 2 lmax) t) as (t' & Ht' & _); [| |done|by eexists].
    - intros l u Hl%elem_of_range Hu.
      eapply fill0_many_is_ok; [done..|lia|lia].
    - intros l u u' _. apply fill0_many_covers. }
  { intros m t t' _ Hb. simpl in Hb.
    apply (foldM_preserves covers _ _ _ _ (λ l u u' _, fill0_many_covers
             lmax cvect wvect rvect cfwd m l u u') Hb). }
Qed.

Lemma fillk_noslot_is_ok k l c c' s :
  covers s → 1 ≤ k → cvect !! k = Some c → cvect !! (k - 1) = Some c' →
  l ≤ lmax → is_ok (fillk_noslot cvect k l s).
Proof.
  intros Hc Hk Hck Hck' Hl. unfold fillk_noslot.
  apply getitem_Ok in Hck'  as Hg. rewrite Hg. simpl.
  next (covers_tget_opt s (k - 1) l c' Hc
          (in_table_intro (k - 1) l c' c' ltac:(eassumption) ltac:(lia) ltac:(lia))).
  next (covers_opt _ _ s k l 0 x Hc
          (in_table_intro k l 0 c ltac:(eassumption) ltac:(lia) ltac:(lia))).
  by eexists.
Qed.

Lemma fillk_many_is_ok k m l c c' s :
  covers s → 1 ≤ k → cvect !! k = Some c → cvect !! (k - 1) = Some c' →
  1 ≤ m ≤ c → l ≤ lmax →
  is_ok (fillk_many cvect wvect rvect cfwd k m l s).
Proof.
  intros Hc Hk Hck Hck' Hm Hl. unfold fillk_many.
  apply lookup_lt_Some in Hck as HK.
  assert (in_table k l m) as Hin by (exists c; split_and!; [done|lia..]).
  apply getitem_Ok in Hck' as Hg. rewrite Hg. simpl.
  destruct (covers_tget_opt s (k - 1) l c' Hc
              (in_table_intro (k - 1) l c' c' ltac:(eassumption) ltac:(lia) ltac:(lia)))
    as [below Hbelow].
  rewrite Hbelow. simpl.
  next (list_mem_is_ok s k l m c Hc Hck Hl Hm).
  destruct (covers_optp _ _ s k l m (fold_left min2 x below) Hc Hin)
    as [p Hp]. rewrite Hp. simpl.
  next (getitem_is_ok wvect k ltac:(lia)).
  rewrite (tget_tset_eq _ _ _ _ _ _ Hp). simpl.
  next (covers_opt _ _ s k l m
          (min2 below (x0 + fold_left min2 x below)%float) Hc Hin).
  by eexists.
Qed.

Lemma fill_level_is_ok k s :
  covers s → 1 ≤ k < length cvect →
  is_ok (fill_level lmax cvect wvect rvect cfwd k s).
Proof.
  intros Hc Hk. unfold fill_level.
  destruct (lookup_lt_is_Some_2 cvect k) as [c Hck]; [lia|].
  destruct (lookup_lt_is_Some_2 cvect (k - 1)) as [c' Hck']; [lia|].
  apply getitem_Ok in Hck as Hg. rewrite Hg. simpl.
  destruct (foldM_is_ok covers (fillk_noslot cvect k) (range 2 lmax) s)
    as (s1 & -> & Hs1); [| |done|].
  { intros l t Hl%elem_of_range Ht.
    eapply fillk_noslot_is_ok; [done|lia|done..|lia]. }
  { intros l t t' _. apply fillk_noslot_covers. }
  simpl.
  destruct (foldM_is_ok covers
              (λ m, foldM (fillk_many cvect wvect rvect cfwd k m) (range 1 lmax))
              (range 1 (c + 1)) s1) as (s2 & -> & Hs2); [| |done|by eexists].
  { intros m t Hm%elem_of_range Ht.
    destruct (foldM_is_ok covers (fillk_many cvect wvect rvect cfwd k m)
                (range 1 lmax) t) as (t' & Ht' & _); [| |done|by eexists].
    - intros l u Hl%elem_of_range Hu.
      eapply fillk_many_is_ok; [done|lia|done..|lia|lia].
    - intros l u u' _. apply fillk_many_covers. }
  { intros m t t' _ Hb. simpl in Hb.
    apply (foldM_preserves covers _ _ _ _ (λ l u u' _, fillk_many_covers
             lmax cvect wvect rvect cfwd k m l u u') Hb). }
Qed.

Lemma get_hopt_table_is_ok :
  inputs_fit lmax cvect →
  is_ok (get_hopt_table lmax cvect wvect rvect cbwd cfwd).
Proof.
  intros (c0 & H0 & Hl0 & Hl3). unfold get_hopt_table.
  rewrite bool_decide_true by (split; congruence). simpl.
  destruct (foldM_is_ok covers (init_level cvect wvect rvect cbwd cfwd)
              (range 0 (length cvect))
              (Tables (new_table lmax cvect) (new_table lmax cvect)))
    as (s1 & -> & Hs1); [| |apply covers_new_table|].
  { intros k t Hk%elem_of_range Ht.
    destruct (lookup_lt_is_Some_2 cvect k) as [c Hc]; [lia|].
    eapply init_level_is_ok; [done..|].
    destruct (decide (lmax = 0)) as [Hz|]; [|left; lia].
    right. rewrite (Hl0 Hz) in Hc. destruct k as [|[|k]]; [|done..].
    by injection Hc as <-. }
  { intros k t t' _. apply init_level_covers. }
  simpl.
  destruct (fill_level0_is_ok c0 s1 Hs1 H0 Hl3) as [s2 Hs2].
  rewrite Hs2. simpl.
  apply fill_level0_covers in Hs2; [|done].
  destruct (foldM_is_ok covers (fill_level lmax cvect wvect rvect cfwd)
              (range 1 (length cvect)) s2) as (s3 & -> & _);
    [| |done|by eexists].
  { intros k t Hk%elem_of_range Ht. apply fill_level_is_ok; [done|lia]. }
  { intros k t t' _. apply fill_level_covers. }
Qed.
End fits.

Lemma only_index_error_Ok {A} (a : A) : only_index_error (Ok a).
Proof. by intros e. Qed.

Lemma py_min_only_index_error xs : xs ≠ [] → only_index_error (py_min xs).
Proof. destruct xs; [done|]. intros _. apply only_index_error_Ok. Qed.

(** Proves that a chain of table operations raises nothing but
    [IndexError]. *)
Ltac only_index_error_tac :=
  repeat first
    [ apply only_index_error_Ok
    | apply getitem_only_index_error
    | apply tget_only_index_error
    | apply tset_only_index_error
    | apply mapM_only_index_error; intros
    | apply foldM_only_index_error; intros
    | match goal with
      | |- only_index_error (py_min (?js ++ _)) =>
          apply py_min_only_index_error; by destruct js
      | |- only_index_error (py_min (_ :: _)) =>
          by apply py_min_only_index_error
      | |- only_index_error (if ?b then _ else _) => destruct b
      end
    | apply only_index_error_bind; [|intros ? _] ].

(** Past the assertion of line 63, [get_hopt_table] raises nothing but
    [IndexError]. *)
Lemma get_hopt_table_only_index_error lmax cvect wvect rvect cbwd cfwd :
  length wvect = length rvect ∧ length rvect = length cvect →
  only_index_error (get_hopt_table lmax cvect wvect rvect cbwd cfwd).
Proof.
  intros Hlen. unfold get_hopt_table. rewrite bool_decide_true by done.
  simpl.
  unfold init_level, init_l0, init_l1, fill_level0, fill0_one, fill0_many,
    fill_level, fillk_noslot, fillk_many, list_mem.
  only_index_error_tac.
Qed.

Section unfit.
Variables (lmax : nat) (cvect : list nat) (wvect rvect : list float).
Variables (cbwd cfwd : float).

Local Abbreviation covers := (covers lmax cvect).

(** Row 1 is written for every [(k, m)] but [(0, 0)]. *)
Lemma init_writes_row1 s s' k c m :
  foldM (init_level cvect wvect rvect cbwd cfwd) (range 0 (length cvect)) s
    = Ok s' →
  covers s → cvect !! k = Some c → m ≤ c → (k, m) ≠ (0, 0) → 1 ≤ lmax.
Proof.
  intros H Hs Hk Hm Hkm.
  destruct (foldM_ran covers _ _ k _ _
              (λ y t t' _, init_level_covers lmax cvect wvect rvect cbwd cfwd
                             y t t') H) as (t & t' & Ht & Hb); [|done|].
  { apply elem_of_range. apply lookup_lt_Some in Hk. lia. }
  unfold init_level in Hb. inv_ok.
  apply getitem_Ok in Ha. rewrite Hk in Ha. injection Ha as <-.
  assert (covers a0) as Ha0c.
  { eapply (foldM_preserves covers); [|done..].
    intros y u u' _. apply init_l0_covers. }
  destruct (foldM_ran covers _ _ m _ _
              (λ y u u' _, init_l1_covers lmax cvect wvect rvect cbwd cfwd
                             k y u u') Hb) as (u & u' & Hu & Hb');
    [apply elem_of_range; lia|done|].
  unfold init_l1 in Hb'.
  destruct ((m =? 0) && (k =? 0)) eqn:E.
  { apply andb_true_iff in E as [->%Nat.eqb_eq ->%Nat.eqb_eq]. done. }
  inv_ok.
  match goal with
  | H : tset (optp u) k 1 m _ = Ok _ |- _ =>
      apply (covers_written_optp _ _ _ _ _ _ _ _ Hu) in H as (? & _ & ? & _)
  end.
  done.
Qed.

Lemma get_hopt_table_fits T :
  get_hopt_table lmax cvect wvect rvect cbwd cfwd = Ok T →
  inputs_fit lmax cvect.
Proof.
  unfold get_hopt_table. intros H. destruct (negb _); [done|]. inv_ok.
  assert (covers a) as Hac.
  { eapply (foldM_preserves covers); [|done|apply covers_new_table].
    intros y u u' _. apply init_level_covers. }
  unfold fill_level0 in Ha0. inv_ok. apply getitem_Ok in Ha1.
  exists a1. split; [done|]. split.
  - intros Hz.
    assert (∀ k c m, cvect !! k = Some c → m ≤ c → (k, m) = (0, 0)) as Hno.
    { intros k c m Hk Hm. destruct (decide ((k, m) = (0, 0))); [done|].
      pose proof (init_writes_row1 _ _ k c m Ha (covers_new_table _ _) Hk Hm
                    ltac:(done)).
      lia. }
    clear -Hno Ha1.
    destruct cvect as [|c0 [|c1 rest]]; [done| |].
    + injection Ha1 as <-. specialize (Hno 0 c0 c0 eq_refl (le_n _)).
      by injection Hno as ->.
    + specialize (Hno 1 c1 0 eq_refl (Nat.le_0_l _)). done.
  - intros Hl.
    destruct (foldM_ran covers _ _ 2 _ _
                (λ y t t' _, fill0_one_covers lmax cvect wvect rvect cbwd cfwd
                               y t t') Ha2) as (t & t' & Ht & Hb);
      [apply elem_of_range; lia|done|].
    unfold fill0_one in Hb. inv_ok.
    match goal with
    | H : tset (optp t) 0 2 1 _ = Ok _ |- _ =>
        apply (covers_written_optp _ _ _ _ _ _ _ _ Ht) in H
          as (c & Hc & _ & ?)
    end.
    rewrite Ha1 in Hc. by injection Hc as <-.
Qed.
End unfit.

(** X11: the outcome of [get_hopt_table] for every input: it raises
    [AssertionError] when [wvect], [rvect] and [cvect] differ in length;
    when they agree it returns tables exactly for the inputs that fit
    ([cvect] is not empty, [cvect = (0,)] if [lmax = 0], and
    [cvect[0] ≥ 1] if [lmax ≥ 3]) and raises [IndexError] for all
    others. *)
Theorem get_hopt_table_outcome lmax cvect wvect rvect cbwd cfwd :
  (¬ (length wvect = length rvect ∧ length rvect = length cvect) →
   get_hopt_table lmax cvect wvect rvect cbwd cfwd = Raise AssertionError)
  ∧ (length wvect = length rvect ∧ length rvect = length cvect →
     (inputs_fit lmax cvect →
      is_ok (get_hopt_table lmax cvect wvect rvect cbwd cfwd))
     ∧ (¬ inputs_fit lmax cvect →
        get_hopt_table lmax cvect wvect rvect cbwd cfwd = Raise IndexError)).
Proof.
  split.
  - intros Hlen. unfold get_hopt_table. by rewrite bool_decide_false.
  - intros [Hwr Hrc]. split.
    + apply get_hopt_table_is_ok; congruence.
    + intros Hfit.
      pose proof (get_hopt_table_terminates lmax cvect wvect rvect cbwd cfwd)
        as Hterm.
      destruct (get_hopt_table lmax cvect wvect rvect cbwd cfwd)
        as [T|e|] eqn:E; [|..|done].
      * destruct Hfit. by eapply get_hopt_table_fits.
      * by rewrite (get_hopt_table_only_index_error _ _ _ _ _ _
                      (conj Hwr Hrc) e E).
Qed.

(** Three steps with a slot at level 0, three steps without one, and
    costs for one level only. *)
Lemma get_hopt_table_outcome_witness :
  is_ok (get_hopt_table 3 [1; 0] [1; 0]%float [0; 0]%float 2 1)
  ∧ get_hopt_table 3 [0; 1] [1; 0]%float [0; 0]%float 2 1 = Raise IndexError
  ∧ get_hopt_table 3 [1; 0] [1]%float [0]%float 2 1 = Raise AssertionError.
Proof.
  split_and!.
  - apply (get_hopt_table_outcome 3 [1; 0] [1; 0]%float [0; 0]%float 2 1);
      [done|]. exists 1. split_and!; [reflexivity|lia..].
  - apply (get_hopt_table_outcome 3 [0; 1] [1; 0]%float [0; 0]%float 2 1);
      [done|]. intros (c0 & [= <-] & _ & Hc). lia.
  - apply (get_hopt_table_outcome 3 [1; 0] [1]%float [0]%float 2 1).
    simpl. lia.
Defined.

End HOptCellsFacts.

(** ** The shape of the sequences *)

(** Adding to [+∞] gives [+∞] or a NaN, and neither is below a float. *)
Lemma float_add_infinity_ltb x y : (x + infinity <? y)%float = false.
Proof.
  rewrite ltb_spec, add_spec.
  change (Prim2SF infinity) with (S754_infinity false).
  destruct (Prim2SF x) as [[]|[]| |[] m e], (Prim2SF y) as [[]|[]| |[] m' e'];
    reflexivity.
Qed.

Lemma fmap_rev {A B} (f : A → B) (l : list A) : f <$> rev l = rev (f <$> l).
Proof.
  induction l as [|x l IH]; [done|]. simpl. by rewrite fmap_app, IH.
Qed.

Module SequenceShapeFacts.
Import Op HOpt HOptFacts HRevolveSequence HRevolveSequenceFacts SequenceShape.
Import HOptCells HOptCellsFacts.

Lemma backward_steps_app s s' :
  backward_steps (s ++ s') = backward_steps s ++ backward_steps s'.
Proof. apply omap_app. Qed.

Lemma backward_steps_cons o s :
  backward_steps (o :: s)
  = (if decide (type o = Op.Backward) then [index o] else [])
    ++ backward_steps s.
Proof. unfold backward_steps. simpl. by destruct (decide _). Qed.

Lemma backward_steps_shift δ s :
  backward_steps (shift δ s) = shift_step δ <$> backward_steps s.
Proof.
  induction s as [|[t ix] s IH]; [done|].
  change (shift δ (Operation_ t ix :: s))
    with (shift_op δ (Operation_ t ix) :: shift δ s).
  rewrite !backward_steps_cons, fmap_app, IH.
  destruct ix, t; reflexivity.
Qed.

Lemma countdown_split l j :
  1 ≤ j ≤ l →
  (shift_step (Z.of_nat j) <$> countdown (l - j)) ++ countdown (j - 1)
  = countdown l.
Proof.
  intros Hj. unfold countdown.
  replace (S l) with (j + S (l - j)) by lia.
  replace (S (j - 1)) with j by lia.
  generalize (S (l - j)). intros n.
  rewrite seq_app, rev_app_distr, fmap_app. f_equal.
  replace (0 + j) with (j + 0) by lia.
  rewrite <- fmap_add_seq, <- fmap_rev, <- !list_fmap_compose.
  apply list_fmap_ext. intros i x _. simpl. f_equal. lia.
Qed.

Lemma countdown_0 : countdown 0 = [Step 0].
Proof. reflexivity. Qed.

Lemma backward_steps_scan l ixs :
  backward_steps (flat_map (scan_body l) ixs)
  = (λ i, Step (Z.of_nat (i + 1))) <$> ixs.
Proof.
  induction ixs as [|i ixs IH]; [done|]. simpl.
  rewrite backward_steps_app, IH. f_equal.
  unfold scan_body. by case_bool_decide.
Qed.

Lemma last_rev_seq l : 1 ≤ l → List.last (rev (seq 0 l)) 0 = 0.
Proof.
  intros Hl. destruct l as [|l]; [lia|]. simpl. apply last_last.
Qed.

Lemma countdown_scan l :
  ((λ i, Step (Z.of_nat (i + 1))) <$> rev (seq 0 l)) ++ [Step 0] = countdown l.
Proof.
  unfold countdown. rewrite <- cons_seq.
  change (rev (0 :: seq 1 l)) with (rev (seq 1 l) ++ [0]).
  rewrite fmap_app. f_equal.
  rewrite <- fmap_S_seq, <- fmap_rev, <- list_fmap_compose.
  apply list_fmap_ext. intros i x _. simpl. f_equal. lia.
Qed.

Section shape.
Variables (cvect : list nat) (wvect rvect : list float) (cbwd cfwd : float).

Local Abbreviation aux := (hrevolve_aux cvect wvect rvect cbwd cfwd).
Local Abbreviation recurse := (hrevolve_recurse cvect wvect rvect cbwd cfwd).
Local Abbreviation hrevolve := (hrevolve cvect wvect rvect cbwd cfwd).

(** The position of the split is inside the chain. *)
Lemma argmin_list_mem t K l cmem lm :
  2 ≤ l → list_mem rvect cfwd t K l cmem = Ok lm → 1 ≤ argmin lm ≤ l - 1.
Proof.
  intros Hl Hlm. apply list_mem_length in Hlm.
  assert (1 ≤ argmin lm ≤ length lm); [|lia].
  apply argmin_bounds. intros ->. simpl in Hlm. lia.
Qed.

Lemma builders_backward_steps fuel :
  (∀ l K cmem tabs s,
     aux fuel l K cmem tabs = Ok s → backward_steps s = countdown l)
  ∧ (∀ l K cmem tabs s,
       recurse fuel l K cmem tabs = Ok s → backward_steps s = countdown l).
Proof.
  induction fuel as [|fuel [IHa IHr]]; [done|].
  assert (Hsplit : ∀ l K cmem t lm s1 s2 (o o' : Operation),
            2 ≤ l → list_mem rvect cfwd t K l cmem = Ok lm →
            type o ≠ Op.Backward → type o' ≠ Op.Backward →
            recurse fuel (l - argmin lm) K (cmem - 1) (Some t) = Ok s1 →
            aux fuel (argmin lm - 1) K cmem (Some t) = Ok s2 →
            backward_steps ([o] ++ shift (Z.of_nat (argmin lm)) s1 ++ [o'] ++ s2)
            = countdown l).
  { intros l K cmem t lm s1 s2 o o' Hl Hlm Ho Ho' Hs1 Hs2.
    pose proof (argmin_list_mem _ _ _ _ _ Hl Hlm) as Hj.
    rewrite !backward_steps_app, backward_steps_shift.
    rewrite (IHr _ _ _ _ _ Hs1), (IHa _ _ _ _ _ Hs2).
    rewrite !backward_steps_cons.
    destruct (decide (type o = Op.Backward)); [done|].
    destruct (decide (type o' = Op.Backward)); [done|].
    simpl. apply countdown_split. lia. }
  split; intros l K cmem tabs s H; simpl in H.
  - apply bind_Ok in H as (t & _ & H).
    destruct (cmem =? 0); [done|].
    destruct (l =? 0) eqn:El0.
    { apply Nat.eqb_eq in El0 as ->. by injection H as <-. }
    destruct (l =? 1) eqn:El1.
    { apply Nat.eqb_eq in El1 as ->. inv_ok.
      by destruct (_ <? _)%float. }
    apply Nat.eqb_neq in El0, El1.
    destruct ((K =? 0) && (cmem =? 1)).
    { injection H as <-.
      rewrite backward_steps_app, backward_steps_scan.
      rewrite last_rev_seq by lia.
      change (backward_steps _) with [Step 0] at 1.
      apply countdown_scan. }
    destruct (K =? 0).
    + inv_ok. by eapply Hsplit; [lia|..].
    + inv_ok.
      * by eapply Hsplit; [lia|..].
      * by eapply IHr.
  - apply bind_Ok in H as (t & _ & H).
    destruct (l =? 0) eqn:El0.
    { apply Nat.eqb_eq in El0 as ->. by injection H as <-. }
    destruct ((K =? 0) && (cmem =? 0)); [done|].
    destruct (l =? 1) eqn:El1.
    { apply Nat.eqb_eq in El1 as ->. by injection H as <-. }
    destruct (K =? 0).
    + inv_ok. rewrite backward_steps_cons. simpl. by eapply IHa.
    + inv_ok.
      * rewrite backward_steps_cons. simpl. by eapply IHa.
      * by eapply IHr.
Qed.


(** X12: in a sequence [hrevolve] returns for [l] steps the [Backward]
    operations are [Backward(l)], [Backward(l-1)], ..., [Backward(0)], in
    this order and nothing else: every step is reversed once, from the
    last to the first. *)
Theorem hrevolve_backward_steps l s :
  hrevolve l = Ok s → backward_steps s = countdown l.
Proof.
  unfold HRevolveSequence.hrevolve. intros H. inv_ok.
  by eapply (builders_backward_steps (fuel_for l (length cvect - 1))).
Qed.

(** *** Steps and levels *)

Lemma op_in_range_mono l l' K K' o :
  l ≤ l' → K ≤ K' → op_in_range l K o → op_in_range l' K' o.
Proof. destruct o as [[] []]; unfold op_in_range; simpl; lia. Qed.

Lemma op_in_range_shift l K j o :
  op_in_range l K o → op_in_range (l + j) K (shift_op (Z.of_nat j) o).
Proof. destruct o as [[] []]; unfold op_in_range; simpl; lia. Qed.

(** Checks the operations of an explicit list one by one. *)
Ltac in_range_tac :=
  repeat first
    [ apply Forall_nil_2
    | apply Forall_cons_2; [unfold op_in_range; simpl; lia|] ].

Lemma scan_body_in_range l K i :
  i < l → Forall (op_in_range l K) (scan_body l i).
Proof.
  intros Hi. unfold scan_body. apply Forall_app. split.
  - case_bool_decide; [|done]. apply Forall_singleton.
    unfold op_in_range. simpl. lia.
  - in_range_tac.
Qed.

Lemma builders_in_range fuel :
  (∀ l K cmem tabs s,
     aux fuel l K cmem tabs = Ok s → Forall (op_in_range l K) s)
  ∧ (∀ l K cmem tabs s,
       recurse fuel l K cmem tabs = Ok s → Forall (op_in_range l K) s).
Proof.
  induction fuel as [|fuel [IHa IHr]]; [done|].
  assert (Hsplit : ∀ l K cmem t lm s1 s2 (o o' : Operation),
            2 ≤ l → list_mem rvect cfwd t K l cmem = Ok lm →
            op_in_range l K o → op_in_range l K o' →
            recurse fuel (l - argmin lm) K (cmem - 1) (Some t) = Ok s1 →
            aux fuel (argmin lm - 1) K cmem (Some t) = Ok s2 →
            Forall (op_in_range l K)
              ([o] ++ shift (Z.of_nat (argmin lm)) s1 ++ [o'] ++ s2)).
  { intros l K cmem t lm s1 s2 o o' Hl Hlm Ho Ho' Hs1 Hs2.
    pose proof (argmin_list_mem _ _ _ _ _ Hl Hlm) as Hj.
    apply IHr in Hs1. apply IHa in Hs2.
    rewrite !Forall_app, !Forall_singleton. split_and!; [done| |done|].
    - unfold shift. apply Forall_fmap. eapply Forall_impl; [exact Hs1|].
      intros o1 Ho1. simpl.
      replace l with (l - argmin lm + argmin lm) at 1 by lia.
      by apply op_in_range_shift.
    - eapply Forall_impl; [exact Hs2|]. intros o2.
      apply op_in_range_mono; lia. }
  split; intros l K cmem tabs s H; simpl in H.
  - apply bind_Ok in H as (t & _ & H).
    destruct (cmem =? 0); [done|].
    destruct (l =? 0) eqn:El0.
    { apply Nat.eqb_eq in El0 as ->. injection H as <-.
      apply Forall_singleton. unfold op_in_range. simpl. lia. }
    destruct (l =? 1) eqn:El1.
    { apply Nat.eqb_eq in El1 as ->. inv_ok.
      destruct (_ <? _)%float; simpl; in_range_tac. }
    apply Nat.eqb_neq in El0, El1. assert (2 ≤ l) as Hl2 by lia.
    destruct ((K =? 0) && (cmem =? 1)).
    { injection H as <-. apply Forall_app. split.
      - apply Forall_forall. intros o Ho.
        apply list_elem_of_In, in_flat_map in Ho as (i & Hi & Ho).
        rewrite <- in_rev in Hi. apply in_seq in Hi.
        apply list_elem_of_In in Ho.
        assert (i < l) as Hil by lia.
        by eapply (proj1 (Forall_forall _ _) (scan_body_in_range l K i Hil)).
      - rewrite last_rev_seq by lia.
        in_range_tac. }
    destruct (K =? 0) eqn:EK.
    + apply Nat.eqb_eq in EK as ->.
      inv_ok. eapply Hsplit; [lia|done| | |done..].
      * pose proof (argmin_list_mem _ _ _ _ _ Hl2 Ha) as Hj.
        unfold op_in_range. simpl. lia.
      * unfold op_in_range. simpl. lia.
    + apply Nat.eqb_neq in EK. inv_ok.
      * eapply Hsplit; [lia|done| | |done..].
        -- pose proof (argmin_list_mem _ _ _ _ _ Hl2 Ha) as Hj.
           unfold op_in_range. simpl. lia.
        -- unfold op_in_range. simpl. lia.
      * eapply Forall_impl; [by eapply IHr|]. intros o.
        apply op_in_range_mono; lia.
  - apply bind_Ok in H as (t & _ & H).
    destruct (l =? 0) eqn:El0.
    { apply Nat.eqb_eq in El0 as ->. injection H as <-.
      apply Forall_singleton. unfold op_in_range. simpl. lia. }
    destruct ((K =? 0) && (cmem =? 0)); [done|].
    destruct (l =? 1) eqn:El1.
    { apply Nat.eqb_eq in El1 as ->. injection H as <-.
      in_range_tac. }
    destruct (K =? 0) eqn:EK.
    + apply Nat.eqb_eq in EK as ->.
      inv_ok. apply Forall_cons_2; [|by eapply IHa].
      unfold op_in_range. simpl. lia.
    + apply Nat.eqb_neq in EK. inv_ok.
      * apply Forall_cons_2; [|by eapply IHa].
        unfold op_in_range. simpl. lia.
      * eapply Forall_impl; [by eapply IHr|]. intros o.
        apply op_in_range_mono; lia.
Qed.

(** X13: every operation of a sequence [hrevolve] returns for [l] steps
    has an index of the shape of its kind and within the problem:
    [Backward] a step of [[0, l]], [Forward] a pair of steps
    [0 ≤ a ≤ b ≤ l], [Write], [Read] and [Discard] a level below
    [len(cvect)] and a step of [[0, l]], [Write_Forward] and
    [Discard_Forward] the level 0 and a step of [[1, l]]; the sequence
    holds no [Forwards]. *)
Theorem hrevolve_in_range l s :
  hrevolve l = Ok s → Forall (op_in_range l (length cvect - 1)) s.
Proof.
  unfold HRevolveSequence.hrevolve. intros H. inv_ok.
  by eapply (builders_in_range (fuel_for l (length cvect - 1))).
Qed.

(** *** The first operation *)

Lemma recurse_first_write fuel l K cmem tabs s :
  1 ≤ l → recurse fuel l K cmem tabs = Ok s →
  ∃ level rest, s = op2 Write level 0 :: rest ∧ level ≤ K.
Proof.
  intros Hl. revert K cmem tabs s.
  induction fuel as [|fuel IH]; intros K cmem tabs s H; [done|].
  simpl in H. apply bind_Ok in H as (t & _ & H).
  destruct (l =? 0) eqn:El0; [apply Nat.eqb_eq in El0; lia|].
  destruct ((K =? 0) && (cmem =? 0)); [done|].
  destruct (l =? 1).
  { injection H as <-. eexists 0, _. split; [reflexivity|lia]. }
  destruct (K =? 0) eqn:EK.
  - inv_ok. eexists 0, _. split; [reflexivity|lia].
  - inv_ok.
    + eexists K, _. split; [reflexivity|lia].
    + destruct (IH _ _ _ _ H) as (level & rest & -> & Hlevel).
      exists level, rest. split; [done|lia].
Qed.

(** X14: for [l ≥ 1] a sequence [hrevolve] returns starts with
    [Write(level, 0)] for a level below [len(cvect)]: the initial state
    is stored first. *)
Theorem hrevolve_first_write l s :
  1 ≤ l → hrevolve l = Ok s →
  ∃ level rest, s = op2 Write level 0 :: rest ∧ level < length cvect.
Proof.
  unfold HRevolveSequence.hrevolve. intros Hl H. inv_ok.
  apply getitem_Ok, lookup_lt_Some in Ha.
  destruct (recurse_first_write _ _ _ _ _ _ Hl H) as (level & rest & -> & ?).
  exists level, rest. split; [done|lia].
Qed.

End shape.

(** Three steps, two slots in RAM and one on disk. *)
Lemma hrevolve_backward_steps_witness :
  ∃ s, hrevolve [2; 1] [0; 0.5]%float [0; 0.5]%float 2 1 3 = Ok s
       ∧ backward_steps s = [Step 3; Step 2; Step 1; Step 0].
Proof.
  assert (∃ s, hrevolve [2; 1] [0; 0.5]%float [0; 0.5]%float 2 1 3 = Ok s)
    as [s Hs] by (eexists; vm_compute; reflexivity).
  exists s. split; [exact Hs|].
  exact (hrevolve_backward_steps [2; 1] [0; 0.5]%float [0; 0.5]%float 2 1 3 s
           Hs).
Defined.

Lemma hrevolve_in_range_witness :
  ∃ s, hrevolve [2; 1] [0; 0.5]%float [0; 0.5]%float 2 1 3 = Ok s
       ∧ Forall (op_in_range 3 1) s.
Proof.
  assert (∃ s, hrevolve [2; 1] [0; 0.5]%float [0; 0.5]%float 2 1 3 = Ok s)
    as [s Hs] by (eexists; vm_compute; reflexivity).
  exists s. split; [exact Hs|].
  exact (hrevolve_in_range [2; 1] [0; 0.5]%float [0; 0.5]%float 2 1 3 s Hs).
Defined.

Lemma hrevolve_first_write_witness :
  ∃ level rest,
    hrevolve [2; 1] [0; 0.5]%float [0; 0.5]%float 2 1 3
    = Ok (op2 Write level 0 :: rest)
    ∧ level < 2.
Proof.
  assert (∃ s, hrevolve [2; 1] [0; 0.5]%float [0; 0.5]%float 2 1 3 = Ok s)
    as [s Hs] by (eexists; vm_compute; reflexivity).
  destruct (hrevolve_first_write [2; 1] [0; 0.5]%float [0; 0.5]%float 2 1 3 s
              ltac:(lia) Hs) as (level & rest & -> & Hlevel).
  by exists level, rest.
Defined.

(** *** The error of line 151 *)

Lemma bind_not_key_error {A B} msg (m : result A) (k : A → result B) :
  no_key_error m → (∀ a, m = Ok a → k a ≠ Raise (KeyError msg)) →
  (m ≫= k) ≠ Raise (KeyError msg).
Proof.
  intros Hm Hk. destruct m as [a|e|]; simpl; [by apply Hk| |done].
  intros [= ->]. by eapply Hm.
Qed.

Lemma get_hopt_table_no_key_error lmax cvect wvect rvect cbwd cfwd :
  no_key_error (get_hopt_table lmax cvect wvect rvect cbwd cfwd).
Proof.
  intros msg H.
  destruct (decide (length wvect = length rvect ∧ length rvect = length cvect))
    as [Hlen|Hlen].
  - by apply get_hopt_table_only_index_error in H.
  - unfold get_hopt_table in H. by rewrite bool_decide_false in H.
Qed.

(** The tables [get_hopt_table] returns hold [+∞] in the cells of
    [optp] without a slot, from length 2 on, of a level [K ≥ 1]. *)
Lemma get_hopt_table_noslot_infinite lmax cvect wvect rvect cbwd cfwd T :
  get_hopt_table lmax cvect wvect rvect cbwd cfwd = Ok T → noslot_infinite T.
Proof.
  intros H K l v HK Hl Hv.
  pose proof (get_hopt_table_covers _ _ _ _ _ _ _ H K l 0) as [Hin _].
  destruct (proj1 Hin) as (c & Hc & Hlmax & _); [by eexists|].
  apply get_hopt_table_writes in H as [Hp _].
  rewrite (Hp K l 0) in Hv.
  - simpl in Hv. erewrite tget_new_table in Hv by (done || lia).
    by injection Hv as <-.
  - unfold written_optp. lia.
Qed.

Section no_cmem.
Variables (cvect : list nat) (wvect rvect : list float) (cbwd cfwd : float).

Local Abbreviation aux := (hrevolve_aux cvect wvect rvect cbwd cfwd).
Local Abbreviation recurse := (hrevolve_recurse cvect wvect rvect cbwd cfwd).
Local Abbreviation no_cmem := (Raise (KeyError no_cmem_msg) : result Sequence).

Lemma builders_no_cmem t fuel :
  noslot_infinite t →
  (∀ l K cmem, cmem ≠ 0 → aux fuel l K cmem (Some t) ≠ no_cmem)
  ∧ (∀ l K cmem, recurse fuel l K cmem (Some t) ≠ no_cmem).
Proof.
  intros Ht. induction fuel as [|fuel [IHa IHr]]; [done|].
  split.
  - intros l K cmem Hc. simpl.
    destruct (cmem =? 0) eqn:Ec; [by apply Nat.eqb_eq in Ec|].
    destruct (l =? 0); [done|]. destruct (l =? 1).
    { repeat (apply bind_not_key_error; [apply getitem_no_key_error|intros ? _]).
      done. }
    destruct ((K =? 0) && (cmem =? 1)); [done|].
    destruct (K =? 0).
    + apply bind_not_key_error; [apply list_mem_no_key_error|]. intros lm _.
      apply bind_not_key_error; [apply py_min_no_key_error|]. intros mn _.
      apply bind_not_key_error; [apply tget_no_key_error|]. intros one _.
      destruct (mn <? one)%float; [|done].
      destruct (recurse fuel _ 0 (cmem - 1) (Some t)) as [s1| |] eqn:E1;
        simpl; [| |done].
      2: { intros [= ->]. by eapply IHr. }
      destruct (aux fuel _ 0 cmem (Some t)) as [s2| |] eqn:E2;
        simpl; [done| |done].
      intros [= ->]. by eapply IHa.
    + apply bind_not_key_error; [apply list_mem_no_key_error|]. intros lm _.
      apply bind_not_key_error; [apply py_min_no_key_error|]. intros mn _.
      apply bind_not_key_error; [apply getitem_no_key_error|]. intros c _.
      apply bind_not_key_error; [apply tget_no_key_error|]. intros below _.
      destruct (mn <? below)%float.
      * destruct (recurse fuel _ K (cmem - 1) (Some t)) as [s1| |] eqn:E1;
          simpl; [| |done].
        2: { intros [= ->]. by eapply IHr. }
        destruct (aux fuel _ K cmem (Some t)) as [s2| |] eqn:E2;
          simpl; [done| |done].
        intros [= ->]. by eapply IHa.
      * apply bind_not_key_error; [apply getitem_no_key_error|]. intros c' _.
        apply IHr.
  - intros l K cmem. simpl.
    destruct (l =? 0) eqn:El0; [done|].
    destruct ((K =? 0) && (cmem =? 0)) eqn:E0; [done|].
    destruct (l =? 1) eqn:El1; [done|].
    apply Nat.eqb_neq in El0, El1.
    destruct (K =? 0) eqn:EK.
    + assert (cmem ≠ 0) as Hc.
      { intros ->. simpl in E0. discriminate E0. }
      destruct (aux fuel l 0 cmem (Some t)) as [s| |] eqn:E; simpl; [done| |done].
      intros [= ->]. by eapply IHa.
    + apply Nat.eqb_neq in EK.
      apply bind_not_key_error; [apply getitem_no_key_error|]. intros wK _.
      apply bind_not_key_error; [apply tget_no_key_error|]. intros p Hp.
      apply bind_not_key_error; [apply getitem_no_key_error|]. intros c _.
      apply bind_not_key_error; [apply tget_no_key_error|]. intros below _.
      destruct (wK + p <? below)%float eqn:Hlt.
      * assert (cmem ≠ 0) as Hc.
        { intros ->. apply Ht in Hp as ->; [|lia..].
          by rewrite float_add_infinity_ltb in Hlt. }
        destruct (aux fuel l K cmem (Some t)) as [s| |] eqn:E;
          simpl; [done| |done].
        intros [= ->]. by eapply IHa.
      * apply bind_not_key_error; [apply getitem_no_key_error|]. intros c' _.
        apply IHr.
Qed.

(** X15: the error of line 151 cannot happen: whatever its input,
    [hrevolve] never raises the [KeyError] with which [hrevolve_aux]
    refuses [cmem = 0]. The builders call [hrevolve_aux] with
    [cmem ≥ 1] only, since [optp[K][l][0]] is infinite for [K ≥ 1] and
    [l ≥ 2] and [hrevolve_recurse] has its own check at level 0. *)
Theorem hrevolve_never_without_slot l :
  hrevolve cvect wvect rvect cbwd cfwd l ≠ Raise (KeyError no_cmem_msg).
Proof.
  unfold hrevolve.
  apply bind_not_key_error; [apply getitem_no_key_error|]. intros c _.
  unfold fuel_for.
  replace (2 * (l + (length cvect - 1)) + 2)
    with (S (2 * (l + (length cvect - 1)) + 1)) by lia.
  rewrite recurse_tables.
  apply bind_not_key_error; [apply get_hopt_table_no_key_error|].
  intros t Ht. simpl in Ht.
  apply builders_no_cmem. by eapply get_hopt_table_noslot_infinite.
Qed.
End no_cmem.

End SequenceShapeFacts.

Module HRevolveAuxFacts.
Import Op HOpt HOptFacts HRevolveSequence HRevolveSequenceFacts SequenceShape.
Import HOptCells HOptCellsFacts SequenceShapeFacts.

Section level0.
Variables (cvect : list nat) (wvect rvect : list float) (cbwd cfwd : float).

(** X16: [hrevolve_aux] at level [K = 0] for [l ≥ 2], with the tables
    passed on. Without a slot it raises the [KeyError] of line 151. With
    one slot it returns the chain that recomputes from step 0 before every
    backward step. With [cmem ≥ 2] slots, where the cells read exist, it
    splits at the left-most arg-min [jmin] of [list_mem] when
    [min(list_mem) < optp[0][l][1]] ([Forward(0, jmin)], the shifted
    sequence of [hrevolve_recurse(l - jmin, 0, cmem - 1)], [Read(0, 0)],
    the sequence of [hrevolve_aux(jmin - 1, 0, cmem)]) and raises
    [TypeError] otherwise: the call of lines 198-199 passes [cfwd] in
    the position of [hoptp], which it also passes by name. *)
Theorem hrevolve_aux_level_0 l cmem t :
  2 ≤ l →
  (cmem = 0 →
   hrevolve_aux_tab cvect wvect rvect cbwd cfwd l 0 cmem t
   = Raise (KeyError no_cmem_msg))
  ∧ (cmem = 1 →
     hrevolve_aux_tab cvect wvect rvect cbwd cfwd l 0 cmem t
     = Ok (flat_map (scan_body l) (rev (seq 0 l))
           ++ [op2 Read 0 0; op Backward 0; op2 Discard 0 0]))
  ∧ (2 ≤ cmem →
     ∀ lm one,
       list_mem rvect cfwd t 0 l cmem = Ok lm →
       tget (optp t) 0 l 1 = Ok one →
       ∃ mn, py_min lm = Ok mn ∧ 1 ≤ argmin lm < l ∧
         hrevolve_aux_tab cvect wvect rvect cbwd cfwd l 0 cmem t =
           if (mn <? one)%float then
             s1 ← hrevolve_recurse_tab cvect wvect rvect cbwd cfwd
                    (l - argmin lm) 0 (cmem - 1) t;
             s2 ← hrevolve_aux_tab cvect wvect rvect cbwd cfwd
                    (argmin lm - 1) 0 cmem t;
             Ok ([op2 Forward 0 (argmin lm)] ++ shift (Z.of_nat (argmin lm)) s1
                 ++ [op2 Read 0 0] ++ s2)
           else Raise TypeError).
Proof.
  intros Hl. unfold hrevolve_aux_tab at 1 2 3.
  replace (2 * (l + 0) + 1) with (S (2 * (l + 0))) by lia.
  split_and!.
  - intros ->. reflexivity.
  - intros ->. simpl hrevolve_aux.
    destruct (l =? 0) eqn:E2; [apply Nat.eqb_eq in E2; lia|].
    destruct (l =? 1) eqn:E3; [apply Nat.eqb_eq in E3; lia|].
    simpl. by rewrite last_rev_seq by lia.
  - intros Hc lm one Hlm Hone.
    pose proof (argmin_list_mem _ _ _ _ _ _ _ Hl Hlm) as Hj.
    pose proof (list_mem_length _ _ _ _ _ _ _ Hlm) as Hlen.
    destruct (py_min lm) as [mn| |] eqn:Hmn;
      [|destruct lm; [simpl in Hlen; lia|done]..].
    exists mn. split; [done|]. split; [lia|].
    simpl hrevolve_aux.
    destruct (cmem =? 0) eqn:E1; [apply Nat.eqb_eq in E1; lia|].
    destruct (l =? 0) eqn:E2; [apply Nat.eqb_eq in E2; lia|].
    destruct (l =? 1) eqn:E3; [apply Nat.eqb_eq in E3; lia|].
    destruct (cmem =? 1) eqn:E4; [apply Nat.eqb_eq in E4; lia|].
    simpl. rewrite Hlm. simpl. rewrite Hmn. simpl. rewrite Hone. simpl.
    destruct (_ <? one)%float; [|done].
    rewrite recurse_enough, aux_enough by lia. done.
Qed.
End level0.

(** Two steps at level 0 with a write cost of 5: without a slot, with
    one slot, and with two slots, where no split is cheaper than the
    chain with one slot. *)
Lemma hrevolve_aux_level_0_witness :
  ∃ t, get_hopt_table 3 [2] [5]%float [0]%float 2 1 = Ok t
    ∧ hrevolve_aux_tab [2] [5]%float [0]%float 2 1 2 0 0 t
      = Raise (KeyError no_cmem_msg)
    ∧ hrevolve_aux_tab [2] [5]%float [0]%float 2 1 2 0 1 t
      = Ok [op2 Forward 0 2; op2 Write_Forward 0 2; op Backward 2;
            op2 Discard_Forward 0 2; op2 Read 0 0; op2 Forward 0 1;
            op2 Write_Forward 0 1; op Backward 1; op2 Discard_Forward 0 1;
            op2 Read 0 0; op Backward 0; op2 Discard 0 0]
    ∧ hrevolve_aux_tab [2] [5]%float [0]%float 2 1 2 0 2 t = Raise TypeError.
Proof.
  eexists. split; [vm_compute; reflexivity|].
  match goal with
  | |- hrevolve_aux_tab _ _ _ _ _ _ _ _ ?t = _ ∧ _ =>
      pose proof (hrevolve_aux_level_0 [2] [5]%float [0]%float 2 1 2 0 t
                    ltac:(lia)) as [H0 _];
      pose proof (hrevolve_aux_level_0 [2] [5]%float [0]%float 2 1 2 1 t
                    ltac:(lia)) as (_ & H1 & _);
      pose proof (hrevolve_aux_level_0 [2] [5]%float [0]%float 2 1 2 2 t
                    ltac:(lia)) as (_ & _ & H2)
  end.
  split; [exact (H0 eq_refl)|]. split; [exact (H1 eq_refl)|].
  edestruct (H2 ltac:(lia)) as (mn & Hmn & _ & ->);
    [vm_compute; reflexivity..|].
  vm_compute in Hmn. injection Hmn as <-. reflexivity.
Defined.

End HRevolveAuxFacts.

Module HRevolveInitFacts.
Import Op HOpt HOptFacts HRevolveSequence HRevolveSequenceFacts SequenceShape.
Import HOptCells HOptCellsFacts SequenceShapeFacts HRevolve.


(** X18: [HRevolveCheckpointSchedule(1, ...)] with [wvect] and [rvect]
    of two entries each always succeeds, and holds the same eight
    operations whatever the slot counts and the costs are, also without
    any slot; with other lengths it raises [AssertionError]. *)
Theorem init_one_step snapshots_in_ram snapshots_on_disk wvect rvect cbwd cfwd :
  init 1 snapshots_in_ram snapshots_on_disk wvect rvect cbwd cfwd
  = if bool_decide (length wvect = length rvect ∧ length rvect = 2)
    then Ok (Schedule (Some 1%Z) snapshots_in_ram snapshots_on_disk
               unrolled_l1 initial_state)
    else Raise AssertionError.
Proof.
  unfold init, hrevolve.
  change (getitem [snapshots_in_ram; snapshots_on_disk] _)
    with (Ok snapshots_on_disk).
  cbn [mbind result_bind].
  change (fuel_for 1 _) with (S 5).
  rewrite recurse_tables. unfold tables_or_compute.
  case_bool_decide as Hlen.
  - destruct (get_hopt_table_is_ok 1 [snapshots_in_ram; snapshots_on_disk]
                wvect rvect cbwd cfwd) as [T ->].
    + simpl. lia.
    + simpl. lia.
    + exists snapshots_in_ram. split_and!; [done|lia..].
    + reflexivity.
  - unfold get_hopt_table. by rewrite bool_decide_false.
Qed.

End HRevolveInitFacts.

Module ExampleFacts.
Import Op HOpt HRevolveSequence SequenceShape SequenceShapeFacts Example.

(** The driver on a sequence whose operations have the indices of their
    kinds and whose last [Backward] is the only [Backward(0)]: it runs
    the [Backward] steps in order and stops at [Backward(0)]. *)
Lemma drive_stops l K s steps :
  Forall (op_in_range l K) s →
  backward_steps s = (Step <$> steps) ++ [Step 0] →
  Forall (λ n, n ≠ 0%Z) steps →
  ∃ calls,
    drive s = (calls, Break)
    ∧ bwd_calls calls = (λ n, (n, n - 1)%Z) <$> (steps ++ [0%Z]).
Proof.
  revert steps. induction s as [|[t ix] s IH]; intros steps Hs Hb Hsteps.
  { by destruct steps. }
  apply Forall_cons in Hs as [Ho Hs].
  rewrite backward_steps_cons in Hb. simpl in Hb.
  destruct t, ix as [m|a b]; try done; simpl in Hb; simpl;
    try (destruct (IH steps Hs Hb Hsteps) as (calls & -> & Hcalls); by eexists).
  destruct steps as [|n steps]; simpl in Hb.
  - injection Hb as -> Hb. rewrite bool_decide_true by done. by eexists.
  - injection Hb as -> Hb. apply Forall_cons in Hsteps as [Hn Hsteps].
    rewrite bool_decide_false by done.
    destruct (IH steps Hs Hb Hsteps) as (calls & -> & Hcalls).
    exists (Bwd_advance n (n - 1) :: calls). split; [done|].
    change (bwd_calls (Bwd_advance n (n - 1) :: calls))
      with ((n, (n - 1)%Z) :: bwd_calls calls).
    by rewrite Hcalls.
Qed.

(** X19: the driver loop of [examples/test.py] on any sequence
    [hrevolve] returns for [l] steps ends at the [break] of line 88,
    not with [StopIteration] or another exception, and has then called
    [bwd.advance(i, i - 1)] for [i = l, l - 1, ..., 0], in this order. *)
Theorem drive_hrevolve cvect wvect rvect cbwd cfwd l s :
  hrevolve cvect wvect rvect cbwd cfwd l = Ok s →
  ∃ calls,
    drive s = (calls, Break)
    ∧ bwd_calls calls
      = (λ i, (Z.of_nat i, Z.of_nat i - 1)%Z) <$> rev (seq 0 (S l)).
Proof.
  intros H.
  assert (Forall (op_in_range l (length cvect - 1)) s
          ∧ backward_steps s = countdown l) as [Hrange Hsteps].
  { unfold hrevolve in H. inv_ok. split.
    - by eapply (builders_in_range _ _ _ _ _
                   (fuel_for l (length cvect - 1))).
    - by eapply (builders_backward_steps _ _ _ _ _
                   (fuel_for l (length cvect - 1))). }
  destruct (drive_stops l (length cvect - 1) s (Z.of_nat <$> rev (seq 1 l)))
    as (calls & Hd & Hc).
  - done.
  - rewrite Hsteps. unfold countdown.
    rewrite <- cons_seq.
    change (rev (0 :: seq 1 l)) with (rev (seq 1 l) ++ [0]).
    by rewrite fmap_app, <- list_fmap_compose.
  - apply Forall_fmap, Forall_forall. intros i Hi. simpl.
    apply list_elem_of_In in Hi. rewrite <- in_rev in Hi. apply in_seq in Hi. lia.
  - exists calls. split; [done|]. rewrite Hc, <- cons_seq.
    change (rev (0 :: seq 1 l)) with (rev (seq 1 l) ++ [0]).
    rewrite !fmap_app, <- list_fmap_compose. done.
Qed.

(** Three steps, two slots in RAM and one on disk. *)
Lemma drive_hrevolve_witness :
  ∃ s calls,
    hrevolve [2; 1] [0; 0.5]%float [0; 0.5]%float 2 1 3 = Ok s
    ∧ drive s = (calls, Break)
    ∧ bwd_calls calls = [(3, 2); (2, 1); (1, 0); (0, -1)]%Z.
Proof.
  assert (∃ s, hrevolve [2; 1] [0; 0.5]%float [0; 0.5]%float 2 1 3 = Ok s)
    as [s Hs] by (eexists; vm_compute; reflexivity).
  destruct (drive_hrevolve [2; 1] [0; 0.5]%float [0; 0.5]%float 2 1 3 s Hs)
    as (calls & Hd & Hc).
  by exists s, calls.
Defined.

End ExampleFacts.

(** ** The actions of the adapter *)

Module HRevolveTraceFacts.
Import Op HRevolve HRevolveFacts HRevolveTrace.

Section keeps.
Context {B : Type} (good : Action → Prop) (proj : state → B).

Lemma keeps_bind {A A'} (m : Gen.gen Action state A)
    (f : A → Gen.gen Action state A') :
  keeps good proj m → (∀ a, keeps good proj (f a)) → keeps good proj (m ≫= f).
Proof.
  intros Hm Hf s. unfold mbind, Gen.gen_bind, Gen.bind.
  destruct (Hm s) as [Hout Hres].
  destruct (m s) as [out [[a s1]| |]]; simpl in *; [|done..].
  destruct (Hf a s1) as [Hout' Hres'].
  destruct (f a s1) as [out' res']; simpl in *. split.
  - by apply Forall_app.
  - intros a' s' H. rewrite (Hres' a' s' H). by eapply Hres.
Qed.

Lemma keeps_ret {A} (a : A) : keeps good proj (mret a).
Proof. intros s. simpl. split; [done|]. by intros ? ? [= _ <-]. Qed.

Lemma keeps_raise {A} e : keeps good proj (@Gen.raise Action state A e).
Proof. intros s. simpl. done. Qed.

Lemma keeps_get : keeps good proj Gen.get.
Proof. intros s. simpl. split; [done|]. by intros ? ? [= _ <-]. Qed.

Lemma keeps_lift {A} (x : result A) : keeps good proj (Gen.lift x).
Proof.
  intros s. destruct x; simpl; split; try done. by intros ? ? [= _ <-].
Qed.

Lemma keeps_yield a : good a → keeps good proj (Gen.yield a).
Proof.
  intros Ha s. simpl. split; [by apply Forall_singleton|].
  by intros ? ? [= _ <-].
Qed.

Lemma keeps_modify f : (∀ s, proj (f s) = proj s) → keeps good proj (Gen.modify f).
Proof. intros Hf s. simpl. split; [done|]. intros ? ? [= _ <-]. apply Hf. Qed.
End keeps.

(** Proves [keeps good proj m] along the structure of [m]; what is left
    is that the actions yielded are [good] and that the updates of the
    state keep [proj]. *)
Ltac keeps_tac :=
  repeat first
    [ apply keeps_get
    | apply keeps_raise
    | apply keeps_lift
    | apply keeps_ret
    | apply keeps_bind; [|intros ?]
    | apply keeps_yield
    | apply keeps_modify; intros ?
    | match goal with
      | |- keeps _ _ (if ?b then _ else _) => destruct b
      | |- keeps _ _ (match ?x with _ => _ end) => destruct x
      end ].

Section steps.
Variables (max_n : Z) (schedule : list Operation).

(** No operation but [Backward] yields a [Reverse] or changes [r]. *)
Lemma write_deferred_cp_keeps_r : keeps not_reverse r write_deferred_cp.
Proof. unfold write_deferred_cp. keeps_tac; done. Qed.

Lemma do_forward_keeps_r n_0 n_1 : keeps not_reverse r (do_forward n_0 n_1).
Proof. unfold do_forward. keeps_tac; done. Qed.

Lemma do_read_keeps_r i n_0 storage :
  keeps not_reverse r (do_read max_n schedule i n_0 storage).
Proof. unfold do_read. keeps_tac; done. Qed.

Lemma do_write_keeps_r i n_0 storage :
  keeps not_reverse r (do_write schedule i n_0 storage).
Proof.
  unfold do_write. keeps_tac; try done; apply write_deferred_cp_keeps_r.
Qed.

Lemma do_discard_keeps_r i n_0 storage :
  keeps not_reverse r (do_discard schedule i n_0 storage).
Proof. unfold do_discard. keeps_tac; done. Qed.

(** *** The order of the [Reverse] actions *)

Lemma reverses_app out out' : reverses (out ++ out') = reverses out ++ reverses out'.
Proof. apply omap_app. Qed.

Lemma reverses_not_reverse out : Forall not_reverse out → reverses out = [].
Proof.
  induction 1 as [|a out Ha _ IH]; [done|].
  destruct a; try exact IH. by destruct (Ha n1 n0).
Qed.

Lemma countdown_from_app top k k' :
  countdown_from top (k + k')
  = countdown_from top k ++ countdown_from (top - Z.of_nat k) k'.
Proof.
  unfold countdown_from. rewrite seq_app, fmap_app. f_equal. simpl.
  replace k with (k + 0) at 1 by lia.
  rewrite <- fmap_add_seq, <- list_fmap_compose.
  apply list_fmap_ext. intros i x _. simpl. f_equal; lia.
Qed.

Lemma reversing_keeps {A} (m : Gen.gen Action state A) :
  keeps not_reverse r m → reversing max_n m.
Proof.
  intros Hm s. destruct (Hm s) as [Hout Hres]. exists 0. split.
  - by apply reverses_not_reverse.
  - intros a s' H. rewrite (Hres a s' H). lia.
Qed.

Lemma reversing_bind {A A'} (m : Gen.gen Action state A)
    (f : A → Gen.gen Action state A') :
  reversing max_n m → (∀ a, reversing max_n (f a)) → reversing max_n (m ≫= f).
Proof.
  intros Hm Hf s. unfold mbind, Gen.gen_bind, Gen.bind.
  destruct (Hm s) as (k & Hout & Hres).
  destruct (m s) as [out [[a s1]| |]]; simpl in *; [|by exists k..].
  destruct (Hf a s1) as (k' & Hout' & Hres').
  destruct (f a s1) as [out' res']; simpl in *.
  specialize (Hres a s1 eq_refl). exists (k + k'). split.
  - rewrite reverses_app, countdown_from_app, Hout, Hout'.
    do 2 f_equal. lia.
  - intros a' s' H. rewrite (Hres' a' s' H). lia.
Qed.

(** A [Backward] that is accepted yields the [Reverse] of the step below
    [max_n - r] and advances [r]. *)
Lemma do_backward_reversing ix : reversing max_n (do_backward max_n ix).
Proof.
  intros s. unfold do_backward. destruct ix as [n_0|a b]; [|by exists 0].
  destruct s as [n r e sn [[d_n d_st]|] cd];
    cbv [mbind mret Gen.gen_bind Gen.gen_ret Gen.bind Gen.ret Gen.lift Gen.get
         Gen.yield Gen.modify Gen.raise write_deferred_cp]; simpl;
    repeat case_bool_decide; simpl;
    first [ by exists 0
          | exists 1; split;
            [unfold countdown_from; simpl; repeat f_equal; lia
            |by intros ? ? [= _ <-]] ].
Qed.

Lemma step_reversing i : reversing max_n (step max_n schedule i).
Proof.
  unfold step. apply reversing_bind.
  { apply reversing_keeps, keeps_lift. }
  intros [n_0 n_1|ix|n_0 st|n_0 st|n_0 st].
  - apply reversing_keeps, do_forward_keeps_r.
  - apply do_backward_reversing.
  - apply reversing_keeps, do_read_keeps_r.
  - apply reversing_keeps, do_write_keeps_r.
  - apply reversing_keeps, do_discard_keeps_r.
Qed.

Lemma for_each_reversing ixs : reversing max_n (for_each max_n schedule ixs).
Proof.
  induction ixs as [|i ixs IH]; simpl.
  - apply reversing_keeps, keeps_ret.
  - apply reversing_bind; [apply step_reversing|]. intros _. apply IH.
Qed.

Lemma finish_keeps_r : keeps not_reverse r finish.
Proof. unfold finish. keeps_tac; done. Qed.

(** X20: whatever the schedule and the state [iter] starts from, the
    [Reverse] actions it yields are [Reverse(max_n - r, max_n - r - 1)],
    [Reverse(max_n - r - 1, max_n - r - 2)], ...: consecutive steps
    downwards from [max_n - r], also when the iteration ends with an
    exception; an iteration that reaches its end has advanced [r] by
    their number. *)
Theorem run_reverses_in_order s :
  ∃ k : nat,
    reverses (run max_n schedule s).1 = countdown_from (max_n - r s) k
    ∧ ∀ s', (run max_n schedule s).2 = Ok (tt, s') →
        r s' = (r s + Z.of_nat k)%Z.
Proof.
  assert (reversing max_n (run max_n schedule)) as H.
  { unfold run. apply reversing_bind; [apply for_each_reversing|].
    intros _. apply reversing_keeps, finish_keeps_r. }
  destruct (H s) as (k & Hout & Hres). exists k. split; [done|].
  intros s'. apply Hres.
Qed.

(** *** The end of the iteration *)

Lemma write_deferred_cp_keeps_exhausted :
  keeps not_end_reverse exhausted write_deferred_cp.
Proof. unfold write_deferred_cp. keeps_tac; done. Qed.

Lemma step_keeps_exhausted i :
  keeps not_end_reverse exhausted (step max_n schedule i).
Proof.
  unfold step, do_forward, do_backward, do_read, do_write, do_discard.
  keeps_tac; try done; apply write_deferred_cp_keeps_exhausted.
Qed.

Lemma for_each_keeps_exhausted ixs :
  keeps not_end_reverse exhausted (for_each max_n schedule ixs).
Proof.
  induction ixs as [|i ixs IH]; simpl; [apply keeps_ret|].
  apply keeps_bind; [apply step_keeps_exhausted|]. intros _. apply IH.
Qed.

(** X21: [EndReverse] is yielded once at most, and last: an iteration
    that reaches its end yields [Clear(True, True)], [EndReverse(True)]
    as its last two actions and no [EndReverse] before, and leaves
    [_exhausted = True] and an empty [snapshots]; an iteration that ends
    with an exception yields no [EndReverse]. *)
Theorem run_end s :
  match (run max_n schedule s).2 with
  | Ok (_, s') =>
      exhausted s' = true ∧ snapshots s' = ∅
      ∧ ∃ out0, (run max_n schedule s).1
                = out0 ++ [Clear true true; EndReverse true]
                ∧ Forall not_end_reverse out0
  | _ => Forall not_end_reverse (run max_n schedule s).1
  end.
Proof.
  unfold run. rewrite gen_bind_unfold.
  destruct (for_each_keeps_exhausted (range 0 (length schedule)) s)
    as [Hout _].
  destruct (for_each max_n schedule _ s) as [out [[[] s1]| |]]; simpl in *;
    [|done..].
  unfold finish. rewrite gen_bind_get. case_bool_decide as Hsize; simpl.
  { by rewrite app_nil_r. }
  split_and!; [done| |by exists out]. by apply leibniz_equiv, size_empty_inv.
Qed.

(** X22: a raw [Discard(level, n0)] at position [i] yields no action
    and changes nothing. It is accepted exactly when the level is 0 or 1,
    [i ≥ 2] and the operation at [i - 2] decodes to the [Read] of the
    same step and storage; otherwise the iteration ends there with an
    exception. *)
Theorem step_discard i level n_0 s :
  schedule !! i = Some (Operation_ Op.Discard (Pair level n_0)) →
  (step max_n schedule i s).1 = []
  ∧ ((∃ storage, storage_name level = Ok storage ∧ 2 ≤ i
        ∧ action schedule (i - 2) = Ok (A_Read n_0 storage)) →
     (step max_n schedule i s).2 = Ok (tt, s))
  ∧ (∀ x, (step max_n schedule i s).2 = Ok x →
     x = (tt, s)
     ∧ ∃ storage, storage_name level = Ok storage ∧ 2 ≤ i
         ∧ action schedule (i - 2) = Ok (A_Read n_0 storage)).
Proof.
  intros Hi.
  assert (action schedule i
          = storage_name level ≫= λ st, Ok (A_Discard n_0 st)) as Ha.
  { unfold action. rewrite Hi. simpl. by destruct (storage_name level). }
  unfold step. rewrite gen_bind_unfold, Ha.
  destruct (storage_name level) as [storage| |] eqn:Hst; simpl;
    [|split_and!; [done|by intros (? & [=] & _)|done]..].
  unfold do_discard.
  case_bool_decide as Hpos; simpl.
  { split_and!; [done| |done]. intros (? & _ & ? & _). lia. }
  rewrite gen_bind_unfold.
  destruct (action schedule (i - 2)) as [[| |r_n_0 r_storage| |]| |] eqn:Hact;
    simpl; try (split_and!; [done|by intros (? & _ & _ & [=])|done]).
  case_bool_decide as Hne; simpl.
  - split_and!; [done| |done].
    intros (? & [= <-] & _ & [= -> ->]). by destruct Hne.
  - assert (r_n_0 = n_0 ∧ r_storage = storage) as [-> ->].
    { split; [destruct (decide (r_n_0 = n_0))
              |destruct (decide (r_storage = storage))]; tauto. }
    split_and!; [done..|]. intros x [= <-]. split; [done|].
    exists storage. split_and!; [done|lia|done].
Qed.

(** X23: a raw [Write(level, n0)] at position [i] with a level 0 or 1.
    With [n0 ≠ n] it raises "Invalid checkpointing state" and yields
    nothing. Otherwise it flushes the write deferred before it; then, in
    the first position or after an operation that decodes to another
    kind than [Read], the new write is deferred and nothing else is
    yielded; after a [Read] of the same step it is yielded at once,
    and after a [Read] of another step "Invalid schedule" is raised. *)
Theorem step_write i level n_0 storage s :
  schedule !! i = Some (Operation_ Op.Write (Pair level n_0)) →
  storage_name level = Ok storage →
  (n_0 ≠ n s → step max_n schedule i s = ([], Raise invalid_state))
  ∧ (n_0 = n s →
     (i = 0 ∨ (∃ a, action schedule (i - 1) = Ok a
                    ∧ ∀ r_n_0 st, a ≠ A_Read r_n_0 st)) →
     step max_n schedule i s
     = (flushed_actions s,
        Ok (tt, set_deferred_cp (Some (n_0, storage))
                  (set_snapshots (flushed_snapshots s) s))))
  ∧ (n_0 = n s → 0 < i →
     ∀ r_n_0 st, action schedule (i - 1) = Ok (A_Read r_n_0 st) →
     step max_n schedule i s
     = if bool_decide (r_n_0 = n_0) then
         (flushed_actions s ++ [Write n_0 storage],
          Ok (tt, set_deferred_cp None
                    (set_snapshots ({[n_0]} ∪ flushed_snapshots s) s)))
       else (flushed_actions s, Raise invalid_schedule)).
Proof.
  intros Hi Hst.
  assert (step max_n schedule i s = do_write schedule i n_0 storage s) as ->.
  { unfold step, action. rewrite gen_bind_unfold, Hi. simpl. rewrite Hst. simpl.
    by destruct (do_write schedule i n_0 storage s). }
  unfold do_write. rewrite gen_bind_get.
  split_and!.
  - intros Hn. by rewrite bool_decide_true.
  - intros Hn Hprev.
    rewrite bool_decide_false by (intros ?; done).
    rewrite gen_bind_unfold, write_deferred_cp_spec, gen_bind_modify.
    destruct Hprev as [->|(a & Ha & Hnot)].
    + simpl. by rewrite app_nil_r.
    + case_bool_decide; simpl; [|by rewrite app_nil_r].
      rewrite gen_bind_unfold, Ha. simpl.
      destruct a; simpl; try by rewrite app_nil_r.
      by destruct (Hnot n_1 storage0).
  - intros Hn Hpos r_n_0 st Ha.
    rewrite bool_decide_false by (intros ?; done).
    rewrite gen_bind_unfold, write_deferred_cp_spec, gen_bind_modify.
    rewrite bool_decide_true by done.
    rewrite gen_bind_unfold, Ha. simpl.
    repeat case_bool_decide; try (exfalso; tauto).
    + simpl. by rewrite app_nil_r.
    + by rewrite write_deferred_cp_spec.
Qed.

(** X24: a raw [Forward(n0)] at position [i] is accepted exactly when
    [n0 = n]: it then yields [Clear(True, True)], [Configure(n0 not in
    snapshots, False)], [Forward(n0, n0 + 1)] and leaves [n = n0 + 1],
    and otherwise raises "Invalid checkpointing state" before it yields
    anything. A raw [Forwards(n0, n1)] raises "Invalid schedule" for
    [n1 ≤ n0] and otherwise does the same up to [n1 + 1]. A deferred
    write stays deferred. *)
Theorem step_forward i n_0 n_1 s :
  (schedule !! i = Some (Operation_ Op.Forward (Step n_0)) →
   step max_n schedule i s
   = if bool_decide (n_0 = n s) then
       ([Clear true true; Configure (bool_decide (n_0 ∉ snapshots s)) false;
         Forward n_0 (n_0 + 1)],
        Ok (tt, set_n (n_0 + 1) s))
     else ([], Raise invalid_state))
  ∧ (schedule !! i = Some (Operation_ Op.Forwards (Pair n_0 n_1)) →
     step max_n schedule i s
     = if bool_decide (n_1 ≤ n_0)%Z then ([], Raise invalid_schedule)
       else if bool_decide (n_0 = n s) then
         ([Clear true true; Configure (bool_decide (n_0 ∉ snapshots s)) false;
           Forward n_0 (n_1 + 1)],
          Ok (tt, set_n (n_1 + 1) s))
       else ([], Raise invalid_state)).
Proof.
  split; intros Hi; unfold step, action; rewrite Hi; simpl;
    unfold do_forward;
    cbv [mbind mret Gen.gen_bind Gen.gen_ret Gen.bind Gen.ret Gen.lift Gen.get
         Gen.yield Gen.modify Gen.raise]; simpl;
    repeat case_bool_decide; simpl; try reflexivity; exfalso; tauto.
Qed.

(** *** The steps in storage *)

Lemma replay_app stored out out' :
  replay stored (out ++ out') = replay stored out ≫= λ stored', replay stored' out'.
Proof.
  revert stored. induction out as [|a out IH]; intros stored; [done|].
  destruct a as [| | | |n_0 st [|]|n_0 st| |]; simpl; try apply IH.
  case_bool_decide; [apply IH|done].
Qed.

Lemma tracks_bind {A A'} (m : Gen.gen Action state A)
    (f : A → Gen.gen Action state A') :
  tracks m → (∀ a, tracks (f a)) → tracks (m ≫= f).
Proof.
  intros Hm Hf s. rewrite gen_bind_unfold.
  destruct (Hm s) as (stored & Hout & Hres).
  destruct (m s) as [out [[a s1]| |]]; simpl in *; [|by exists stored..].
  destruct (Hf a s1) as (stored' & Hout' & Hres').
  destruct (f a s1) as [out' res']; simpl in *.
  exists stored'. split; [|done].
  rewrite replay_app, Hout. simpl. by rewrite <- (Hres a s1 eq_refl).
Qed.

Lemma tracks_keeps {A} (m : Gen.gen Action state A) :
  keeps (λ a, ∀ stored out, replay stored (a :: out) = replay stored out)
    snapshots m →
  tracks m.
Proof.
  intros Hm s. destruct (Hm s) as [Hout Hres]. exists (snapshots s). split.
  - generalize (snapshots s). induction Hout as [|a out Ha _ IH]; [done|].
    intros stored. by rewrite Ha.
  - done.
Qed.

Lemma write_deferred_cp_tracks : tracks write_deferred_cp.
Proof.
  intros s. rewrite write_deferred_cp_spec.
  destruct s as [n r e sn [[n_0 st]|] cd]; simpl;
    (eexists; split; [done|]; by intros ? ? [= _ <-]).
Qed.

Lemma do_forward_tracks n_0 n_1 : tracks (do_forward n_0 n_1).
Proof. apply tracks_keeps. unfold do_forward. keeps_tac; done. Qed.

Lemma do_backward_tracks ix : tracks (do_backward max_n ix).
Proof.
  unfold do_backward. apply tracks_bind; [apply tracks_keeps, keeps_get|].
  intros s. destruct ix as [n_0|]; [|apply tracks_keeps, keeps_raise].
  do 2 (case_bool_decide; [apply tracks_keeps, keeps_raise|]).
  apply tracks_bind; [apply write_deferred_cp_tracks|]. intros _.
  apply tracks_keeps. keeps_tac; done.
Qed.

Lemma do_read_tracks i n_0 storage :
  tracks (do_read max_n schedule i n_0 storage).
Proof.
  unfold do_read. apply tracks_bind; [apply tracks_keeps, keeps_get|].
  intros s. case_bool_decide; [apply tracks_keeps, keeps_raise|].
  apply tracks_bind; [apply tracks_keeps; keeps_tac; done|]. intros _.
  apply tracks_bind; [apply tracks_keeps; keeps_tac; done|]. intros _.
  intros s'. rewrite gen_bind_get.
  destruct s' as [n r e sn dc [[|]|]];
    cbv [mbind mret Gen.gen_bind Gen.gen_ret Gen.bind Gen.ret Gen.lift Gen.get
         Gen.yield Gen.modify Gen.raise]; simpl.
  - case_bool_decide as Hin; simpl.
    + rewrite bool_decide_true by done. eexists. split; [done|].
      by intros ? ? [= _ <-].
    + by eexists.
  - eexists. split; [done|]. by intros ? ? [= _ <-].
  - by eexists.
Qed.

Lemma do_write_tracks i n_0 storage : tracks (do_write schedule i n_0 storage).
Proof.
  unfold do_write. apply tracks_bind; [apply tracks_keeps, keeps_get|].
  intros s. case_bool_decide; [apply tracks_keeps, keeps_raise|].
  apply tracks_bind; [apply write_deferred_cp_tracks|]. intros _.
  apply tracks_bind; [apply tracks_keeps; keeps_tac; done|]. intros _.
  case_bool_decide; [|apply tracks_keeps, keeps_ret].
  apply tracks_bind; [apply tracks_keeps, keeps_lift|].
  intros [| |r_n_0 st| |]; try apply tracks_keeps, keeps_ret.
  case_bool_decide; [apply tracks_keeps, keeps_raise|].
  apply write_deferred_cp_tracks.
Qed.

Lemma step_tracks i : tracks (step max_n schedule i).
Proof.
  unfold step. apply tracks_bind; [apply tracks_keeps, keeps_lift|].
  intros [n_0 n_1|ix|n_0 st|n_0 st|n_0 st].
  - apply do_forward_tracks.
  - apply do_backward_tracks.
  - apply do_read_tracks.
  - apply do_write_tracks.
  - apply tracks_keeps. unfold do_discard. keeps_tac; done.
Qed.

Lemma for_each_tracks ixs : tracks (for_each max_n schedule ixs).
Proof.
  induction ixs as [|i ixs IH]; simpl; [apply tracks_keeps, keeps_ret|].
  apply tracks_bind; [apply step_tracks|]. intros _. apply IH.
Qed.

(** X25: the [Write] and the deleting [Read] actions of an iteration
    agree with a store that holds [snapshots] at the start: a step is
    deleted only while it is stored, whatever the schedule is and also
    when the iteration ends with an exception, and an iteration that
    reaches its end leaves the store empty. *)
Theorem run_storage s :
  ∃ stored,
    replay (snapshots s) (run max_n schedule s).1 = Some stored
    ∧ ∀ s', (run max_n schedule s).2 = Ok (tt, s') → stored = ∅.
Proof.
  unfold run. rewrite gen_bind_unfold.
  destruct (for_each_tracks (range 0 (length schedule)) s)
    as (stored & Hout & Hres).
  destruct (for_each max_n schedule _ s) as [out [[[] s1]| |]]; simpl in *;
    [|by exists stored..].
  specialize (Hres tt s1 eq_refl).
  unfold finish. rewrite gen_bind_get. case_bool_decide as Hsize; simpl.
  { exists stored. by rewrite app_nil_r. }
  exists stored. split.
  - rewrite replay_app, Hout. done.
  - intros _ _. rewrite <- Hres. by apply leibniz_equiv, size_empty_inv.
Qed.

End steps.

(** A [Discard] two positions after the [Read] of the same step. *)
Lemma step_discard_witness :
  step 1 [Operation_ Op.Read (Pair 0 0); Operation_ Op.Backward (Step 0);
          Operation_ Op.Discard (Pair 0 0)] 2 initial_state
  = ([], Ok (tt, initial_state)).
Proof.
  destruct (step_discard 1
              [Operation_ Op.Read (Pair 0 0); Operation_ Op.Backward (Step 0);
               Operation_ Op.Discard (Pair 0 0)] 2 0 0 initial_state eq_refl)
    as (Hout & Hres & _).
  rewrite (surjective_pairing (step _ _ _ _)), Hout, Hres; [reflexivity|].
  exists "RAM". split_and!; [reflexivity|lia|reflexivity].
Defined.

(** A [Write] in the first position is deferred. *)
Lemma step_write_witness :
  step 1 [Operation_ Op.Write (Pair 0 0)] 0 initial_state
  = ([], Ok (tt, State 0 0 false ∅ (Some (0%Z, "RAM")) None)).
Proof.
  rewrite (proj1 (proj2 (step_write 1 [Operation_ Op.Write (Pair 0 0)] 0 0 0
                           "RAM" initial_state eq_refl eq_refl))
             eq_refl (or_introl eq_refl)).
  reflexivity.
Defined.

(** A [Forward] with an int index, from the initial state. *)
Lemma step_forward_witness :
  step 1 [Operation_ Op.Forward (Step 0)] 0 initial_state
  = ([Clear true true; Configure true false; Forward 0 1],
     Ok (tt, State 1 0 false ∅ None None)).
Proof.
  rewrite (proj1 (step_forward 1 [Operation_ Op.Forward (Step 0)] 0 0 0
                    initial_state) eq_refl).
  reflexivity.
Defined.

End HRevolveTraceFacts.

(** ** The actions of the two-level schedule *)

Module TwoLevelTraceFacts.
Import TwoLevel TwoLevelTrace.

Lemma adjoint_steps_app evs evs' :
  adjoint_steps (evs ++ evs') = adjoint_steps evs ++ adjoint_steps evs'.
Proof. apply omap_app. Qed.

Lemma adjoint_countdown_app top k k' :
  adjoint_countdown top (k + k')
  = adjoint_countdown top k ++ adjoint_countdown (top - Z.of_nat k) k'.
Proof.
  unfold adjoint_countdown. rewrite seq_app, flat_map_app. f_equal. simpl.
  replace k with (k + 0) at 1 by lia.
  rewrite <- fmap_add_seq. generalize (seq 0 k'). intros l.
  induction l as [|i l IH]; [done|]. rewrite fmap_cons. cbn [flat_map].
  rewrite IH. simpl. f_equal; [f_equal; lia|f_equal; f_equal; lia].
Qed.

(** *** What does not advance the adjoint *)

Lemma silent_bind {A B} (Q : A → state → Prop) (R : B → state → Prop)
    (m : Gen.gen event state A) (f : A → Gen.gen event state B) s :
  silent Q m s → (∀ a s', Q a s' → silent R (f a) s') → silent R (m ≫= f) s.
Proof.
  unfold silent. rewrite gen_bind_unfold. intros [Hout Hres] Hf.
  destruct (m s) as [out [[a s1]| |]]; simpl in *; [|done..].
  destruct (Hf a s1 (Hres a s1 eq_refl)) as [Hout' Hres'].
  destruct (f a s1) as [out' res']; simpl in *.
  by rewrite adjoint_steps_app, Hout, Hout'.
Qed.

Lemma silent_weaken {A} (P Q : A → state → Prop) m s :
  (∀ a s', P a s' → Q a s') → silent P m s → silent Q m s.
Proof. intros HPQ [Hout Hres]. split; [done|]. eauto. Qed.

Lemma silent_get_bind {B} (P : B → state → Prop)
    (f : state → Gen.gen event state B) s :
  silent P (f s) s → silent P (Gen.get ≫= f) s.
Proof. unfold silent. by rewrite gen_bind_get. Qed.

Lemma silent_modify_bind {B} (P : B → state → Prop) (g : state → state)
    (f : unit → Gen.gen event state B) s :
  silent P (f tt) (g s) → silent P (Gen.modify g ≫= f) s.
Proof. unfold silent. by rewrite gen_bind_modify. Qed.

Lemma silent_ret {A} (P : A → state → Prop) (a : A) s :
  P a s → silent P (mret a) s.
Proof. intros HP. split; [done|]. by intros ? ? [= <- <-]. Qed.

Lemma silent_raise {A} (P : A → state → Prop) e s :
  silent P (@Gen.raise event state A e) s.
Proof. by split. Qed.

Lemma silent_out_of_fuel {A} (P : A → state → Prop) s :
  silent P (@Gen.out_of_fuel event state A) s.
Proof. by split. Qed.

Lemma silent_lift {A} (P : A → state → Prop) (x : result A) s :
  (∀ a, x = Ok a → P a s) → silent P (Gen.lift x) s.
Proof.
  intros HP. destruct x; split; try done. intros ? ? [= <- <-]. by apply HP.
Qed.

(** A [Copy], a [Move] and a [Forward] that does not store the data of
    the adjoint. *)
Lemma silent_yield (P : unit → state → Prop) a snapshots s :
  (match a with
   | Forward _ _ _ w _ => w = false
   | Reverse _ _ _ => False
   | _ => True
   end) →
  P tt s → silent P (yield a snapshots) s.
Proof.
  intros Ha HP. split.
  - unfold adjoint_steps. simpl. destruct a; try done. by subst.
  - by intros ? ? [= <- <-].
Qed.

Section trace.
Variable sch : TwoLevelCheckpointSchedule.
Variable n_advance : Z → Z → string → result Z.

Lemma advance_silent mx n_snapshots s :
  silent (λ _ s', r s' = r s) (advance sch n_advance mx n_snapshots) s.
Proof.
  unfold advance. apply silent_get_bind.
  eapply silent_bind; [by apply (silent_lift (λ _ s', s' = s))|].
  intros k s1 ->. simpl. destruct (negb _); [apply silent_raise|].
  apply silent_modify_bind. by apply silent_ret.
Qed.

Lemma inner_loop_silent fuel mx snapshots s :
  silent (λ _ s', r s' = r s) (inner_loop sch n_advance fuel mx snapshots) s.
Proof.
  revert snapshots s. induction fuel as [|fuel IH]; intros snapshots s; simpl.
  { apply silent_out_of_fuel. }
  apply silent_get_bind. case_bool_decide; [|by apply silent_ret].
  eapply silent_bind; [apply advance_silent|]. intros [n0 n1] s1 Hs1. simpl.
  eapply silent_bind; [by apply (silent_yield (λ _ s', s' = s1))|].
  intros _ s2 ->. simpl. case_bool_decide; [apply silent_raise|].
  eapply silent_weaken; [|apply IH]. simpl. intros. congruence.
Qed.

(** The first part of the body of the block loop (lines 89-131) leaves
    [self._n] at the step to reverse. *)
Lemma restore_silent mx n0s snapshots cp_n s :
  silent (λ _ s', n s' = mx - r s' - 1 ∧ r s' = r s)%Z
    (if bool_decide (cp_n = mx - r s - 1)%Z then
       let popped := removelast snapshots in
       _ ← Gen.modify (set_n cp_n);
       _ ← (if bool_decide (cp_n = n0s) then
              yield (Copy cp_n DISK FWD_RESTART) popped
            else yield (Move cp_n (_binomial_storage sch) FWD_RESTART) popped);
       mret popped
     else
       _ ← Gen.modify (set_n cp_n);
       _ ← (if bool_decide (cp_n = n0s) then
              yield (Copy cp_n DISK FWD_RESTART) snapshots
            else yield (Copy cp_n (_binomial_storage sch) FWD_RESTART)
                   snapshots);
       let n_snapshots :=
         (_binomial_snapshots sch + 1 - Z.of_nat (length snapshots) + 1)%Z in
       '(n0, n1) ← advance sch n_advance mx n_snapshots;
       _ ← yield (Forward n0 n1 false false FWD_RESTART) snapshots;
       snaps ← inner_while sch n_advance mx snapshots;
       s1 ← Gen.get;
       if bool_decide (n s1 ≠ mx - r s1 - 1)%Z then Gen.raise invalid_state
       else mret snaps) s.
Proof.
  case_bool_decide as Hcp.
  - apply silent_modify_bind.
    eapply (silent_bind (λ _ s', s' = set_n cp_n s)).
    { case_bool_decide; by apply silent_yield. }
    intros _ s1 ->. apply silent_ret. simpl. lia.
  - apply silent_modify_bind.
    eapply (silent_bind (λ _ s', s' = set_n cp_n s)).
    { case_bool_decide; by apply silent_yield. }
    intros _ s1 ->.
    eapply silent_bind; [apply advance_silent|]. intros [n0 n1] s2 Hs2.
    eapply silent_bind; [by apply (silent_yield (λ _ s', s' = s2))|].
    intros _ s3 ->.
    eapply silent_bind.
    { unfold inner_while. apply silent_get_bind. apply inner_loop_silent. }
    simpl. intros snaps s3 Hs3. apply silent_get_bind.
    case_bool_decide as Hn; [apply silent_raise|].
    apply silent_ret. simpl in *. split; [lia|congruence].
Qed.

(** An iteration of the block loop that completes advances the adjoint
    over the step below [max_n - r]. *)
Lemma block_body_advancing mx n0s snapshots :
  advancing mx (block_body sch n_advance mx n0s snapshots).
Proof.
  intros s. unfold block_body.
  destruct (last snapshots) as [cp_n|]; [|by exists 0].
  rewrite gen_bind_get, gen_bind_unfold.
  destruct (restore_silent mx n0s snapshots cp_n s) as [Hout Hres].
  match goal with
  | |- context [match ?m s with _ => _ end] =>
      destruct (m s) as [out [[snaps s2]| |]]
  end; simpl in *; [|by exists 0..].
  destruct (Hres snaps s2 eq_refl) as [Hn Hr].
  exists 1. split.
  - rewrite adjoint_steps_app, Hout. unfold adjoint_countdown. simpl.
    unfold adjoint_steps. simpl.
    f_equal; [f_equal; lia|f_equal; f_equal; lia].
  - intros ? ? [= _ <-]. simpl. lia.
Qed.

Lemma advancing_silent {A} mx (m : Gen.gen event state A) :
  (∀ s, silent (λ _ s', r s' = r s) m s) → advancing mx m.
Proof.
  intros Hm s. destruct (Hm s) as [Hout Hres]. exists 0. split; [done|].
  intros a s' H. rewrite (Hres a s' H). lia.
Qed.

Lemma advancing_bind {A B} mx (m : Gen.gen event state A)
    (f : A → Gen.gen event state B) :
  advancing mx m → (∀ a, advancing mx (f a)) → advancing mx (m ≫= f).
Proof.
  intros Hm Hf s. rewrite gen_bind_unfold.
  destruct (Hm s) as (k & Hout & Hres).
  destruct (m s) as [out [[a s1]| |]]; simpl in *; [|by exists k..].
  destruct (Hf a s1) as (k' & Hout' & Hres').
  destruct (f a s1) as [out' res']; simpl in *.
  specialize (Hres a s1 eq_refl). exists (k + k'). split.
  - rewrite adjoint_steps_app, adjoint_countdown_app, Hout, Hout'.
    do 2 f_equal. lia.
  - intros a' s' H. rewrite (Hres' a' s' H). lia.
Qed.

Lemma advancing_get_bind {B} mx (f : state → Gen.gen event state B) :
  (∀ s, advancing mx (f s)) → advancing mx (Gen.get ≫= f).
Proof. intros Hf s. rewrite gen_bind_get. apply Hf. Qed.

Lemma advancing_ret {A} mx (a : A) :
  advancing mx (mret a : Gen.gen event state A).
Proof. apply advancing_silent. intros s. by apply silent_ret. Qed.

Lemma advancing_raise {A} mx e : advancing mx (@Gen.raise event state A e).
Proof. apply advancing_silent. intros s. apply silent_raise. Qed.

Lemma block_loop_advancing fuel mx n0s snapshots :
  advancing mx (block_loop sch n_advance fuel mx n0s snapshots).
Proof.
  revert snapshots. induction fuel as [|fuel IH]; intros snapshots; simpl.
  { intros s. by exists 0. }
  apply advancing_get_bind. intros s. case_bool_decide; [|apply advancing_ret].
  apply advancing_bind; [apply block_body_advancing|]. intros snapshots'.
  apply IH.
Qed.

Lemma reverse_block_advancing mx :
  advancing mx (reverse_block sch n_advance mx).
Proof.
  unfold reverse_block. apply advancing_get_bind. intros s.
  case_bool_decide; [apply advancing_raise|].
  case_bool_decide; [apply advancing_raise|].
  apply advancing_bind.
  { unfold block_while. apply advancing_get_bind. intros s0.
    apply block_loop_advancing. }
  intros snapshots. apply advancing_get_bind. intros s'.
  case_bool_decide; [apply advancing_raise|].
  case_bool_decide; [apply advancing_raise|apply advancing_ret].
Qed.

Lemma outer_loop_advancing fuel mx :
  advancing mx (outer_loop sch n_advance fuel mx).
Proof.
  induction fuel as [|fuel IH]; simpl.
  { intros s. by exists 0. }
  apply advancing_get_bind. intros s. case_bool_decide; [|apply advancing_ret].
  apply advancing_bind; [apply reverse_block_advancing|]. intros _. apply IH.
Qed.

(** X26: whatever [n_advance] returns, the actions of a reverse pass
    that advance the adjoint are [Forward(n-1, n, False, True,
    ADJ_DEPS)], [Reverse(n, n-1, True)] for [n = max_n - r],
    [max_n - r - 1], ..., one step at a time and downwards, also when
    the pass ends with an exception; a pass that reaches its end has
    reversed all the [max_n - r] steps that were left. *)
Theorem reverse_pass_adjoint_steps mx s :
  ∃ k : nat,
    adjoint_steps (reverse_pass sch n_advance mx s).1
    = adjoint_countdown (mx - r s) k
    ∧ ∀ s', (reverse_pass sch n_advance mx s).2 = Ok (tt, s') →
        (r s ≤ mx)%Z ∧ k = Z.to_nat (mx - r s).
Proof.
  unfold reverse_pass. rewrite gen_bind_unfold.
  destruct (advancing_get_bind mx _
              (λ s0, outer_loop_advancing (S (Z.to_nat (mx - r s0))) mx) s)
    as (k & Hout & Hres).
  fold (outer_while sch n_advance mx) in Hout, Hres.
  destruct (outer_while sch n_advance mx s) as [out [[[] s1]| |]];
    simpl in *; [|by exists k..].
  specialize (Hres tt s1 eq_refl).
  rewrite gen_bind_get. case_bool_decide as Hr; simpl.
  { exists k. by rewrite app_nil_r. }
  exists k. rewrite adjoint_steps_app, Hout, app_nil_r.
  split; [done|]. intros _ _. lia.
Qed.

Lemma forward_loop_spec k mx s :
  forward_loop sch k mx s
  = (forward_actions sch (n s) k,
     Ok (tt, State (n s + Z.of_nat k * _period sch) (r s))).
Proof.
  revert s. induction k as [|k IH]; intros [n0 r0].
  { cbn [n r]. replace (n0 + Z.of_nat 0 * _period sch)%Z with n0 by lia.
    reflexivity. }
  cbn [forward_loop]. rewrite gen_bind_unfold.
  unfold forward_step at 1. rewrite gen_bind_get, gen_bind_modify.
  simpl. rewrite IH. simpl. unfold forward_actions.
  rewrite <- cons_seq, <- fmap_S_seq, fmap_cons, <- list_fmap_compose.
  f_equal.
  - f_equal.
    + f_equal. f_equal; lia.
    + apply list_fmap_ext. intros i x _. simpl. do 2 f_equal; lia.
  - do 3 f_equal. lia.
Qed.

(** X27: the forward phase, for a consumer that finalizes when it
    holds the [k]-th action: from the step [n] the iterator yields
    [Forward(n + i*period, n + (i+1)*period, True, False, DISK)] for
    [i = 0, ..., k - 1], then [EndForward], never raises, and leaves
    [n + k*period] as the position. *)
Theorem forward_phase_actions k mx s :
  forward_phase sch k mx s
  = (forward_actions sch (n s) k ++ [(EndForward, [])],
     Ok (tt, State (n s + Z.of_nat k * _period sch) (r s))).
Proof.
  unfold forward_phase. by rewrite gen_bind_unfold, forward_loop_spec.
Qed.

End trace.

End TwoLevelTraceFacts.

(** ** Reverse passes that complete *)

Module TwoLevelRunFacts.
Import TwoLevel TwoLevelRun.

Lemma succeeds_bind {A B} (Q : A → state → Prop) (R : B → state → Prop)
    (m : Gen.gen event state A) (f : A → Gen.gen event state B) s :
  succeeds Q m s → (∀ a s', Q a s' → succeeds R (f a) s') →
  succeeds R (m ≫= f) s.
Proof.
  intros (out & a & s1 & Hm & HQ) Hf.
  destruct (Hf a s1 HQ) as (out' & b & s2 & Hf' & HR).
  exists (out ++ out'), b, s2. split; [|done].
  by rewrite gen_bind_unfold, Hm, Hf'.
Qed.

Lemma succeeds_weaken {A} (P Q : A → state → Prop) m s :
  (∀ a s', P a s' → Q a s') → succeeds P m s → succeeds Q m s.
Proof. intros HPQ (out & a & s' & Hm & HP). exists out, a, s'. eauto. Qed.

Lemma succeeds_get_bind {B} (P : B → state → Prop)
    (f : state → Gen.gen event state B) s :
  succeeds P (f s) s → succeeds P (Gen.get ≫= f) s.
Proof. unfold succeeds. by rewrite gen_bind_get. Qed.

Lemma succeeds_modify_bind {B} (P : B → state → Prop) (g : state → state)
    (f : unit → Gen.gen event state B) s :
  succeeds P (f tt) (g s) → succeeds P (Gen.modify g ≫= f) s.
Proof. unfold succeeds. by rewrite gen_bind_modify. Qed.

Lemma succeeds_yield_bind {B} (P : B → state → Prop) a snapshots
    (f : unit → Gen.gen event state B) s :
  succeeds P (f tt) s → succeeds P (yield a snapshots ≫= f) s.
Proof.
  intros (out & b & s' & Hf & HP). exists ((a, snapshots) :: out), b, s'.
  split; [|done]. rewrite gen_bind_unfold. simpl. by rewrite Hf.
Qed.

Lemma succeeds_yield (P : unit → state → Prop) a snapshots s :
  P tt s → succeeds P (yield a snapshots) s.
Proof. intros HP. by exists [(a, snapshots)], tt, s. Qed.

Lemma succeeds_ret {A} (P : A → state → Prop) (a : A) s :
  P a s → succeeds P (mret a) s.
Proof. intros HP. by exists [], a, s. Qed.

(** *** The list of snapshots *)

Lemma stack_last n0s l : stack n0s l → ∃ top, last l = Some top ∧ (n0s ≤ top)%Z.
Proof.
  induction 1 as [|l top x _ (top' & Htop' & Hle) Htop Hx].
  - exists n0s. split; [done|lia].
  - exists x. split; [apply last_snoc|].
    rewrite Htop in Htop'. injection Htop' as ->. lia.
Qed.

Lemma stack_pop n0s l x :
  stack n0s (l ++ [x]) →
  (l = [] ∧ x = n0s)
  ∨ (stack n0s l ∧ ∃ top, last l = Some top ∧ (top < x)%Z).
Proof.
  inversion 1 as [Heq|l' top x' Hl' Htop Hx Heq].
  - left. destruct l as [|y [|z l]]; simpl in Heq; [|done..].
    by injection Heq as ->.
  - apply app_inj_tail in Heq as [-> ->]. right. eauto.
Qed.

Lemma fits_pop sch l x : fits sch (l ++ [x]) → fits sch l.
Proof. unfold fits. rewrite length_app. simpl. lia. Qed.

Section run.
Variable sch : TwoLevelCheckpointSchedule.
Variable n_advance : Z → Z → string → result Z.
Hypothesis period_positive : (1 ≤ _period sch)%Z.
Hypothesis binomial_snapshots_nonneg : (0 ≤ _binomial_snapshots sch)%Z.
Hypothesis n_advance_within : advances_within n_advance (_trajectory sch).

Local Abbreviation fits := (fits sch).
Local Abbreviation live_stack := (live_stack sch).

(** An advance over at least two steps, with a snapshot to use. *)
Lemma advance_succeeds mx n_snapshots s :
  (2 ≤ mx - r s - n s)%Z → (1 ≤ n_snapshots)%Z →
  succeeds (λ '(n0, n1) s',
              n0 = n s ∧ n1 = n s' ∧ r s' = r s
              ∧ (n s < n s' ≤ mx - r s - 1)%Z
              ∧ (n_snapshots = 1%Z → n s' = (mx - r s - 1)%Z))
    (advance sch n_advance mx n_snapshots) s.
Proof.
  intros Hn Hs. unfold advance. apply succeeds_get_bind.
  destruct (n_advance_within _ _ Hn Hs) as (k & Hk & Hrange & Hone).
  unfold succeeds. rewrite gen_bind_unfold, Hk. simpl.
  rewrite bool_decide_true by lia. simpl.
  eexists _, _, _. split; [done|]. simpl.
  split_and!; [done..|lia|lia|]. intros H1. rewrite (Hone H1). lia.
Qed.

(** The inner loop (lines 114-128) stores a snapshot per advance and
    stops at the step to reverse. *)
Lemma inner_loop_succeeds n0s fuel mx snapshots s :
  Z.to_nat (mx - r s - 1 - n s) < fuel →
  live_stack n0s (n s) snapshots →
  (n s ≤ mx - r s - 1)%Z →
  ((n s < mx - r s - 1)%Z →
   (Z.of_nat (length snapshots) ≤ _binomial_snapshots sch)%Z) →
  succeeds (λ snapshots' s',
              r s' = r s ∧ n s' = (mx - r s - 1)%Z
              ∧ live_stack n0s (mx - r s - 1) snapshots')
    (inner_loop sch n_advance fuel mx snapshots) s.
Proof.
  revert snapshots s.
  induction fuel as [|fuel IH]; intros snapshots s Hfuel Hst Hn Hroom; [lia|].
  simpl. apply succeeds_get_bind. case_bool_decide as Hlt.
  2: { apply succeeds_ret. split_and!; [done|lia|].
       destruct Hst as (Hstack & (top & Htop & Hb) & Hfit).
       split_and!; [done| |done]. exists top. split; [done|lia]. }
  specialize (Hroom Hlt).
  eapply succeeds_bind.
  { apply advance_succeeds; lia. }
  intros [n0 n1] s1 (-> & -> & Hr1 & Hn1 & Hone). simpl.
  apply succeeds_yield_bind. rewrite bool_decide_false by lia.
  eapply succeeds_weaken; [|apply IH].
  - simpl. intros snapshots' s' (Hr' & Hn' & Hst').
    rewrite Hr1 in *. done.
  - lia.
  - destruct Hst as (Hstack & (top & Htop & Hb) & Hfit).
    split_and!.
    + by eapply stack_push.
    + exists (n s). split; [apply last_snoc|lia].
    + unfold TwoLevel.fits. rewrite length_app. simpl. lia.
  - lia.
  - intros Hlt'. rewrite length_app. simpl.
    destruct (decide (_binomial_snapshots sch + 1
                      - Z.of_nat (length snapshots) = 1)%Z) as [H1|H1]; [|lia].
    specialize (Hone H1). lia.
Qed.

(** An iteration of the block loop reverses one step and leaves a list
    of snapshots for the next one, or none at the end of the block. *)
Lemma block_body_succeeds mx n0s snapshots s :
  live_stack n0s (mx - r s) snapshots →
  succeeds (λ snapshots' s',
              r s' = (r s + 1)%Z
              ∧ ((snapshots' = [] ∧ r s' = (mx - n0s)%Z)
                 ∨ live_stack n0s (mx - r s') snapshots'))
    (block_body sch n_advance mx n0s snapshots) s.
Proof.
  intros (Hstack & (cp_n & Htop & Hb) & Hfit). unfold block_body.
  rewrite Htop. apply succeeds_get_bind.
  apply last_Some in Htop as [l ->].
  eapply (succeeds_bind
            (λ snapshots' s',
               r s' = r s ∧ n s' = (mx - r s - 1)%Z
               ∧ ((snapshots' = [] ∧ r s + 1 = mx - n0s)%Z
                  ∨ live_stack n0s (mx - r s - 1) snapshots'))).
  - case_bool_decide as Hcp.
    + apply succeeds_modify_bind.
      eapply (succeeds_bind (λ _ s', s' = set_n cp_n s)).
      { case_bool_decide; by apply succeeds_yield. }
      intros _ s1 ->. apply succeeds_ret. simpl.
      split_and!; [done..|]. rewrite removelast_last.
      destruct (stack_pop _ _ _ Hstack) as [[-> ->]|(Hl & top & Htop & Hlt)].
      * left. split; [done|lia].
      * right. split_and!; [done| |by eapply fits_pop].
        exists top. split; [done|lia].
    + apply succeeds_modify_bind.
      eapply (succeeds_bind (λ _ s', s' = set_n cp_n s)).
      { case_bool_decide; by apply succeeds_yield. }
      intros _ s1 ->.
      assert (Z.of_nat (length (l ++ [cp_n])) ≤ _binomial_snapshots sch + 1)%Z
        as Hlen by exact Hfit.
      eapply succeeds_bind.
      { apply advance_succeeds; simpl; lia. }
      intros [n0 n1] s2 (-> & -> & Hr2 & Hn2 & Hone). simpl in *.
      apply succeeds_yield_bind.
      eapply succeeds_bind.
      { unfold inner_while. apply succeeds_get_bind.
        apply (inner_loop_succeeds n0s); [lia| |lia|].
        - split_and!; [done| |done]. exists cp_n.
          split; [apply last_snoc|lia].
        - intros Hlt.
          destruct (decide (_binomial_snapshots sch + 1
                            - Z.of_nat (length (l ++ [cp_n])) + 1 = 1)%Z)
            as [H1|H1]; [|lia].
          specialize (Hone H1). lia. }
      simpl. intros snaps s3 (Hr3 & Hn3 & Hst3).
      apply succeeds_get_bind. rewrite bool_decide_false by lia.
      apply succeeds_ret. rewrite Hr2 in *. split_and!; [done..|].
      by right.
  - intros snapshots' s2 (Hr2 & Hn2 & Hcase). simpl.
    apply succeeds_get_bind, succeeds_modify_bind, succeeds_yield_bind,
      succeeds_modify_bind, succeeds_yield_bind, succeeds_ret.
    simpl. split; [lia|]. destruct Hcase as [[-> ?]|Hst]; [left|right].
    + split; [done|lia].
    + by replace (mx - (r s2 + 1))%Z with (mx - r s - 1)%Z by lia.
Qed.

Lemma block_loop_succeeds fuel mx n0s snapshots s :
  Z.to_nat (mx - n0s - r s) < fuel →
  (snapshots = [] ∧ r s = (mx - n0s)%Z) ∨ live_stack n0s (mx - r s) snapshots →
  succeeds (λ snapshots' s', snapshots' = [] ∧ r s' = (mx - n0s)%Z)
    (block_loop sch n_advance fuel mx n0s snapshots) s.
Proof.
  revert snapshots s.
  induction fuel as [|fuel IH]; intros snapshots s Hfuel Hst; [lia|].
  simpl. apply succeeds_get_bind. destruct Hst as [[-> Hr]|Hst].
  { rewrite bool_decide_false by lia. by apply succeeds_ret. }
  assert (r s < mx - n0s)%Z as Hlt.
  { destruct Hst as (Hstack & (top & Htop & Hb) & _).
    destruct (stack_last _ _ Hstack) as (top' & Htop' & Hle).
    rewrite Htop in Htop'. injection Htop' as <-. lia. }
  rewrite bool_decide_true by done.
  eapply succeeds_bind; [by apply block_body_succeeds|].
  intros snapshots' s' (Hr' & Hcase). simpl. apply IH; [lia|done].
Qed.

(** The step at which the block of a step starts. *)
Lemma block_start mx s :
  (r s < mx)%Z → aligned sch mx s →
  let n0s := ((mx - r s - 1) `div` _period sch * _period sch)%Z in
  (n0s ≤ mx - r s - 1)%Z
  ∧ (Z.min (n0s + _period sch) mx = mx - r s)%Z
  ∧ (n0s `mod` _period sch = 0)%Z
  ∧ (0 ≤ mx - r s - 1 → 0 ≤ n0s)%Z.
Proof.
  intros Hr Hal n0s.
  pose proof (Z.div_mod (mx - r s - 1) (_period sch) ltac:(lia)) as Hdm.
  pose proof (Z.mod_pos_bound (mx - r s - 1) (_period sch) ltac:(lia)) as Hm.
  assert (n0s = mx - r s - 1 - (mx - r s - 1) `mod` _period sch)%Z as Hn0s
    by (unfold n0s; lia).
  split_and!.
  - lia.
  - destruct Hal as [H0|[Hr0 Hmod]].
    + rewrite H0 in *. lia.
    + assert ((mx - r s - 1) `mod` _period sch = _period sch - 1)%Z; [|lia].
      pose proof (Z.div_mod (mx - r s) (_period sch) ltac:(lia)) as Hdm'.
      rewrite Hmod in Hdm'.
      symmetry. apply (Z.mod_unique_pos _ _ ((mx - r s) `div` _period sch - 1));
        lia.
  - unfold n0s. apply Z.mod_mul. lia.
  - intros Hpos. unfold n0s.
    pose proof (Z.div_pos (mx - r s - 1) (_period sch) Hpos ltac:(lia)).
    lia.
Qed.

Lemma reverse_block_succeeds mx s :
  (r s < mx)%Z → aligned sch mx s →
  succeeds (λ _ s', (r s < r s' ≤ mx)%Z ∧ aligned sch mx s')
    (reverse_block sch n_advance mx) s.
Proof.
  intros Hr Hal. unfold reverse_block. apply succeeds_get_bind.
  destruct (block_start mx s Hr Hal) as (Hle & Hmin & Hmod & Hpos).
  rewrite bool_decide_false by lia.
  rewrite bool_decide_false by lia.
  eapply succeeds_bind.
  { unfold block_while. apply succeeds_get_bind.
    apply block_loop_succeeds; [lia|]. right.
    split_and!; [constructor| |].
    - eexists. split; [done|]. lia.
    - unfold TwoLevel.fits. simpl. lia. }
  simpl. intros snapshots s' [-> Hr']. apply succeeds_get_bind.
  rewrite bool_decide_false by lia. rewrite bool_decide_false by (simpl; lia).
  apply succeeds_ret. split; [lia|].
  right. split; [destruct Hal as [?|[? _]]; lia|].
  rewrite Hr'. rewrite <- Hmod. f_equal. lia.
Qed.

Lemma outer_loop_succeeds fuel mx s :
  Z.to_nat (mx - r s) < fuel → (r s ≤ mx)%Z → aligned sch mx s →
  succeeds (λ _ s', r s' = mx) (outer_loop sch n_advance fuel mx) s.
Proof.
  revert s. induction fuel as [|fuel IH]; intros s Hfuel Hr Hal; [lia|].
  simpl. apply succeeds_get_bind. case_bool_decide as Hlt.
  2: { apply succeeds_ret. lia. }
  eapply succeeds_bind; [by apply reverse_block_succeeds|].
  simpl. intros _ s' [Hr' Hal']. apply IH; [lia..|done].
Qed.

(** X28: for a period of at least 1, [binomial_snapshots ≥ 0] and an
    [n_advance] that, for [n ≥ 2] steps and at least one snapshot,
    returns a number of steps in [[1, n - 1]] and [n - 1] with a single
    snapshot, a reverse pass that starts with [r = 0] reaches its end
    for every [max_n ≥ 0]: none of the "Invalid checkpointing state"
    checks of lines 82-144 fires, and the snapshots never run out. *)
Theorem reverse_pass_completes mx s :
  (0 ≤ mx)%Z → r s = 0%Z →
  ∃ evs s', reverse_pass sch n_advance mx s = (evs, Ok (tt, s')).
Proof.
  intros Hmx Hr.
  assert (succeeds (λ _ _, True) (reverse_pass sch n_advance mx) s)
    as (evs & [] & s' & H & _); [|by exists evs, s'].
  unfold reverse_pass. eapply succeeds_bind.
  { unfold outer_while. apply succeeds_get_bind.
    apply outer_loop_succeeds; [lia|lia|by left]. }
  simpl. intros _ s1 Hr1. apply succeeds_get_bind.
  rewrite bool_decide_false by (intros ?; done).
  apply succeeds_modify_bind. by apply succeeds_yield.
Qed.

End run.

(** Seven steps in periods of three with two snapshots, and an
    [n_advance] that goes one step at a time while it has more than one
    snapshot. *)
Lemma reverse_pass_completes_witness :
  ∃ evs s',
    reverse_pass (Schedule 3 2 RAM "maximum")
      (λ n snapshots _, Ok (if bool_decide (snapshots = 1%Z) then n - 1 else 1)%Z)
      7 (State 9 0)
    = (evs, Ok (tt, s')).
Proof.
  apply (reverse_pass_completes (Schedule 3 2 RAM "maximum")
           (λ n snapshots _,
              Ok (if bool_decide (snapshots = 1%Z) then n - 1 else 1)%Z)).
  - simpl. lia.
  - simpl. lia.
  - intros n snapshots Hn Hs. eexists. split; [reflexivity|].
    case_bool_decide; lia.
  - lia.
  - reflexivity.
Defined.

End TwoLevelRunFacts.
